(** * The embedding modules of mammoth ([mammoth/modules/embeddings.py])

    A shallow embedding of [PositionalEncoding], [Embeddings],
    [PluggableEmbeddings] and [read_embeddings], and the properties the
    specification states about them.

    Python exceptions are values of [exn]; a call that may raise returns a
    [result].  Tensors are nested lists of scalars; the scalar type and the
    floating-point operations of Python and torch are the interface
    [FloatOps], so every theorem holds for every implementation of
    floating-point arithmetic.  Concrete runs use the instance over the
    real numbers of the Standard Library. *)

From Stdlib Require Import ZArith List Ascii String Reals Lra Lia.
From stdpp Require Import base option list strings gmap.

Local Open Scope Z_scope.

(** ** Python exceptions and results *)

Inductive exn : Type :=
  | ValueError (msg : string)
  | AssertionError (msg : string)
  | Exception (msg : string)
  | SequenceTooLongError
  | RuntimeError (msg : string)
  | KeyError (msg : string)
  | ZeroDivisionError
  | OverflowError
  | TypeError
  | IndexError
  | UnicodeDecodeError.

Inductive result (A : Type) : Type :=
  | Ok (a : A)
  | Raise (e : exn).
Arguments Ok {A} a.
Arguments Raise {A} e.

Definition rbind {A B} (r : result A) (k : A → result B) : result B :=
  match r with
  | Ok a => k a
  | Raise e => Raise e
  end.

Notation "x ←! r ; k" := (rbind r (fun x => k))
  (at level 20, r at level 100, k at level 200, right associativity,
   format "x  ←!  r ;  '/' k").

Fixpoint rmapM {A B} (f : A → result B) (l : list A) : result (list B) :=
  match l with
  | [] => Ok []
  | x :: l' => y ←! f x; ys ←! rmapM f l'; Ok (y :: ys)
  end.

(** ** [PluggableEmbeddings] *)

(** The interface of a torch module as the registry uses it: a [forward]
    taking the source and the optional decoding step. *)
Class TorchModule (E Src Out : Type) : Type :=
  module_forward : E → Src → option Z → result Out.
Global Hint Mode TorchModule ! - - : typeclass_instances.

Module PluggableEmbeddings.
Section defs.
Context {E Src Out : Type} {Mod : TorchModule E Src Out}.

(** [nn.ModuleDict]: the registered sub-modules by name, and the
    attribute [active_key] ([None] until the first [activate]). *)
Record t : Type := mk {
  modules : gmap string E;
  active_key : option string
}.

(** f'embeddings_{key}' *)
Definition module_name (key : string) : string := "embeddings_" +:+ key.

Fixpoint has_dot (s : string) : bool :=
  match s with
  | EmptyString => false
  | String c s' => if Ascii.eqb c "."%char then true else has_dot s'
  end.

(** torch's [Module.add_module]: a name with a dot or an empty name is
    refused with [KeyError]; a name already registered is replaced. *)
Definition add_module (name : string) (m : E) (mods : gmap string E)
  : result (gmap string E) :=
  if has_dot name then Raise (KeyError "module name can't contain a dot")
  else if String.eqb name "" then Raise (KeyError "module name can't be empty string")
  else Ok (<[name := m]> mods).

(** The loop of [__init__] over [embedding_dict.items()], in the
    dictionary's order. *)
Fixpoint add_all (items : list (string * E)) (mods : gmap string E)
  : result (gmap string E) :=
  match items with
  | [] => Ok mods
  | (key, embeddings) :: rest =>
      mods' ←! add_module (module_name key) embeddings mods;
      add_all rest mods'
  end.

Definition init (embedding_dict : list (string * E)) : result t :=
  mods ←! add_all embedding_dict ∅;
  Ok (mk mods None).

(** [activate] mutates [self]: it returns the outcome of the call and the
    object after it.  (The message of the assertion, which prints the
    registered names, is shortened.) *)
Definition activate (key : string) (self : t) : result unit * t :=
  match modules self !! module_name key with
  | Some _ => (Ok tt, mk (modules self) (Some key))
  | None => (Raise (AssertionError "Embeddings not in keys"), self)
  end.

Definition _active_embeddings (self : t) : result E :=
  match active_key self with
  | None => Raise (Exception "Must activate PluggableEmbeddings before forward")
  | Some key =>
      match modules self !! module_name key with
      | Some active_embeddings => Ok active_embeddings
      | None => Raise (KeyError (module_name key))
      end
  end.

Definition forward (self : t) (source : Src) (step : option Z) : result Out :=
  active ←! _active_embeddings self;
  module_forward active source step.
End defs.
Arguments t : clear implicits.
End PluggableEmbeddings.

(** ** Floating-point arithmetic

    The scalar operations of Python floats and torch tensors that the
    module uses.  No law is assumed about them. *)
Class FloatOps (F : Type) : Type := {
  f0 : F;                          (* 0.0 *)
  f1 : F;                          (* 1.0 *)
  fadd : F → F → F;
  fsub : F → F → F;
  fmul : F → F → F;
  fdiv : F → F → F;
  fneg : F → F;
  fexp : F → F;
  flog : F → F;
  fsin : F → F;
  fcos : F → F;
  fsqrt : F → F;
  of_int : Z → F;                  (* float(n) *)
  fltb : F → F → bool;             (* x < y *)
  fleb : F → F → bool;             (* x <= y *)
  feqb : F → F → bool;             (* x == y *)
  int_pow : Z → F → result F;      (* n ** x, for an int n and a float x *)
  py_int : F → result Z;           (* int(x): truncation toward zero *)
  py_round : F → result Z          (* round(x): nearest, ties to even *)
}.

(** ** Tensors as nested lists

    A tensor of shape (a, b, c) is a list of [a] lists of [b] lists of [c]
    scalars.  (The inner sizes of an empty tensor are not represented.) *)
Section tensors.
Context {F : Type} `{!FloatOps F}.

Definition has_shape2 (rows cols : nat) (m : list (list F)) : Prop :=
  length m = rows ∧ Forall (λ r, length r = cols) m.

Definition has_shape3 (a b c : nat) (x : list (list (list F))) : Prop :=
  length x = a ∧ Forall (has_shape2 b c) x.

(** Python's [l[start:stop]] (step 1): negative bounds count from the
    end, and both are clamped to the list. *)
Definition py_index_clamp (n i : Z) : Z :=
  let i := if i <? 0 then i + n else i in
  Z.max 0 (Z.min n i).

Definition py_slice {A} (start stop : Z) (l : list A) : list A :=
  let n := Z.of_nat (length l) in
  let a := py_index_clamp n start in
  let b := py_index_clamp n stop in
  take (Z.to_nat (b - a)) (drop (Z.to_nat a) l).

(** torch broadcasting along one dimension: equal sizes are paired,
    a size of one is repeated, anything else is a size mismatch. *)
Definition bcast {A B C} (f : A → B → result C) (xs : list A) (ys : list B)
  : result (list C) :=
  if decide (length xs = length ys) then rmapM (λ xy, f xy.1 xy.2) (zip xs ys)
  else match xs, ys with
       | [x], _ => rmapM (f x) ys
       | _, [y] => rmapM (λ x, f x y) xs
       | _, _ => Raise (RuntimeError "The size of tensor a must match the size of tensor b")
       end.

(** [x + y] on tensors of three dimensions. *)
Definition tadd3 : list (list (list F)) → list (list (list F)) → result (list (list (list F))) :=
  bcast (bcast (bcast (λ a b, Ok (fadd a b)))).

(** [x * s] for a Python float [s]. *)
Definition tscale3 (x : list (list (list F))) (s : F) : list (list (list F)) :=
  map (map (map (λ a, fmul a s))) x.

(** torch's [nn.Dropout], from its documentation: the identity in
    evaluation mode (and for p = 0); in training mode each element is
    zeroed with probability [p] and the others are scaled by 1/(1-p).
    The random draw of element (i, j, k) is [u i j k], uniform in [0, 1):
    the element is dropped when the draw is below [p]. *)
Definition nn_Dropout (p : F) (training : bool) (u : nat → nat → nat → F)
    (x : list (list (list F))) : list (list (list F)) :=
  if negb training || feqb p f0 then x
  else
    imap (λ i, imap (λ j, imap (λ k a,
      if fltb (u i j k) p then fmul a f0
      else fmul a (fdiv f1 (fsub f1 p))))) x.
End tensors.

(** ** [PositionalEncoding] *)

Module PositionalEncoding.
Section defs.
Context {F : Type} `{!FloatOps F}.

Record t : Type := mk {
  pe : list (list (list F));     (* the registered buffer, (max_len, 1, dim) *)
  dropout : F;                   (* nn.Dropout(p=dropout) *)
  dim : Z;
  training : bool                (* the mode of the module *)
}.

Definition default_max_len : Z := 5000.

(** exp(arange(0, dim, 2) * -(log(10000.0) / dim)), entry [i] *)
Definition div_term (dim : Z) (i : nat) : F :=
  fexp (fmul (of_int (2 * Z.of_nat i))
             (fneg (fdiv (flog (of_int 10000)) (of_int dim)))).

(** Row [p] of the table: sin in the even columns, cos in the odd ones. *)
Definition pe_row (dim : Z) (p : nat) : list F :=
  flat_map (λ i, let a := fmul (of_int (Z.of_nat p)) (div_term dim i) in
                 [fsin a; fcos a])
           (seq 0 (Z.to_nat (dim / 2))).

(** The table after [unsqueeze(1)]. *)
Definition pe_table (max_len dim : Z) : list (list (list F)) :=
  map (λ p, [pe_row dim p]) (seq 0 (Z.to_nat max_len)).

Definition init (dropout : F) (dim : Z) (max_len : Z) : result t :=
  if negb (dim mod 2 =? 0) then
    Raise (ValueError "Cannot use sin/cos positional encoding with odd dim")
  else if (max_len <? 0) || (dim <? 0) then
    (* torch.zeros(max_len, dim) *)
    Raise (RuntimeError "negative dimension")
  else if dim =? 0 then
    (* math.log(10000.0) / dim *)
    Raise ZeroDivisionError
  else if fltb dropout f0 || fltb f1 dropout then
    (* nn.Dropout(p=dropout) *)
    Raise (ValueError "dropout probability has to be between 0 and 1")
  else Ok (mk (pe_table max_len dim) dropout dim true).

(** [self.eval()] and [self.train()]: the mode of the module. *)
Definition set_training (mode : bool) (self : t) : t :=
  mk (pe self) (dropout self) (dim self) mode.

(** [step or 0] *)
Definition step_or_0 (step : option Z) : Z :=
  match step with
  | None => 0
  | Some s => s
  end.

(** [u] holds the random draws that the dropout layer consumes. *)
Definition forward (self : t) (u : nat → nat → nat → F)
    (emb : list (list (list F))) (step : option Z)
  : result (list (list (list F))) :=
  let emb := tscale3 emb (fsqrt (of_int (dim self))) in
  let step := step_or_0 step in
  if Z.of_nat (length (pe self)) <? step + Z.of_nat (length emb) then
    Raise SequenceTooLongError
  else
    emb ←! tadd3 emb (py_slice step (Z.of_nat (length emb) + step) (pe self));
    Ok (nn_Dropout (dropout self) (training self) u emb).

(** What the specification gives as the result: the scaled input plus
    the rows [o, o + len) of the table, the single table row of a
    position being added to each batch entry. *)
Definition scaled_plus_rows (self : t) (emb : list (list (list F))) (o : nat)
  : list (list (list F)) :=
  zip_with (λ x r, map (λ v, zip_with fadd v (concat r)) x)
           (tscale3 emb (fsqrt (of_int (dim self))))
           (take (length emb) (drop o (pe self))).
End defs.
Arguments t : clear implicits.
End PositionalEncoding.

(** ** [Embeddings_src]: the positional encoding alone *)

Module Embeddings_src.
Section defs.
Context {F : Type} `{!FloatOps F}.

Record t : Type := mk {
  position_encoding : bool;
  pe : option (PositionalEncoding.t F)
}.

Definition init (position_encoding : bool) (dropout : F) : result t :=
  if position_encoding then
    pe ←! PositionalEncoding.init dropout 1024 PositionalEncoding.default_max_len;
    Ok (mk true (Some pe))
  else Ok (mk false None).

Definition forward (u : nat → nat → nat → F) (self : t)
    (source : list (list (list F))) (step : option Z)
  : result (list (list (list F))) :=
  if position_encoding self then
    match pe self with
    | Some pe => PositionalEncoding.forward pe u source step
    | None => Raise (Exception "no attribute pe")
    end
  else Ok source.

(** The module as the registry sees it, for given random draws. *)
Definition module (u : nat → nat → nat → F)
  : TorchModule t (list (list (list F))) (list (list (list F))) :=
  forward u.
End defs.
Arguments t : clear implicits.
End Embeddings_src.

(** ** torch's [nn.Embedding]

    A lookup table of [num_embeddings] rows of width [embedding_dim].
    The constructor, from torch's documentation: the padding index is
    checked against the number of rows (a negative one counts from the
    end), the weights are drawn at random ([rnd i j] is the draw for row
    [i], column [j]) and the padding row is zeroed. *)
Module Embedding.
Section defs.
Context {F : Type} `{!FloatOps F}.

Record t : Type := mk {
  num_embeddings : Z;
  embedding_dim : Z;
  padding_idx : Z;
  weight : list (list F);
  requires_grad : bool
}.

Definition random_weight (rnd : nat → nat → F) (rows cols : Z) : list (list F) :=
  map (λ i, map (rnd i) (seq 0 (Z.to_nat cols))) (seq 0 (Z.to_nat rows)).

Definition init (rnd : nat → nat → F) (num_embeddings embedding_dim padding_idx : Z)
  : result t :=
  if (0 <? padding_idx) && negb (padding_idx <? num_embeddings) then
    Raise (AssertionError "Padding_idx must be within num_embeddings")
  else if (padding_idx <? 0) && negb (- num_embeddings <=? padding_idx) then
    Raise (AssertionError "Padding_idx must be within num_embeddings")
  else
    let padding_idx :=
      if padding_idx <? 0 then num_embeddings + padding_idx else padding_idx in
    if (num_embeddings <? 0) || (embedding_dim <? 0) then
      Raise (RuntimeError "negative dimension")
    else if num_embeddings <=? padding_idx then
      (* self.weight[self.padding_idx].fill_(0) on a table without rows *)
      Raise IndexError
    else
      let w := random_weight rnd num_embeddings embedding_dim in
      Ok (mk num_embeddings embedding_dim padding_idx
             (<[Z.to_nat padding_idx := replicate (Z.to_nat embedding_dim) f0]> w)
             true).

Definition set_weight (w : list (list F)) (grad : bool) (e : t) : t :=
  mk (num_embeddings e) (embedding_dim e) (padding_idx e) w grad.

Definition set_requires_grad (grad : bool) (e : t) : t :=
  mk (num_embeddings e) (embedding_dim e) (padding_idx e) (weight e) grad.
End defs.
Arguments t : clear implicits.
End Embedding.

(** ** [Embeddings] *)

Module Embeddings.
Section defs.
Context {F : Type} `{!FloatOps F}.

(** [Elementwise] of [mammoth.modules.util_class] is constructed from
    the merge strategy and the tables; its constructor may refuse the
    strategy.  Which strategies it accepts is a parameter here. *)
Variable Elementwise_accepts : string → bool.

(** The arguments of [__init__]. *)
Record args : Type := mk_args {
  word_vec_size : Z;
  word_vocab_size : Z;
  word_padding_idx : Z;
  position_encoding : bool;
  feat_merge : string;
  feat_vec_exponent : F;
  feat_vec_size : Z;
  feat_padding_idx : option (list Z);
  feat_vocab_sizes : list Z;
  dropout : F;
  freeze_word_vecs : bool;
  enable_embeddingless : bool
}.

(** The object: [emb_luts] is [make_embedding[0]], the word table
    first; [mlp] holds (in_features, out_features) of the projection
    when that stage is present; [pe] is the positional stage. *)
Record t : Type := mk {
  self_word_padding_idx : Z;
  self_word_vec_size : Z;
  embedding_size : Z;
  merge : string;
  emb_luts : list (Embedding.t F);
  mlp : option (Z * Z);
  self_position_encoding : bool;
  pe : option (PositionalEncoding.t F)
}.

(** The warnings of [_validate_args] have no effect on the result and
    are left out. *)
Definition _validate_args (feat_merge : string) (feat_vocab_sizes : list Z)
    (feat_vec_exponent : F) (feat_vec_size : Z)
    (feat_padding_idx : option (list Z)) : result unit :=
  _ ←! (if String.eqb feat_merge "sum" then Ok tt
        else if 0 <? feat_vec_size then Ok tt
        else if fleb feat_vec_exponent f0 then
          Raise (ValueError "Using feat_vec_exponent to determine feature vec size, but got feat_vec_exponent less than or equal to 0.")
        else Ok tt);
  let n_feats := length feat_vocab_sizes in
  match feat_padding_idx with
  | None => Raise TypeError        (* len(None) *)
  | Some pads =>
      if negb (Nat.eqb n_feats (length pads)) then
        Raise (ValueError "Got unequal number of feat_vocab_sizes and feat_padding_idx")
      else Ok tt
  end.

(** int(vocab ** feat_vec_exponent) *)
Definition exponent_dim (feat_vec_exponent : F) (vocab : Z) : result Z :=
  x ←! int_pow vocab feat_vec_exponent;
  py_int x.

Definition feat_dims (a : args) : result (list Z) :=
  if String.eqb (feat_merge a) "sum" then
    Ok (replicate (length (feat_vocab_sizes a)) (word_vec_size a))
  else if 0 <? feat_vec_size a then
    Ok (replicate (length (feat_vocab_sizes a)) (feat_vec_size a))
  else rmapM (exponent_dim (feat_vec_exponent a)) (feat_vocab_sizes a).

Definition pad_indices (a : args) : list Z :=
  word_padding_idx a :: default [] (feat_padding_idx a).

(** zip(vocab_sizes, emb_dims, pad_indices) *)
Definition emb_params (a : args) (dims : list Z) : list (Z * (Z * Z)) :=
  zip (word_vocab_size a :: feat_vocab_sizes a)
      (zip (word_vec_size a :: dims) (pad_indices a)).

Definition one_hot_row (vocab : nat) (i : nat) : list F :=
  map (λ j, if Nat.eqb i j then f1 else f0) (seq 0 vocab).

(** Assignment to row [idx] of a matrix, with Python's negative
    indices. *)
Definition set_row (idx : Z) (row : list F) (m : list (list F))
  : result (list (list F)) :=
  let n := Z.of_nat (length m) in
  if (idx <? - n) || (n <=? idx) then Raise IndexError
  else Ok (<[Z.to_nat (if idx <? 0 then idx + n else idx) := row]> m).

Definition create_embeddingless (rnd : nat → nat → F) (vocab dim padding_idx : Z)
  : result (Embedding.t F) :=
  if vocab <? 0 then
    Raise (RuntimeError "arange: bounds inconsistent with step sign")
  else if vocab =? 0 then
    Raise (RuntimeError "Can not infer total number of classes from empty tensor")
  else if dim - vocab <? 0 then
    (* torch.zeros((vocab, dim - vocab)) *)
    Raise (RuntimeError "negative dimension")
  else
    let one_hot_matrix := map (one_hot_row (Z.to_nat vocab)) (seq 0 (Z.to_nat vocab)) in
    let one_hot_embed :=
      zip_with app one_hot_matrix
        (replicate (Z.to_nat vocab) (replicate (Z.to_nat (dim - vocab)) f0)) in
    one_hot_embed ←! set_row padding_idx (replicate (Z.to_nat dim) f0) one_hot_embed;
    emb ←! Embedding.init rnd vocab dim padding_idx;
    Ok (Embedding.set_weight one_hot_embed false emb).

(** The one-hot matrix after the zero columns are appended and before
    the padding row is zeroed: the rows of the identity, widened. *)
Definition one_hot_padded (vocab dim : Z) : list (list F) :=
  zip_with app
    (map (one_hot_row (Z.to_nat vocab)) (seq 0 (Z.to_nat vocab)))
    (replicate (Z.to_nat vocab) (replicate (Z.to_nat (dim - vocab)) f0)).

(** A table that fits the parameters (vocab, dim, pad) of its channel. *)
Definition table_for (param : Z * (Z * Z)) (lut : Embedding.t F) : Prop :=
  Embedding.num_embeddings lut = param.1
  ∧ Embedding.embedding_dim lut = param.2.1
  ∧ has_shape2 (Z.to_nat param.1) (Z.to_nat param.2.1) (Embedding.weight lut).

(** The tables, built in order; [rnd k] is the random source of the
    [k]-th table. *)
Fixpoint make_tables (embeddingless : bool) (rnd : nat → nat → nat → F) (k : nat)
    (params : list (Z * (Z * Z))) : result (list (Embedding.t F)) :=
  match params with
  | [] => Ok []
  | (vocab, (dim, pad)) :: rest =>
      e ←! (if embeddingless then create_embeddingless (rnd k) vocab dim pad
            else Embedding.init (rnd k) vocab dim pad);
      es ←! make_tables embeddingless rnd (S k) rest;
      Ok (e :: es)
  end.

Definition sum_dims (dims : list Z) : Z := foldr Z.add 0 dims.

(** self.word_lut.weight.requires_grad = False *)
Definition freeze_word_lut (luts : list (Embedding.t F)) : result (list (Embedding.t F)) :=
  match luts with
  | [] => Raise IndexError
  | word_lut :: feats => Ok (Embedding.set_requires_grad false word_lut :: feats)
  end.

Definition init (rnd : nat → nat → nat → F) (a : args) : result t :=
  _ ←! _validate_args (feat_merge a) (feat_vocab_sizes a) (feat_vec_exponent a)
                      (feat_vec_size a) (feat_padding_idx a);
  dims ←! feat_dims a;
  let emb_dims := word_vec_size a :: dims in
  embeddings ←! make_tables (enable_embeddingless a) rnd 0 (emb_params a dims);
  if negb (Elementwise_accepts (feat_merge a)) then
    Raise (AssertionError "merge")
  else
    let embedding_size :=
      if String.eqb (feat_merge a) "concat" then sum_dims emb_dims
      else word_vec_size a in
    let mlp :=
      if String.eqb (feat_merge a) "mlp" && (0 <? Z.of_nat (length (feat_vocab_sizes a)))
      then Some (sum_dims emb_dims, word_vec_size a) else None in
    pe ←! (if position_encoding a then
             pe ←! PositionalEncoding.init (dropout a) embedding_size
                     PositionalEncoding.default_max_len;
             Ok (Some pe)
           else Ok None);
    embeddings ←! (if freeze_word_vecs a then freeze_word_lut embeddings
                   else Ok embeddings);
    Ok (mk (word_padding_idx a) (word_vec_size a) embedding_size (feat_merge a)
           embeddings mlp (position_encoding a) pe).

Definition set_luts (luts : list (Embedding.t F)) (self : t) : t :=
  mk (self_word_padding_idx self) (self_word_vec_size self) (embedding_size self)
     (merge self) luts (mlp self) (self_position_encoding self) (pe self).

(** Broadcasting of the rows of [src] to [n] rows. *)
Definition bcast_rows (n : nat) (src : list (list F)) : result (list (list F)) :=
  if decide (length src = n) then Ok src
  else match src with
       | [r] => Ok (replicate n r)
       | _ => Raise (RuntimeError "shape mismatch")
       end.

(** pretrained.size(1) *)
Definition size1 (m : list (list F)) : nat :=
  match m with
  | [] => 0
  | r :: _ => length r
  end.

(** [emb_file] is the tensor that [torch.load] reads from the path, or
    [None] for a path that is empty or [None]. *)
Definition load_pretrained_vectors (self : t) (emb_file : option (list (list F)))
  : result t :=
  match emb_file with
  | None => Ok self
  | Some pretrained =>
      let pretrained_vec_size := Z.of_nat (size1 pretrained) in
      match emb_luts self with
      | [] => Raise IndexError
      | word_lut :: feats =>
          let w := Embedding.weight word_lut in
          w' ←! (if pretrained_vec_size <? self_word_vec_size self then
                   (* weight.data[:, :pretrained_vec_size] = pretrained *)
                   src ←! bcast_rows (length w) pretrained;
                   Ok (zip_with (λ old new, new ++ drop (size1 pretrained) old) w src)
                 else if self_word_vec_size self <? pretrained_vec_size then
                   (* weight.data.copy_(pretrained[:, :word_vec_size]) *)
                   bcast_rows (length w)
                     (map (take (Z.to_nat (self_word_vec_size self))) pretrained)
                 else
                   (* weight.data.copy_(pretrained) *)
                   bcast_rows (length w) pretrained);
          Ok (set_luts
                (Embedding.set_weight w' (Embedding.requires_grad word_lut) word_lut
                 :: feats) self)
      end
  end.
End defs.
Arguments t : clear implicits.
Arguments args : clear implicits.
End Embeddings.

(** ** Text: bytes, UTF-8 and Python's string methods

    A [bytes] object is a [string] (one character per byte); a decoded
    [str] is the list of its code points. *)
Module Text.
Definition byte_code (c : ascii) : N := N_of_ascii c.

Definition is_cont (b : N) : bool := ((128 <=? b) && (b <=? 191))%N.

(** The six low bits of a continuation byte. *)
Definition low6 (b : N) : N := N.land b 63.

(** [bytes.decode('utf8')], strict: a malformed, overlong or surrogate
    sequence raises [UnicodeDecodeError]. *)
Fixpoint utf8_decode (bs : list N) : result (list N) :=
  match bs with
  | [] => Ok []
  | b :: rest =>
      if (b <? 128)%N then cs ←! utf8_decode rest; Ok (b :: cs)
      else if ((194 <=? b) && (b <=? 223))%N then
        match rest with
        | c1 :: rest1 =>
            if is_cont c1 then
              cs ←! utf8_decode rest1;
              Ok (N.lor (N.shiftl (N.land b 31) 6) (low6 c1) :: cs)
            else Raise UnicodeDecodeError
        | _ => Raise UnicodeDecodeError
        end
      else if ((224 <=? b) && (b <=? 239))%N then
        match rest with
        | c1 :: c2 :: rest2 =>
            if is_cont c1 && is_cont c2
               && negb ((b =? 224) && (c1 <? 160))%N
               && negb ((b =? 237) && (159 <? c1))%N
            then
              cs ←! utf8_decode rest2;
              Ok (N.lor (N.shiftl (N.land b 15) 12)
                        (N.lor (N.shiftl (low6 c1) 6) (low6 c2)) :: cs)
            else Raise UnicodeDecodeError
        | _ => Raise UnicodeDecodeError
        end
      else if ((240 <=? b) && (b <=? 244))%N then
        match rest with
        | c1 :: c2 :: c3 :: rest3 =>
            if is_cont c1 && is_cont c2 && is_cont c3
               && negb ((b =? 240) && (c1 <? 144))%N
               && negb ((b =? 244) && (143 <? c1))%N
            then
              cs ←! utf8_decode rest3;
              Ok (N.lor (N.shiftl (N.land b 7) 18)
                        (N.lor (N.shiftl (low6 c1) 12)
                               (N.lor (N.shiftl (low6 c2) 6) (low6 c3))) :: cs)
            else Raise UnicodeDecodeError
        | _ => Raise UnicodeDecodeError
        end
      else Raise UnicodeDecodeError
  end.

Definition decode (line : string) : result (list N) :=
  utf8_decode (map byte_code (list_ascii_of_string line)).

(** The code points that [str.strip()] and [str.split()] treat as
    whitespace. *)
Definition is_space (c : N) : bool :=
  (((9 <=? c) && (c <=? 13)) || ((28 <=? c) && (c <=? 32))
   || (c =? 133) || (c =? 160) || (c =? 5760)
   || ((8192 <=? c) && (c <=? 8202))
   || (c =? 8232) || (c =? 8233) || (c =? 8239) || (c =? 8287)
   || (c =? 12288))%N.

Fixpoint lstrip (s : list N) : list N :=
  match s with
  | [] => []
  | c :: s' => if is_space c then lstrip s' else s
  end.

(** str.strip() *)
Definition strip (s : list N) : list N := rev (lstrip (rev (lstrip s))).

(** str.split(sep) for a separator of one character: every occurrence
    separates, so empty fields are kept and the result is never
    empty. *)
Fixpoint split_on (sep : N) (s : list N) : list (list N) :=
  match s with
  | [] => [[]]
  | c :: s' =>
      if (c =? sep)%N then [] :: split_on sep s'
      else match split_on sep s' with
           | f :: fs => (c :: f) :: fs
           | [] => [[c]]
           end
  end.

(** str.split() without a separator: runs of whitespace separate and
    no empty field is produced. *)
Fixpoint split_whitespace_go (cur : list N) (s : list N) : list (list N) :=
  match s with
  | [] => match cur with [] => [] | _ => [rev cur] end
  | c :: s' =>
      if is_space c then
        match cur with
        | [] => split_whitespace_go [] s'
        | _ => rev cur :: split_whitespace_go [] s'
        end
      else split_whitespace_go (c :: cur) s'
  end.

Definition split_whitespace (s : list N) : list (list N) :=
  split_whitespace_go [] s.

(** The lines of a file opened in binary mode: each ends with its
    newline byte, except possibly the last. *)
Fixpoint file_lines_go (cur : string) (s : string) : list string :=
  match s with
  | EmptyString => match cur with EmptyString => [] | _ => [String.rev cur] end
  | String c s' =>
      if Ascii.eqb c "010"%char then
        String.rev (String c cur) :: file_lines_go EmptyString s'
      else file_lines_go (String c cur) s'
  end.

Definition file_lines (file : string) : list string :=
  file_lines_go EmptyString file.

(** An ASCII literal as a [str]. *)
Definition str (s : string) : list N := map byte_code (list_ascii_of_string s).
End Text.

(** ** [read_embeddings] *)

Module ReadEmbeddings.
Section defs.
Context {F : Type} `{!FloatOps F}.

(** [float(s)], raising [ValueError] on a string that is no number. *)
Variable py_float : list N → result F.

(** The body of the loop, from line number [i] on; [embs] and
    [total_vectors_in_file] are the two accumulators. *)
Fixpoint loop (skip_lines : Z) (filter_set : option (gset (list N)))
    (i : Z) (lines : list string)
    (embs : gmap (list N) (list F)) (total_vectors_in_file : Z)
  : result (gmap (list N) (list F) * Z) :=
  match lines with
  | [] => Ok (embs, total_vectors_in_file)
  | line :: rest =>
      if i <? skip_lines then
        loop skip_lines filter_set (i + 1) rest embs total_vectors_in_file
      else if String.eqb line "" then
        (* if not line: break *)
        Ok (embs, total_vectors_in_file)
      else if Nat.eqb (String.length line) 0 then
        (* if len(line) == 0: continue *)
        loop skip_lines filter_set (i + 1) rest embs total_vectors_in_file
      else
        text ←! Text.decode line;
        let l_split := Text.split_on 32 (Text.strip text) in
        if Nat.eqb (length l_split) 2 then
          loop skip_lines filter_set (i + 1) rest embs total_vectors_in_file
        else
          let total_vectors_in_file := total_vectors_in_file + 1 in
          match l_split with
          | [] => Raise IndexError
          | tok :: ems =>
              if match filter_set with
                 | Some fs => negb (bool_decide (tok ∈ fs))
                 | None => false
                 end
              then loop skip_lines filter_set (i + 1) rest embs total_vectors_in_file
              else
                vec ←! rmapM py_float ems;
                loop skip_lines filter_set (i + 1) rest (<[tok := vec]> embs)
                     total_vectors_in_file
          end
  end.

(** [file] is the content of the file at [path]. *)
Definition read_embeddings (file : string) (skip_lines : Z)
    (filter_set : option (gset (list N)))
  : result (gmap (list N) (list F) * Z) :=
  loop skip_lines filter_set 0 (Text.file_lines file) ∅ 0.

(** *** The reading of a file, line by line

    What one line contributes: nothing for a line of two fields (a
    header); otherwise it counts as a vector, and unless the filter
    excludes its token it binds the token to the parsed fields. *)
Inductive entry : Type :=
  | Header
  | Filtered
  | Vector (tok : list N) (vec : list F).

Definition passes (filter_set : option (gset (list N))) (tok : list N) : bool :=
  match filter_set with
  | Some fs => bool_decide (tok ∈ fs)
  | None => true
  end.

(** [split] is the way a stripped line is cut into fields. *)
Definition line_entry (split : list N → list (list N))
    (filter_set : option (gset (list N))) (line : string) : result entry :=
  text ←! Text.decode line;
  match split (Text.strip text) with
  | [_; _] => Ok Header
  | [] => Raise IndexError
  | tok :: ems =>
      if passes filter_set tok then vec ←! rmapM py_float ems; Ok (Vector tok vec)
      else Ok Filtered
  end.

Definition counted (e : entry) : bool :=
  match e with Header => false | _ => true end.

Definition binding (e : entry) : option (list N * list F) :=
  match e with Vector tok vec => Some (tok, vec) | _ => None end.

(** The dictionary of a list of entries (a later line replaces an
    earlier one with the same token) and the number of vectors. *)
Definition collect (es : list entry) : gmap (list N) (list F) * Z :=
  (list_to_map (reverse (omap binding es)),
   Z.of_nat (length (filter (λ e, counted e = true) es))).

(** The effect of one entry on the two accumulators of the loop. *)
Definition accumulate (st : gmap (list N) (list F) * Z) (e : entry)
  : gmap (list N) (list F) * Z :=
  match e with
  | Header => st
  | Filtered => (st.1, st.2 + 1)
  | Vector tok vec => (<[tok := vec]> st.1, st.2 + 1)
  end.

Definition read_lines (split : list N → list (list N)) (file : string)
    (skip_lines : Z) (filter_set : option (gset (list N)))
  : result (gmap (list N) (list F) * Z) :=
  es ←! rmapM (line_entry split filter_set)
              (drop (Z.to_nat skip_lines) (Text.file_lines file));
  Ok (collect es).
End defs.
End ReadEmbeddings.

(** ** Exceptions of the remaining functions *)

(** The exception classes that the functions below raise and [exn] does
    not list, and the outcome of a call that may raise one of them. *)
Inductive exn_more : Type :=
  | StopIteration
  | AttributeError (msg : string).

Inductive outcome (A : Type) : Type :=
  | Normal (r : result A)
  | Other (e : exn_more).
Arguments Normal {A} r.
Arguments Other {A} e.

(** ** [Vocab] ([mammoth/inputters/vocab.py])

    A token is a [str], the list of its code points.  [stoi] is a
    [collections.defaultdict(int)]: reading a missing key gives 0 and
    stores it.  The SentencePiece tokenizer enters only through the list
    of its pieces. *)
Module Vocab.
Section defs.

(** The constants [DefaultTokens.BOS], [EOS], [UNK] and [PAD] of
    [mammoth.constants], in this order. *)
Variable DEFAULT_SPECIALS : list (list N).

Record t : Type := mk {
  itos : list (list N);
  stoi : gmap (list N) nat;
  specials : list (list N)
}.

Fixpoint add_token (tokens : list (list N)) (self : t) : t :=
  match tokens with
  | [] => self
  | tk :: rest =>
      let new_index := length (itos self) in
      (* add to vocab if not already there *)
      if bool_decide (tk ∈ itos self) then add_token rest self
      else add_token rest (mk (itos self ++ [tk]) (<[tk := new_index]> (stoi self))
                              (specials self))
  end.

(** [__len__] *)
Definition len (self : t) : nat := size (stoi self).

(** [pieces] is [id_to_piece(i)] for [i] in [range(get_piece_size())]. *)
Definition init (pieces : list (list N)) (items : option (list (list N))) : result t :=
  let specials := DEFAULT_SPECIALS in
  let items := match items with None => pieces | Some items => items end in
  (* remove specials from items *)
  let items := filter (λ i, i ∉ specials) items in
  let self := add_token (items ++ specials) (mk [] ∅ specials) in
  if Nat.eqb (size (stoi self)) (length (itos self)) then Ok self
  else Raise (AssertionError "").

Definition get_vocab (pieces : list (list N)) : result t := init pieces None.

(** [self.stoi[key_str]]: the value and the object after the read. *)
Definition getitem (key_str : list N) (self : t) : nat * t :=
  match stoi self !! key_str with
  | Some i => (i, self)
  | None => (0%nat, mk (itos self) (<[key_str := 0%nat]> (stoi self)) (specials self))
  end.

(** The two tables of a vocabulary agree: no token twice, as many
    entries, and [stoi] the inverse of [itos]. *)
Definition consistent (v : t) : Prop :=
  NoDup (itos v)
  ∧ size (stoi v) = length (itos v)
  ∧ ∀ tk i, stoi v !! tk = Some i ↔ itos v !! i = Some tk.
End defs.
End Vocab.

(** ** The statistics and the tensor of loaded embeddings *)

Module Pretrained.
Section defs.
Context {F : Type} `{!FloatOps F}.

(** The three results: the number of vocabulary tokens with a loaded
    vector, the number without, and the percentage with. *)
Definition calc_vocab_load_stats (vocab : Vocab.t) (loaded_embed_dict : gmap (list N) (list F))
  : result (Z * Z * F) :=
  let matching_count :=
    Z.of_nat (size (dom (Vocab.stoi vocab) ∩ dom loaded_embed_dict)) in
  let missing_count := Z.of_nat (Vocab.len vocab) - matching_count in
  if Z.of_nat (Vocab.len vocab) =? 0 then Raise ZeroDivisionError
  else
    let percent_matching :=
      fmul (fdiv (of_int matching_count) (of_int (Z.of_nat (Vocab.len vocab))))
           (of_int 100) in
    Ok (matching_count, missing_count, percent_matching).

(** [tensor[i] = torch.Tensor(values)]: the values fill the row, a single
    value being repeated, any other length being a shape mismatch. *)
Definition row_of (dim : nat) (values : list F) : result (list F) :=
  if decide (length values = dim) then Ok values
  else match values with
       | [v] => Ok (replicate dim v)
       | _ => Raise (RuntimeError "shape mismatch")
       end.

(** The loop over [word_to_float_list_dict.items()]; the vocabulary is
    threaded because reading [stoi] may store a key. *)
Fixpoint fill (dim : nat) (items : list (list N * list F)) (vocab : Vocab.t)
    (tensor : list (list F)) : result (list (list F) * Vocab.t) :=
  match items with
  | [] => Ok (tensor, vocab)
  | (word, values) :: rest =>
      let '(idx, vocab) := Vocab.getitem word vocab in
      if (length tensor <=? idx)%nat then Raise IndexError
      else
        row ←! row_of dim values;
        fill dim rest vocab (<[idx := row]> tensor)
  end.

(** The dictionary is the list of its items, in iteration order.  The
    result is the tensor and the vocabulary after the call. *)
Definition convert_to_torch_tensor (word_to_float_list_dict : list (list N * list F))
    (vocab : Vocab.t) : outcome (list (list F) * Vocab.t) :=
  match word_to_float_list_dict with
  | [] => Other StopIteration        (* next(iter(...)) *)
  | (_, first) :: _ =>
      let dim := length first in
      let tensor := replicate (Vocab.len vocab) (replicate dim f0) in
      Normal (fill dim word_to_float_list_dict vocab tensor)
  end.
End defs.
End Pretrained.

(** ** Tables and their padding rows *)

Section padding.
Context {F : Type} `{!FloatOps F}.

(** The padding index as [nn.Embedding] stores it. *)
Definition stored_padding (vocab pad : Z) : Z := if pad <? 0 then vocab + pad else pad.

(** A table with a padding index inside it, whose row is zero. *)
Definition padded_table (vocab pad : Z) (lut : Embedding.t F) : Prop :=
  Embedding.num_embeddings lut = vocab
  ∧ Embedding.padding_idx lut = stored_padding vocab pad
  ∧ 0 ≤ Embedding.padding_idx lut < vocab
  ∧ Embedding.weight lut !! Z.to_nat (Embedding.padding_idx lut)
    = Some (replicate (Z.to_nat (Embedding.embedding_dim lut)) f0).
End padding.

(** ** The other methods of [Embeddings] and of the registry *)

Module EmbeddingsMethods.
Section defs.
Context {F : Type} `{!FloatOps F} {Src : Type}.

(** [Elementwise.forward] of [mammoth.modules.util_class], the lookup
    and merge of the channels, and the forward of the [mlp] stage (a
    linear layer, whose weights are not part of the instance here, and a
    ReLU) are parameters. *)
Variable Elementwise_forward :
  string → list (Embedding.t F) → Src → result (list (list (list F))).
Variable mlp_forward : Z * Z → list (list (list F)) → result (list (list (list F))).

(** The stages of [make_embedding] before the positional one. *)
Definition make_embedding_stages (self : Embeddings.t F) (source : Src)
  : result (list (list (list F))) :=
  x ←! Elementwise_forward (Embeddings.merge self) (Embeddings.emb_luts self) source;
  match Embeddings.mlp self with
  | Some dims => mlp_forward dims x
  | None => Ok x
  end.

(** With the positional encoding, the last module receives [step]; it is
    the positional stage, which was added last. *)
Definition forward (u : nat → nat → nat → F) (self : Embeddings.t F)
    (source : Src) (step : option Z) : result (list (list (list F))) :=
  if Embeddings.self_position_encoding self then
    match Embeddings.pe self with
    | Some pe =>
        x ←! make_embedding_stages self source;
        PositionalEncoding.forward pe u x step
    | None =>
        (* the last module is not positional and takes no [step] *)
        match Embeddings.mlp self with
        | Some _ =>
            _ ←! Elementwise_forward (Embeddings.merge self)
                   (Embeddings.emb_luts self) source;
            Raise TypeError
        | None => Raise TypeError
        end
    end
  else make_embedding_stages self source.

Definition set_pe (pe : option (PositionalEncoding.t F)) (self : Embeddings.t F)
  : Embeddings.t F :=
  Embeddings.mk (Embeddings.self_word_padding_idx self) (Embeddings.self_word_vec_size self)
    (Embeddings.embedding_size self) (Embeddings.merge self) (Embeddings.emb_luts self)
    (Embeddings.mlp self) (Embeddings.self_position_encoding self) pe.

(** [self._modules['make_embedding'][1].dropout.p = dropout]: the module
    at index 1 is the [mlp] stage when there is one, and it has no
    [dropout]. *)
Definition update_dropout (self : Embeddings.t F) (dropout : F) : outcome (Embeddings.t F) :=
  if Embeddings.self_position_encoding self then
    match Embeddings.mlp self, Embeddings.pe self with
    | Some _, _ => Other (AttributeError "'Sequential' object has no attribute 'dropout'")
    | None, Some pe =>
        Normal (Ok (set_pe (Some (PositionalEncoding.mk (PositionalEncoding.pe pe) dropout
                                    (PositionalEncoding.dim pe)
                                    (PositionalEncoding.training pe))) self))
    | None, None => Normal (Raise IndexError)
    end
  else Normal (Ok self).
End defs.
End EmbeddingsMethods.

(** The padding index of a registered module, as the registry reads it. *)
Class HasWordPadding (E : Type) : Type :=
  module_word_padding_idx : E → Z.
Global Hint Mode HasWordPadding ! : typeclass_instances.

Module PluggableMethods.
Section defs.
Context {E Src Out : Type} {Mod : TorchModule E Src Out} {Pad : HasWordPadding E}.

(** The property [word_padding_idx]. *)
Definition word_padding_idx (self : PluggableEmbeddings.t E) : result Z :=
  active ←! PluggableEmbeddings._active_embeddings self;
  Ok (module_word_padding_idx active).

(** A run of [activate] calls, the failed ones being caught. *)
Definition activate_all (keys : list string) (self : PluggableEmbeddings.t E)
  : PluggableEmbeddings.t E :=
  foldl (λ reg key, (PluggableEmbeddings.activate key reg).2) self keys.
End defs.
End PluggableMethods.

(** ** The floating-point operations over the real numbers

    The idealised arithmetic, without rounding, infinities or NaN; it is
    used for the concrete runs below. *)
Module RFloat.
Definition ltb (x y : R) : bool := if Rlt_dec x y then true else false.
Definition leb (x y : R) : bool := if Rle_dec x y then true else false.
Definition eqb (x y : R) : bool := if Req_dec_T x y then true else false.

(** Truncation toward zero. *)
Definition trunc (x : R) : Z :=
  if Rle_dec 0 x then Int_part x else - Int_part (- x).

(** Rounding to the nearest integer, a tie going to the even one. *)
Definition round_half_even (x : R) : Z :=
  let f := Int_part x in
  let d := (x - IZR f)%R in
  if Rlt_dec d (1 / 2) then f
  else if Rlt_dec (1 / 2) d then f + 1
  else if Z.even f then f else f + 1.

(** [n ** x]: zero to a negative power raises; a negative base gives a
    real number only for an integral exponent, and a complex one (which
    [int] refuses) otherwise. *)
Definition ipow (n : Z) (x : R) : result R :=
  if 0 <? n then Ok (Rpower (IZR n) x)
  else if n =? 0 then
    if eqb x 0 then Ok 1%R
    else if ltb x 0 then Raise ZeroDivisionError
    else Ok 0%R
  else if eqb (IZR (Int_part x)) x then
    Ok ((if Z.even (Int_part x) then 1 else -1) * Rpower (IZR (- n)) x)%R
  else Raise TypeError.

Fixpoint digits (s : list N) (acc : Z) : option Z :=
  match s with
  | [] => Some acc
  | c :: s' =>
      if ((48 <=? c) && (c <=? 57))%N then digits s' (10 * acc + Z.of_N (c - 48))
      else None
  end.

(** [float(s)] for a decimal literal: an optional sign, digits, and an
    optional fraction.  (The other spellings Python reads, such as
    exponents, are refused here.) *)
Definition py_float (s : list N) : result R :=
  let '(sign, s) :=
    match s with
    | c :: s' => if (c =? 45)%N then ((-1)%R, s')
                 else if (c =? 43)%N then (1%R, s') else (1%R, s)
    | [] => (1%R, s)
    end in
  match Text.split_on 46 s with
  | [ip] =>
      match ip, digits ip 0 with
      | _ :: _, Some v => Ok (sign * IZR v)%R
      | _, _ => Raise (ValueError "could not convert string to float")
      end
  | [ip; fp] =>
      match ip, digits (ip ++ fp) 0 with
      | _ :: _, Some v => Ok (sign * (IZR v / IZR (10 ^ Z.of_nat (length fp))))%R
      | _, _ => Raise (ValueError "could not convert string to float")
      end
  | _ => Raise (ValueError "could not convert string to float")
  end.

#[global] Instance ops : FloatOps R := {|
  f0 := 0%R;
  f1 := 1%R;
  fadd := Rplus;
  fsub := Rminus;
  fmul := Rmult;
  fdiv := Rdiv;
  fneg := Ropp;
  fexp := exp;
  flog := ln;
  fsin := sin;
  fcos := cos;
  fsqrt := sqrt;
  of_int := IZR;
  fltb := ltb;
  fleb := leb;
  feqb := eqb;
  int_pow := ipow;
  py_int := λ x, Ok (trunc x);
  py_round := λ x, Ok (round_half_even x)
|}.
End RFloat.

(** ** Concrete configurations

    The inputs of the runs below, over the real numbers. *)
Module Examples.
Local Open Scope R_scope.

(** Modelled from the spec: [Elementwise] is not among the sources; the
    specification gives the merge configuration as "one of concat, sum,
    mlp", so these are the strategies its constructor accepts. *)
Definition Elementwise_accepts (merge : string) : bool :=
  bool_decide (merge ∈ ["concat"; "sum"; "mlp"]%string).

Definition zeros3 : nat → nat → nat → R := λ _ _ _, 0.

(** Two registered modules: one without and one with a positional
    stage. *)
Definition en : Embeddings_src.t R := Embeddings_src.mk false None.
Definition de : Embeddings_src.t R :=
  Embeddings_src.mk true
    (Some (PositionalEncoding.mk (PositionalEncoding.pe_table 4 2) 0 2 true)).
Definition languages : list (string * Embeddings_src.t R) :=
  [("en"%string, en); ("de"%string, de)].
Definition registry : PluggableEmbeddings.t (Embeddings_src.t R) :=
  PluggableEmbeddings.mk
    (<["embeddings_de"%string := de]> (<["embeddings_en"%string := en]> ∅)) None.

(** PositionalEncoding(0.5, 2, max_len=1) and
    PositionalEncoding(0, 2, max_len=3), as constructed. *)
Definition half_pe : PositionalEncoding.t R :=
  PositionalEncoding.mk (PositionalEncoding.pe_table 1 2) (1 / 2) 2 true.
Definition pe3 : PositionalEncoding.t R :=
  PositionalEncoding.mk (PositionalEncoding.pe_table 3 2) 0 2 true.

(** An input of one position, one batch entry and width two. *)
Definition ones_1_1_2 : list (list (list R)) := [[[1; 1]]].
(** An input of two positions. *)
Definition seq_2_1_2 : list (list (list R)) := [[[1; 2]]; [[3; 4]]].

(** Embeddings(4, 5, 0, feat_vec_exponent=0.5, feat_padding_idx=[0],
    feat_vocab_sizes=[3]) *)
Definition args_sqrt : Embeddings.args R :=
  Embeddings.mk_args 4 5 0 false "concat" (1 / 2) (-1) (Some [0%Z]) [3%Z] 0 false false.

(** Embeddings(20, 5, 1, feat_merge='mlp') *)
Definition args_mlp : Embeddings.args R :=
  Embeddings.mk_args 20 5 1 false "mlp" (7 / 10) (-1) (Some []) [] 0 false false.

(** Embeddings(10, 5, 1, feat_merge='sum', feat_padding_idx=[0, 0],
    feat_vocab_sizes=[3, 4]) *)
Definition args_sum : Embeddings.args R :=
  Embeddings.mk_args 10 5 1 false "sum" (7 / 10) (-1) (Some [0%Z; 0%Z]) [3%Z; 4%Z]
    0 false false.

(** Embeddings(10, 5, 1, feat_merge='concat', feat_vec_size=3,
    feat_padding_idx=[0, 0], feat_vocab_sizes=[3, 4]) *)
Definition args_concat : Embeddings.args R :=
  Embeddings.mk_args 10 5 1 false "concat" (7 / 10) 3 (Some [0%Z; 0%Z]) [3%Z; 4%Z]
    0 false false.

(** Embeddings(4, 5, 0, enable_embeddingless=True) *)
Definition args_narrow : Embeddings.args R :=
  Embeddings.mk_args 4 5 0 false "concat" (7 / 10) (-1) (Some []) [] 0 false true.

(** An instance with a word table of two rows of width three, and a
    pretrained table of width two. *)
Definition word_table : Embedding.t R :=
  Embedding.mk 2 3 0 [[0; 0; 0]; [1; 2; 3]] true.
Definition loaded : Embeddings.t R :=
  Embeddings.mk 0 3 3 "concat" [word_table] None false None.
Definition pretrained_2 : list (list R) := [[7; 8]; [9; 10]].

(** A file of one line, with a tab after the token: "a<TAB>1 2". *)
Definition tab_file : string :=
  String "a" (String "009" (String "1" (String " " (String "2" (String "010" ""))))).

(** A file in the word2vec format: the header "1 2", then "a 1 2". *)
Definition word2vec_file : string :=
  String "1" (String " " (String "2" (String "010"
    (String "a" (String " " (String "1" (String " " (String "2" (String "010" ""))))))))).
End Examples.

(** ** More concrete inputs *)
Module MoreExamples.
Local Open Scope R_scope.

(** The special tokens, as in OpenNMT's constants, and the pieces of a
    small tokenizer: the unknown token and two letters, one of them
    twice. *)
Definition specials : list (list N) :=
  [Text.str "<s>"; Text.str "</s>"; Text.str "<unk>"; Text.str "<blank>"].
Definition pieces : list (list N) :=
  [Text.str "<unk>"; Text.str "a"; Text.str "b"; Text.str "a"].

(** The vocabulary of these pieces: a, b, and the four specials. *)
Definition letters : Vocab.t :=
  Vocab.add_token (filter (λ i, i ∉ specials) pieces ++ specials)
    (Vocab.mk [] ∅ specials).

(** Vectors of width two for the two letters, and for a word that the
    vocabulary does not have. *)
Definition vectors_ab : list (list N * list R) :=
  [(Text.str "b", [3; 4]); (Text.str "a", [1; 2])].
Definition vectors_z : list (list N * list R) :=
  [(Text.str "b", [3; 4]); (Text.str "z", [5; 6])].

(** A file of three lines: "a 1 2", "b 3 4" and "c 5 6". *)
Definition abc_file : string :=
  String "a" (String " " (String "1" (String " " (String "2" (String "010"
  (String "b" (String " " (String "3" (String " " (String "4" (String "010"
  (String "c" (String " " (String "5" (String " " (String "6" (String "010"
   ""))))))))))))))))).

(** The filter set of the tokens a and z. *)
Definition tokens_az : gset (list N) := {[Text.str "a"; Text.str "z"]}.

(** The header line of the word2vec file: "1 2" and the newline. *)
Definition header_line : string :=
  String "1" (String " " (String "2" (String "010" ""))).

(** Embeddings(4, 5, 0, position_encoding=True, feat_merge='sum') *)
Definition args_pe : Embeddings.args R :=
  Embeddings.mk_args 4 5 0 true "sum" (7 / 10) (-1) (Some []) [] 0 false false.

(** Embeddings(4, 5, 0, position_encoding=True, feat_merge='mlp',
    feat_vec_size=3, feat_padding_idx=[0], feat_vocab_sizes=[3]) *)
Definition args_mlp_pe : Embeddings.args R :=
  Embeddings.mk_args 4 5 0 true "mlp" (7 / 10) 3 (Some [0%Z]) [3%Z] 0 false false.

(** Embeddings(4, 5, 0, feat_merge='mlp', feat_vec_size=3,
    feat_padding_idx=[0], feat_vocab_sizes=[3]) *)
Definition args_mlp_feat : Embeddings.args R :=
  Embeddings.mk_args 4 5 0 false "mlp" (7 / 10) 3 (Some [0%Z]) [3%Z] 0 false false.

(** Stand-ins for the two stages that are not among the sources, for
    the runs only: a lookup that finds no row, and a projection that
    leaves its input as it is. *)
Definition no_lookup : string → list (Embedding.t R) → list (list (list Z))
    → result (list (list (list R))) :=
  λ _ _ _, Raise IndexError.
Definition same_mlp : Z * Z → list (list (list R)) → result (list (list (list R))) :=
  λ _ x, Ok x.

(** Two instances that differ in their word padding index, as a
    registry holds them. *)
Definition emb_en : Embeddings.t R :=
  Embeddings.mk 0 3 3 "concat" [Examples.word_table] None false None.
Definition emb_de : Embeddings.t R :=
  Embeddings.mk 1 3 3 "concat" [Examples.word_table] None false None.
Definition emb_languages : list (string * Embeddings.t R) :=
  [("en"%string, emb_en); ("de"%string, emb_de)].
End MoreExamples.

(** * Properties *)

(** ** Results *)

Lemma rbind_Ok_inv {A B} (r : result A) (k : A → result B) (b : B) :
  rbind r k = Ok b → ∃ a, r = Ok a ∧ k a = Ok b.
Proof. destruct r as [a|e]; simpl; [eauto | discriminate]. Qed.

Lemma rmapM_Ok_length {A B} (f : A → result B) (l : list A) (l' : list B) :
  rmapM f l = Ok l' → length l' = length l.
Proof.
  revert l'. induction l as [|x l IH]; intros l' H; simpl in H.
  - by inversion H.
  - apply rbind_Ok_inv in H as (y & _ & H).
    apply rbind_Ok_inv in H as (ys & Hys & H).
    inversion H; subst. simpl. f_equal. by apply IH.
Qed.

Lemma rmapM_Ok_lookup {A B} (f : A → result B) (l : list A) (l' : list B) i x :
  rmapM f l = Ok l' → l !! i = Some x → ∃ y, l' !! i = Some y ∧ f x = Ok y.
Proof.
  revert l' i. induction l as [|a l IH]; intros l' i H Hi; [done|].
  simpl in H.
  apply rbind_Ok_inv in H as (y & Hy & H).
  apply rbind_Ok_inv in H as (ys & Hys & H).
  inversion H; subst.
  destruct i as [|i]; simpl in *.
  - inversion Hi; subst. eauto.
  - eauto.
Qed.

Lemma rmapM_total {A B} (f : A → result B) (g : A → B) (l : list A) :
  Forall (λ x, f x = Ok (g x)) l → rmapM f l = Ok (map g l).
Proof.
  induction 1 as [|x l Hx _ IH]; simpl; [done|].
  by rewrite Hx, IH.
Qed.

(** ** The registry *)

Section pluggable.
Context {E Src Out : Type} {Mod : TorchModule E Src Out}.
Import PluggableEmbeddings.
Implicit Types (d : list (string * E)) (reg : t E).

Lemma module_name_inj k1 k2 : module_name k1 = module_name k2 → k1 = k2.
Proof. unfold module_name. apply String.app_inj. Qed.

Lemma add_module_Ok name (m : E) mods mods' :
  add_module name m mods = Ok mods' → mods' = <[name := m]> mods.
Proof.
  unfold add_module. destruct (has_dot name); [discriminate|].
  destruct (name =? "")%string; [discriminate|]. by inversion 1.
Qed.

(** A key that is not in the dictionary leaves its name as it was. *)
Lemma add_all_lookup_notin (items : list (string * E)) mods mods' k :
  add_all items mods = Ok mods' → k ∉ items.*1 →
  mods' !! module_name k = mods !! module_name k.
Proof.
  revert mods. induction items as [|[key e] items IH]; intros mods H Hk; simpl in *.
  - by inversion H.
  - apply rbind_Ok_inv in H as (m1 & H1 & H).
    apply add_module_Ok in H1 as ->.
    apply not_elem_of_cons in Hk as [Hne Hk].
    rewrite (IH _ H Hk).
    apply lookup_insert_ne. intros Heq. by apply module_name_inj in Heq.
Qed.

(** A key of the dictionary is registered with its own instance. *)
Lemma add_all_lookup_in (items : list (string * E)) mods mods' k e :
  add_all items mods = Ok mods' → NoDup items.*1 → (k, e) ∈ items →
  mods' !! module_name k = Some e.
Proof.
  revert mods. induction items as [|[key e'] items IH]; intros mods H Hnd Hin; simpl in *.
  - by apply elem_of_nil in Hin.
  - apply rbind_Ok_inv in H as (m1 & H1 & H).
    apply add_module_Ok in H1 as ->.
    apply NoDup_cons in Hnd as [Hkey Hnd].
    apply elem_of_cons in Hin as [Heq|Hin].
    + inversion Heq; subst.
      rewrite (add_all_lookup_notin _ _ _ _ H Hkey).
      apply lookup_insert_eq.
    + by apply (IH _ H).
Qed.

Lemma init_modules (d : list (string * E)) reg :
  init d = Ok reg → add_all d ∅ = Ok (modules reg) ∧ active_key reg = None.
Proof.
  unfold init. intros H. apply rbind_Ok_inv in H as (m & Hm & H).
  inversion H; subst. by simpl.
Qed.

Lemma forward_inactive reg source step :
  active_key reg = None →
  forward reg source step
  = Raise (Exception "Must activate PluggableEmbeddings before forward").
Proof. unfold forward, _active_embeddings. by intros ->. Qed.

(** C1. For a registry built from a dictionary of instances: [forward]
    before any activation raises the "must activate" exception; in every
    later state (the registered modules never change) [activate] of a
    key that is not in the dictionary raises and, for a key [k] bound to
    the instance [e], [activate k] succeeds and [forward] then returns
    what [e]'s own [forward] returns on the same input. *)
Theorem pluggable_forward_delegates d reg0 :
  NoDup d.*1 →
  init d = Ok reg0 →
  (∀ source step,
      forward reg0 source step
      = Raise (Exception "Must activate PluggableEmbeddings before forward"))
  ∧ ∀ reg, modules reg = modules reg0 →
      (∀ k, k ∉ d.*1 → ∃ msg, activate k reg = (Raise (AssertionError msg), reg))
      ∧ (∀ k e, (k, e) ∈ d →
           ∃ reg', activate k reg = (Ok tt, reg')
                   ∧ modules reg' = modules reg0
                   ∧ ∀ source step,
                       forward reg' source step = module_forward e source step).
Proof.
  intros Hnd Hinit. apply init_modules in Hinit as [Hmods Hnone].
  split; [intros; by apply forward_inactive|].
  intros reg Hreg. split.
  - intros k Hk. unfold activate. rewrite Hreg.
    rewrite (add_all_lookup_notin _ _ _ _ Hmods Hk), lookup_empty. eauto.
  - intros k e Hin. unfold activate. rewrite Hreg.
    rewrite (add_all_lookup_in _ _ _ _ _ Hmods Hnd Hin).
    eexists; split; [done|]. split; [done|].
    intros source step. unfold forward, _active_embeddings; simpl.
    by rewrite (add_all_lookup_in _ _ _ _ _ Hmods Hnd Hin).
Qed.

(** C10. For a registry built from a dictionary, in any later state: an
    [activate] of a key that is not registered raises and leaves the
    object as it was, so the active key keeps its value, [forward] gives
    what it gave before, and a registry that was never activated still
    raises the "must activate" exception. *)
Theorem activate_failure_keeps_state d reg0 reg k :
  init d = Ok reg0 →
  modules reg = modules reg0 →
  k ∉ d.*1 →
  (∃ msg, (activate k reg).1 = Raise (AssertionError msg))
  ∧ (activate k reg).2 = reg
  ∧ active_key (activate k reg).2 = active_key reg
  ∧ (∀ source step,
       forward (activate k reg).2 source step = forward reg source step)
  ∧ (active_key reg = None →
     ∀ source step,
       forward (activate k reg).2 source step
       = Raise (Exception "Must activate PluggableEmbeddings before forward")).
Proof.
  intros Hinit Hreg Hk. apply init_modules in Hinit as [Hmods _].
  assert (Hact : ∃ msg, activate k reg = (Raise (AssertionError msg), reg)).
  { unfold activate. rewrite Hreg.
    rewrite (add_all_lookup_notin _ _ _ _ Hmods Hk), lookup_empty. eauto. }
  destruct Hact as [msg ->]. simpl.
  repeat split; eauto using forward_inactive.
Qed.
End pluggable.

(** ** Slices and broadcasting *)

Section tensor_lemmas.
Context {F : Type} `{!FloatOps F}.

Lemma py_slice_in_range {A} (l : list A) (o len : Z) :
  0 ≤ o → 0 ≤ len → o + len ≤ Z.of_nat (length l) →
  py_slice o (len + o) l = take (Z.to_nat len) (drop (Z.to_nat o) l).
Proof.
  intros Ho Hlen Hle. unfold py_slice, py_index_clamp.
  destruct (Z.ltb_spec o 0); [lia|].
  destruct (Z.ltb_spec (len + o) 0); [lia|].
  do 2 f_equal; lia.
Qed.

Lemma bcast_same_length {A B C} (f : A → B → result C) xs ys :
  length xs = length ys →
  bcast f xs ys = rmapM (λ xy, f xy.1 xy.2) (zip xs ys).
Proof. intros H. unfold bcast. by rewrite decide_True. Qed.

Lemma bcast_singleton_r {A B C} (f : A → B → result C) xs y :
  bcast f xs [y] = rmapM (λ x, f x y) xs.
Proof.
  unfold bcast. destruct xs as [|x [|x' xs]]; simpl; try done.
Qed.

Lemma rmapM_zip_total {A B C} (f : A → B → result C) (g : A → B → C) xs ys :
  Forall (λ xy : A * B, f xy.1 xy.2 = Ok (g xy.1 xy.2)) (zip xs ys) →
  rmapM (λ xy, f xy.1 xy.2) (zip xs ys) = Ok (zip_with g xs ys).
Proof.
  intros H. rewrite (rmapM_total _ (λ xy, g xy.1 xy.2) _ H).
  f_equal. revert ys H. induction xs as [|x xs IH]; intros [|y ys] H; simpl; try done.
  f_equal. apply IH. by inversion H.
Qed.

Lemma vec_add_same_length (v w : list F) :
  length v = length w →
  bcast (λ a b, Ok (fadd a b)) v w = Ok (zip_with fadd v w).
Proof.
  intros H. rewrite bcast_same_length by done.
  apply (rmapM_zip_total (λ a b, Ok (fadd a b)) fadd). by apply Forall_forall.
Qed.

(** A batch of vectors of width [c] plus one row of width [c]. *)
Lemma batch_add_row (b c : nat) (x : list (list F)) (row : list F) :
  has_shape2 b c x → length row = c →
  bcast (bcast (λ a b, Ok (fadd a b))) x [row]
  = Ok (map (λ v, zip_with fadd v row) x).
Proof.
  intros [_ Hx] Hrow. rewrite bcast_singleton_r.
  apply rmapM_total. eapply Forall_impl; [exact Hx|].
  intros v Hv. simpl in Hv. apply vec_add_same_length. congruence.
Qed.

Lemma zip_Forall_l {A B} (P : A → Prop) (Q : B → Prop) (xs : list A) (ys : list B) :
  Forall P xs → Forall Q ys → Forall (λ xy, P xy.1 ∧ Q xy.2) (zip xs ys).
Proof.
  intros Hx. revert ys. induction Hx as [|x xs Hx _ IH]; intros ys Hy; simpl.
  - constructor.
  - destruct Hy as [|y ys Hy Hys]; constructor; [done|]. by apply IH.
Qed.

Lemma length_tscale3 (x : list (list (list F))) s : length (tscale3 x s) = length x.
Proof. unfold tscale3. by rewrite length_map. Qed.

Lemma has_shape3_tscale3 a b c (x : list (list (list F))) s :
  has_shape3 a b c x → has_shape3 a b c (tscale3 x s).
Proof.
  intros [Hlen Hx]. split; [by rewrite length_tscale3|].
  unfold tscale3. apply Forall_map. eapply Forall_impl; [exact Hx|].
  intros m [Hm Hrows]; simpl. split; [by rewrite length_map|].
  apply Forall_map. eapply Forall_impl; [exact Hrows|].
  intros r Hr; simpl. by rewrite length_map.
Qed.

Lemma nn_Dropout_inactive (p : F) (training : bool) u (x : list (list (list F))) :
  training = false ∨ feqb p f0 = true → nn_Dropout p training u x = x.
Proof.
  unfold nn_Dropout. intros [-> | ->]; [done|]. by rewrite orb_true_r.
Qed.
End tensor_lemmas.

(** ** The positional encoding *)

Section positional.
Context {F : Type} `{!FloatOps F}.
Import PositionalEncoding.

Lemma length_pe_row (dim : Z) p :
  0 ≤ dim → dim mod 2 = 0 → length (pe_row (F:=F) dim p) = Z.to_nat dim.
Proof.
  intros Hd Hm. unfold pe_row.
  assert (Hlen : ∀ l : list nat,
    length (flat_map (λ i, let a := fmul (of_int (Z.of_nat p)) (div_term dim i) in
                           [fsin a; fcos a]) l) = (2 * length l)%nat).
  { induction l as [|i l IH]; simpl in *; lia. }
  rewrite Hlen, length_seq.
  pose proof (Z.div_mod dim 2 ltac:(lia)). lia.
Qed.

Lemma length_pe_table (max_len dim : Z) :
  length (pe_table (F:=F) max_len dim) = Z.to_nat max_len.
Proof. unfold pe_table. by rewrite length_map, length_seq. Qed.

(** Every entry of the table is one row of width [dim]. *)
Lemma pe_table_rows (max_len dim : Z) :
  0 ≤ dim → dim mod 2 = 0 →
  Forall (λ r : list (list F), ∃ row, r = [row] ∧ length row = Z.to_nat dim)
         (pe_table max_len dim).
Proof.
  intros Hd Hm. unfold pe_table. apply Forall_map, Forall_forall.
  intros p _. simpl. eexists; split; [done|]. by apply length_pe_row.
Qed.

Lemma pe_init_Ok_inv (p : F) (dim max_len : Z) self :
  init p dim max_len = Ok self →
  dim mod 2 = 0 ∧ 0 < dim ∧ 0 ≤ max_len
  ∧ self = mk (pe_table max_len dim) p dim true.
Proof.
  unfold init. intros H.
  destruct (Z.eqb_spec (dim mod 2) 0) as [Hm|]; simpl in H; [|discriminate].
  destruct (Z.ltb_spec max_len 0); simpl in H; [discriminate|].
  destruct (Z.ltb_spec dim 0); simpl in H; [discriminate|].
  destruct (Z.eqb_spec dim 0); [discriminate|].
  destruct (fltb p f0 || fltb f1 p); [discriminate|].
  inversion H. repeat split; lia.
Qed.

(** The sum of a scaled input and the rows of the table. *)
Lemma tadd3_rows (b c : nat) (x : list (list (list F))) (rows : list (list (list F))) :
  length x = length rows →
  Forall (has_shape2 b c) x →
  Forall (λ r : list (list F), ∃ row, r = [row] ∧ length row = c) rows →
  tadd3 x rows
  = Ok (zip_with (λ m r, map (λ v, zip_with fadd v (concat r)) m) x rows).
Proof.
  intros Hlen Hx Hrows. unfold tadd3. rewrite bcast_same_length by done.
  apply (rmapM_zip_total (bcast (bcast (λ a b, Ok (fadd a b))))
           (λ m r, map (λ v, zip_with fadd v (concat r)) m)).
  eapply Forall_impl; [apply (zip_Forall_l _ _ _ _ Hx Hrows)|].
  intros [m r] [Hm (row & -> & Hrow)]; simpl in *.
  rewrite app_nil_r. by apply (batch_add_row b c).
Qed.

(** Inside the table, [forward] is the dropout of the scaled input plus
    the rows at the offset. *)
Lemma pe_forward_in_range (p : F) (D L : Z) (mode : bool)
    (u : nat → nat → nat → F) (emb : list (list (list F))) (step : option Z)
    (b : nat) :
  D mod 2 = 0 → 0 < D → 0 ≤ L →
  let self := mk (pe_table L D) p D mode in
  let o := step_or_0 step in
  has_shape3 (length emb) b (Z.to_nat D) emb →
  0 ≤ o → o + Z.of_nat (length emb) ≤ L →
  forward self u emb step
  = Ok (nn_Dropout p mode u (scaled_plus_rows self emb (Z.to_nat o))).
Proof.
  intros Hm HD HL self o Hshape Ho Hle.
  pose proof (has_shape3_tscale3 _ _ _ _ (fsqrt (of_int D)) Hshape) as [Hlen Hrows].
  unfold forward, scaled_plus_rows; simpl. fold o.
  rewrite Hlen, length_pe_table.
  destruct (Z.ltb_spec (Z.of_nat (Z.to_nat L)) (o + Z.of_nat (length emb))); [lia|].
  rewrite py_slice_in_range by (rewrite ?length_pe_table; lia).
  rewrite Nat2Z.id.
  erewrite (tadd3_rows b (Z.to_nat D)); [done| |exact Hrows|].
  - rewrite Hlen, length_take, length_drop, length_pe_table. lia.
  - apply Forall_take, Forall_drop, pe_table_rows; lia.
Qed.

(** C2 (amended). For a positional encoding constructed with width [D]
    (even, or the construction fails) and maximum length [L], in either
    mode, and an input applied at offset [o = step or 0]: when
    [o + len > L] the call raises [SequenceTooLongError]; when the input
    has shape (len, b, D), [0 <= o] and [o + len <= L], it succeeds and
    returns the dropout layer applied to the input scaled by sqrt(D)
    plus the table rows [o, o + len), which is that sum itself when the
    dropout is inactive (evaluation mode, or p = 0).  The table is the
    one computed at construction. *)
Theorem positional_encoding_forward (p : F) (D L : Z) (self0 : t F) (mode : bool)
    (u : nat → nat → nat → F) (emb : list (list (list F))) (step : option Z)
    (b : nat) :
  init p D L = Ok self0 →
  let self := set_training mode self0 in
  let o := step_or_0 step in
  let len := length emb in
  (L < o + Z.of_nat len → forward self u emb step = Raise SequenceTooLongError)
  ∧ (has_shape3 len b (Z.to_nat D) emb → 0 ≤ o → o + Z.of_nat len ≤ L →
     forward self u emb step
     = Ok (nn_Dropout p mode u (scaled_plus_rows self emb (Z.to_nat o)))
     ∧ (mode = false ∨ feqb p f0 = true →
        forward self u emb step = Ok (scaled_plus_rows self emb (Z.to_nat o)))).
Proof.
  intros Hinit self o len.
  apply pe_init_Ok_inv in Hinit as (Hm & HD & HL & ->).
  split.
  - intros Hgt. unfold forward; simpl. fold o.
    rewrite length_tscale3, length_pe_table. fold len.
    destruct (Z.ltb_spec (Z.of_nat (Z.to_nat L)) (o + Z.of_nat len)); [done|lia].
  - intros Hshape Ho Hle.
    pose proof (pe_forward_in_range p D L mode u emb step b Hm HD HL Hshape Ho Hle)
      as Hfwd.
    split; [exact Hfwd|].
    intros Hoff. unfold self, set_training; simpl. rewrite Hfwd. f_equal.
    by apply nn_Dropout_inactive.
Qed.
End positional.

(** ** The lookup tables *)

Section tables.
Context {F : Type} `{!FloatOps F}.
Import Embeddings.

Lemma length_one_hot_row (vocab i : nat) : length (one_hot_row (F:=F) vocab i) = vocab.
Proof. unfold one_hot_row. by rewrite length_map, length_seq. Qed.


Lemma Embedding_init_in_range (rnd : nat → nat → F) (vocab dim pad : Z) :
  0 ≤ pad < vocab → 0 ≤ dim →
  Embedding.init rnd vocab dim pad
  = Ok (Embedding.mk vocab dim pad
          (<[Z.to_nat pad := replicate (Z.to_nat dim) f0]>
             (Embedding.random_weight rnd vocab dim))
          true).
Proof.
  intros Hpad Hdim. unfold Embedding.init.
  destruct (Z.ltb_spec 0 pad); destruct (Z.ltb_spec pad vocab); try lia; simpl;
    destruct (Z.ltb_spec pad 0); try lia; simpl;
    destruct (Z.ltb_spec vocab 0); try lia; simpl;
    destruct (Z.ltb_spec dim 0); try lia; simpl;
    destruct (Z.leb_spec vocab pad); try lia; done.
Qed.

Lemma length_one_hot_padded (vocab dim : Z) :
  length (one_hot_padded vocab dim) = Z.to_nat vocab.
Proof.
  unfold one_hot_padded.
  rewrite length_zip_with, length_map, length_seq, length_replicate. lia.
Qed.

Lemma one_hot_padded_lookup (vocab dim : Z) (i : nat) :
  (i < Z.to_nat vocab)%nat →
  one_hot_padded vocab dim !! i
  = Some (one_hot_row (Z.to_nat vocab) i ++ replicate (Z.to_nat (dim - vocab)) f0).
Proof.
  intros Hi. unfold one_hot_padded.
  rewrite lookup_zip_with, list_lookup_fmap, lookup_seq_lt by done. simpl.
  by rewrite lookup_replicate_2.
Qed.

(** A structured table whose width is below the vocabulary size is
    refused, whatever the padding index. *)
Lemma create_embeddingless_narrow (rnd : nat → nat → F) (vocab dim pad : Z) :
  dim < vocab → ∃ e, create_embeddingless rnd vocab dim pad = Raise e.
Proof.
  intros Hlt. unfold create_embeddingless.
  destruct (vocab <? 0); [eauto|].
  destruct (vocab =? 0); [eauto|].
  destruct (Z.ltb_spec (dim - vocab) 0); [eauto|lia].
Qed.

End tables.

(** ** The construction of [Embeddings] *)

Section construction.
Context {F : Type} `{!FloatOps F}.
Variable accepts : string → bool.
Import Embeddings.

Lemma validate_Ok_inv merge (vocabs : list Z) (exponent : F) size pads :
  _validate_args merge vocabs exponent size pads = Ok tt →
  (merge = "sum" ∨ 0 < size ∨ fleb exponent f0 = false)
  ∧ ∃ ps, pads = Some ps ∧ length ps = length vocabs.
Proof.
  unfold _validate_args. intros H.
  apply rbind_Ok_inv in H as (u & H1 & H2). split.
  - destruct (String.eqb_spec merge "sum"); [by left|].
    destruct (Z.ltb_spec 0 size); [by right; left|].
    destruct (fleb exponent f0); [discriminate|]. by right; right.
  - destruct pads as [ps|]; [|discriminate].
    destruct (Nat.eqb_spec (length vocabs) (length ps)); [|discriminate].
    eauto.
Qed.

Lemma length_feat_dims (a : args F) dims :
  feat_dims a = Ok dims → length dims = length (feat_vocab_sizes a).
Proof.
  unfold feat_dims.
  destruct (feat_merge a =? "sum")%string; [|destruct (0 <? feat_vec_size a)].
  - inversion 1. by rewrite length_replicate.
  - inversion 1. by rewrite length_replicate.
  - apply rmapM_Ok_length.
Qed.

Lemma has_shape2_random (rnd : nat → nat → F) (rows cols : Z) :
  has_shape2 (Z.to_nat rows) (Z.to_nat cols) (Embedding.random_weight rnd rows cols).
Proof.
  unfold Embedding.random_weight. split.
  - by rewrite length_map, length_seq.
  - apply Forall_map, Forall_forall. intros i _. simpl.
    by rewrite length_map, length_seq.
Qed.

Lemma has_shape2_one_hot_padded (vocab dim : Z) :
  0 ≤ dim - vocab →
  has_shape2 (Z.to_nat vocab) (Z.to_nat dim) (one_hot_padded (F:=F) vocab dim).
Proof.
  intros Hd. split; [apply length_one_hot_padded|].
  apply Forall_lookup_2. intros i row Hi.
  assert (i < Z.to_nat vocab)%nat as Hlt.
  { apply lookup_lt_Some in Hi. by rewrite length_one_hot_padded in Hi. }
  rewrite one_hot_padded_lookup in Hi by done. inversion Hi; subst.
  rewrite length_app, length_one_hot_row, length_replicate. lia.
Qed.

Lemma Embedding_init_table (rnd : nat → nat → F) vocab dim pad lut :
  Embedding.init rnd vocab dim pad = Ok lut →
  table_for (vocab, (dim, pad)) lut ∧ Embedding.requires_grad lut = true.
Proof.
  unfold Embedding.init. intros H.
  destruct ((0 <? pad) && negb (pad <? vocab)); [discriminate|].
  destruct ((pad <? 0) && negb (- vocab <=? pad)); [discriminate|].
  destruct ((vocab <? 0) || (dim <? 0)); [discriminate|].
  destruct (_ <=? _); [discriminate|].
  inversion H; subst. split; [|done]. repeat split; simpl.
  - rewrite length_insert. apply has_shape2_random.
  - apply Forall_insert; [apply has_shape2_random|]. by rewrite length_replicate.
Qed.

Lemma create_embeddingless_table (rnd : nat → nat → F) vocab dim pad lut :
  create_embeddingless rnd vocab dim pad = Ok lut →
  table_for (vocab, (dim, pad)) lut ∧ Embedding.requires_grad lut = false.
Proof.
  unfold create_embeddingless. intros H.
  destruct (vocab <? 0); [discriminate|].
  destruct (vocab =? 0); [discriminate|].
  destruct (Z.ltb_spec (dim - vocab) 0); [discriminate|].
  fold (one_hot_padded (F:=F) vocab dim) in H.
  apply rbind_Ok_inv in H as (w & Hw & H).
  apply rbind_Ok_inv in H as (emb & Hemb & H).
  inversion H; subst. apply Embedding_init_table in Hemb as [(Hn & Hd & _) _].
  split; [|done]. repeat split; simpl; try done.
  - unfold set_row in Hw. destruct (_ || _); [discriminate|].
    inversion Hw; subst. rewrite length_insert. apply length_one_hot_padded.
  - unfold set_row in Hw. destruct (_ || _); [discriminate|].
    inversion Hw; subst.
    apply Forall_insert; [by apply has_shape2_one_hot_padded|].
    by rewrite length_replicate.
Qed.

Lemma make_tables_spec embeddingless (rnd : nat → nat → nat → F) k params luts :
  make_tables embeddingless rnd k params = Ok luts →
  Forall2 table_for params luts
  ∧ Forall (λ lut, Embedding.requires_grad lut = negb embeddingless) luts.
Proof.
  revert k luts. induction params as [|[vocab [dim pad]] params IH]; intros k luts H.
  - inversion H. by split; constructor.
  - simpl in H.
    apply rbind_Ok_inv in H as (e & He & H).
    apply rbind_Ok_inv in H as (es & Hes & H).
    inversion H; subst. destruct (IH _ _ Hes) as [IH1 IH2].
    assert (table_for (vocab, (dim, pad)) e
            ∧ Embedding.requires_grad e = negb embeddingless) as [He1 He2].
    { destruct embeddingless.
      - by apply create_embeddingless_table in He.
      - by apply Embedding_init_table in He. }
    by split; constructor.
Qed.

Lemma make_tables_narrow (rnd : nat → nat → nat → F) k params i vocab dim pad :
  params !! i = Some (vocab, (dim, pad)) → dim < vocab →
  ∃ e, make_tables true rnd k params = Raise e.
Proof.
  revert k i. induction params as [|[v [d p]] params IH]; intros k i Hi Hlt; [done|].
  simpl. destruct i as [|i]; simpl in Hi.
  - inversion Hi; subst.
    destruct (create_embeddingless_narrow (rnd k) vocab dim pad Hlt) as [e ->].
    simpl. eauto.
  - destruct (create_embeddingless (rnd k) v d p); simpl; [|eauto].
    destruct (IH (S k) i Hi Hlt) as [e ->]. simpl. eauto.
Qed.

(** The stages of [__init__], read off a successful construction. *)
Lemma embeddings_init_Ok_inv (rnd : nat → nat → nat → F) (a : args F) (e : t F) :
  init accepts rnd a = Ok e →
  ∃ dims pads luts,
    _validate_args (feat_merge a) (feat_vocab_sizes a) (feat_vec_exponent a)
                   (feat_vec_size a) (feat_padding_idx a) = Ok tt
    ∧ feat_padding_idx a = Some pads
    ∧ length pads = length (feat_vocab_sizes a)
    ∧ feat_dims a = Ok dims
    ∧ make_tables (enable_embeddingless a) rnd 0 (emb_params a dims) = Ok luts
    ∧ accepts (feat_merge a) = true
    ∧ embedding_size e
      = (if (feat_merge a =? "concat")%string then sum_dims (word_vec_size a :: dims)
         else word_vec_size a)
    ∧ mlp e
      = (if (feat_merge a =? "mlp")%string && (0 <? Z.of_nat (length (feat_vocab_sizes a)))
         then Some (sum_dims (word_vec_size a :: dims), word_vec_size a) else None)
    ∧ self_word_vec_size e = word_vec_size a
    ∧ (if freeze_word_vecs a then freeze_word_lut luts else Ok luts) = Ok (emb_luts e).
Proof.
  unfold init. intros H.
  apply rbind_Ok_inv in H as ([] & Hval & H).
  apply rbind_Ok_inv in H as (dims & Hdims & H).
  apply rbind_Ok_inv in H as (luts & Hluts & H).
  destruct (accepts (feat_merge a)) eqn:Hacc; simpl in H; [|discriminate].
  apply rbind_Ok_inv in H as (pe & Hpe & H).
  apply rbind_Ok_inv in H as (luts' & Hfreeze & H).
  inversion H; subst; simpl.
  destruct (validate_Ok_inv _ _ _ _ _ Hval) as (_ & pads & Hpads & Hlen).
  exists dims, pads, luts. repeat split; done.
Qed.

Lemma freeze_keeps_dims (luts luts' : list (Embedding.t F)) :
  freeze_word_lut luts = Ok luts' →
  Embedding.embedding_dim <$> luts' = Embedding.embedding_dim <$> luts.
Proof. destruct luts; [discriminate|]. by inversion 1. Qed.

Lemma emb_params_dims (a : args F) dims pads :
  feat_padding_idx a = Some pads →
  length pads = length (feat_vocab_sizes a) →
  length dims = length (feat_vocab_sizes a) →
  (λ p : Z * (Z * Z), p.2.1) <$> emb_params a dims = word_vec_size a :: dims
  ∧ (λ p : Z * (Z * Z), p.1) <$> emb_params a dims
    = word_vocab_size a :: feat_vocab_sizes a.
Proof.
  intros Hpads Hlp Hld. unfold emb_params, pad_indices. rewrite Hpads. simpl.
  split; f_equal.
  - change (λ p : Z * (Z * Z), p.2.1) with (fst ∘ (snd : Z * (Z * Z) → Z * Z)).
    rewrite list_fmap_compose.
    rewrite snd_zip by (rewrite length_zip; lia).
    apply fst_zip. lia.
  - apply fst_zip. rewrite length_zip. lia.
Qed.
End construction.

Lemma rmapM_Ok_Forall2 {A B} (f : A → result B) (l : list A) (l' : list B) :
  rmapM f l = Ok l' → Forall2 (λ x y, f x = Ok y) l l'.
Proof.
  revert l'. induction l as [|x l IH]; intros l' H; simpl in H.
  - inversion H. constructor.
  - apply rbind_Ok_inv in H as (y & Hy & H).
    apply rbind_Ok_inv in H as (ys & Hys & H).
    inversion H; subst. constructor; [done|]. by apply IH.
Qed.

Section embeddings_claims.
Context {F : Type} `{!FloatOps F}.
Variable accepts : string → bool.
Import Embeddings.

(** The widths of the constructed tables are the word width followed by
    the feature widths. *)
Lemma init_table_dims (rnd : nat → nat → nat → F) (a : args F) (e : t F) :
  init accepts rnd a = Ok e →
  ∃ dims, feat_dims a = Ok dims
          ∧ Embedding.embedding_dim <$> emb_luts e = word_vec_size a :: dims.
Proof.
  intros H.
  apply embeddings_init_Ok_inv in H
    as (dims & pads & luts & _ & Hpads & Hlp & Hdims & Hluts & _ & _ & _ & _ & Hfr).
  exists dims. split; [done|].
  apply make_tables_spec in Hluts as [Htab _].
  destruct (emb_params_dims a dims pads Hpads Hlp (length_feat_dims a dims Hdims))
    as [Hd _].
  assert (Embedding.embedding_dim <$> luts = word_vec_size a :: dims) as Hl.
  { rewrite <- Hd. clear -Htab.
    induction Htab as [|p lut ps luts (_ & Hdim & _) _ IH]; [done|].
    rewrite !fmap_cons. by f_equal. }
  destruct (freeze_word_vecs a).
  - by rewrite (freeze_keeps_dims _ _ Hfr).
  - by inversion Hfr; subst.
Qed.

(** Every constructed table has as many rows as its vocabulary and rows
    of its width. *)
Lemma init_table_shapes (rnd : nat → nat → nat → F) (a : args F) (e : t F) :
  init accepts rnd a = Ok e →
  Forall (λ lut, has_shape2 (Z.to_nat (Embedding.num_embeddings lut))
                            (Z.to_nat (Embedding.embedding_dim lut))
                            (Embedding.weight lut))
         (emb_luts e).
Proof.
  intros H.
  apply embeddings_init_Ok_inv in H
    as (dims & pads & luts & _ & _ & _ & _ & Hluts & _ & _ & _ & _ & Hfr).
  apply make_tables_spec in Hluts as [Htab _].
  assert (Forall (λ lut, has_shape2 (Z.to_nat (Embedding.num_embeddings lut))
                                    (Z.to_nat (Embedding.embedding_dim lut))
                                    (Embedding.weight lut)) luts) as Hl.
  { clear -Htab. induction Htab as [|p lut ps luts (Hn & Hd & Hs) _ IH]; constructor;
      [by rewrite Hn, Hd | done]. }
  destruct (freeze_word_vecs a); [|by inversion Hfr; subst].
  destruct luts as [|word_lut feats]; [discriminate|].
  inversion Hfr; subst. inversion Hl; subst. by constructor.
Qed.

(** The vocabulary sizes of the constructed tables are the word
    vocabulary followed by the feature vocabularies. *)
Lemma init_table_vocabs (rnd : nat → nat → nat → F) (a : args F) (e : t F) :
  init accepts rnd a = Ok e →
  Embedding.num_embeddings <$> emb_luts e = word_vocab_size a :: feat_vocab_sizes a.
Proof.
  intros H.
  apply embeddings_init_Ok_inv in H
    as (dims & pads & luts & _ & Hpads & Hlp & Hdims & Hluts & _ & _ & _ & _ & Hfr).
  apply make_tables_spec in Hluts as [Htab _].
  destruct (emb_params_dims a dims pads Hpads Hlp (length_feat_dims a dims Hdims))
    as [_ Hv].
  assert (Embedding.num_embeddings <$> luts = word_vocab_size a :: feat_vocab_sizes a)
    as Hl.
  { rewrite <- Hv. clear -Htab.
    induction Htab as [|p lut ps luts (Hn & _ & _) _ IH]; [done|].
    rewrite !fmap_cons. by f_equal. }
  destruct (freeze_word_vecs a); [|by inversion Hfr; subst].
  destruct luts as [|word_lut feats]; [discriminate|].
  by inversion Hfr; subst.
Qed.

(** The feature widths that [__init__] computes, case by case. *)
Lemma feat_dims_cases (a : args F) dims :
  feat_dims a = Ok dims →
  (feat_merge a = "sum" →
     dims = replicate (length (feat_vocab_sizes a)) (word_vec_size a))
  ∧ (feat_merge a ≠ "sum" → 0 < feat_vec_size a →
     dims = replicate (length (feat_vocab_sizes a)) (feat_vec_size a))
  ∧ (feat_merge a ≠ "sum" → feat_vec_size a ≤ 0 →
     Forall2 (λ V d, (x ←! int_pow V (feat_vec_exponent a); py_int x) = Ok d)
             (feat_vocab_sizes a) dims).
Proof.
  unfold feat_dims. intros H.
  destruct (String.eqb_spec (feat_merge a) "sum") as [Hs|Hs].
  { inversion H. split; [done|]. split; intros Hn; by destruct Hn. }
  destruct (Z.ltb_spec 0 (feat_vec_size a)).
  { inversion H. split; [done|]. split; [done|]. intros; lia. }
  split; [done|]. split; [intros; lia|]. intros _ _.
  by apply rmapM_Ok_Forall2 in H.
Qed.

(** C5. A constructed instance has one table for each channel, the
    word channel first, with the vocabulary size and the width of the
    channel: the word width for the word table, and for the feature
    tables the word width under [sum], otherwise the feature width
    parameter when it is positive, otherwise int(vocab ** exponent).
    Its [embedding_size] is the sum of these widths (the word width
    plus the feature widths) under [concat], and the word width, which
    is the width of the word table, under [sum] and under [mlp]. *)
Theorem embedding_size_spec (rnd : nat → nat → nat → F) (a : args F) (e : t F) :
  init accepts rnd a = Ok e →
  ∃ dims : list Z,
    length dims = length (feat_vocab_sizes a)
    ∧ (feat_merge a = "sum" →
         dims = replicate (length (feat_vocab_sizes a)) (word_vec_size a))
    ∧ (feat_merge a ≠ "sum" → 0 < feat_vec_size a →
         dims = replicate (length (feat_vocab_sizes a)) (feat_vec_size a))
    ∧ (feat_merge a ≠ "sum" → feat_vec_size a ≤ 0 →
         Forall2 (λ V d, (x ←! int_pow V (feat_vec_exponent a); py_int x) = Ok d)
                 (feat_vocab_sizes a) dims)
    ∧ length (emb_luts e) = S (length (feat_vocab_sizes a))
    ∧ Embedding.num_embeddings <$> emb_luts e = word_vocab_size a :: feat_vocab_sizes a
    ∧ Embedding.embedding_dim <$> emb_luts e = word_vec_size a :: dims
    ∧ Forall (λ lut, has_shape2 (Z.to_nat (Embedding.num_embeddings lut))
                                (Z.to_nat (Embedding.embedding_dim lut))
                                (Embedding.weight lut))
             (emb_luts e)
    ∧ (feat_merge a = "concat" →
       embedding_size e = word_vec_size a + foldr Z.add 0 dims
       ∧ embedding_size e = foldr Z.add 0 (Embedding.embedding_dim <$> emb_luts e))
    ∧ (feat_merge a = "sum" ∨ feat_merge a = "mlp" →
       embedding_size e = word_vec_size a
       ∧ ∃ word_lut feats,
           emb_luts e = word_lut :: feats
           ∧ Embedding.embedding_dim word_lut = embedding_size e).
Proof.
  intros H.
  destruct (init_table_dims _ _ _ H) as (dims & Hdims & Hl).
  pose proof (init_table_vocabs _ _ _ H) as Hv.
  pose proof (init_table_shapes _ _ _ H) as Hs.
  apply embeddings_init_Ok_inv in H
    as (dims' & _ & _ & _ & _ & _ & Hdims' & _ & _ & Hsize & _).
  rewrite Hdims in Hdims'. inversion Hdims'; subst dims'.
  destruct (feat_dims_cases a dims Hdims) as (Hsum & Hpos & Hexp).
  exists dims.
  split; [by apply length_feat_dims|].
  split; [exact Hsum|]. split; [exact Hpos|]. split; [exact Hexp|].
  split.
  { rewrite <- (length_fmap Embedding.num_embeddings), Hv. done. }
  split; [exact Hv|]. split; [exact Hl|]. split; [exact Hs|]. split.
  - intros Hm. rewrite Hm in Hsize. simpl in Hsize. by rewrite Hl.
  - intros Hm.
    assert ((feat_merge a =? "concat")%string = false) as Hc
      by (destruct Hm as [-> | ->]; done).
    rewrite Hc in Hsize. split; [done|].
    destruct (emb_luts e) as [|word_lut feats]; [done|].
    inversion Hl. exists word_lut, feats. split; congruence.
Qed.

(** C3 (amended). When the merge strategy is not [sum] and the feature
    width parameter is not positive: an exponent that is [<= 0] makes
    the construction raise [ValueError]; otherwise the feature widths
    are computed whenever every power and its conversion to an integer
    are, the width for vocabulary size [V] being [int(V ** exponent)],
    the power truncated toward zero; and in a constructed instance the
    exponent is not [<= 0] and the table of each feature channel has
    that width. *)
Theorem exponent_rule (rnd : nat → nat → nat → F) (a : args F) :
  feat_merge a ≠ "sum" →
  feat_vec_size a ≤ 0 →
  (fleb (feat_vec_exponent a) f0 = true →
     ∃ msg, init accepts rnd a = Raise (ValueError msg))
  ∧ (∀ ds,
       Forall2 (λ V d, ∃ x, int_pow V (feat_vec_exponent a) = Ok x ∧ py_int x = Ok d)
               (feat_vocab_sizes a) ds →
       feat_dims a = Ok ds)
  ∧ ∀ e, init accepts rnd a = Ok e →
      fleb (feat_vec_exponent a) f0 = false
      ∧ Forall2 (λ V lut, ∃ x, int_pow V (feat_vec_exponent a) = Ok x
                               ∧ py_int x = Ok (Embedding.embedding_dim lut))
                (feat_vocab_sizes a) (tail (emb_luts e)).
Proof.
  intros Hsum Hsize.
  assert ((feat_merge a =? "sum")%string = false) as Hs by by apply String.eqb_neq.
  assert ((0 <? feat_vec_size a) = false) as Hz by lia.
  split; [|split].
  - intros Hle. unfold init, _validate_args. rewrite Hs, Hz, Hle. simpl. eauto.
  - intros ds Hds. unfold feat_dims. rewrite Hs, Hz.
    induction Hds as [|V d Vs ds (x & Hx & Hd) _ IH]; simpl; [done|].
    unfold exponent_dim at 1. rewrite Hx. simpl. rewrite Hd. simpl. by rewrite IH.
  - intros e H. destruct (init_table_dims _ _ _ H) as (dims & Hdims & Hl).
    apply embeddings_init_Ok_inv in H
      as (_ & _ & _ & Hval & _ & _ & _ & _ & _ & _ & _ & _ & _).
    apply validate_Ok_inv in Hval as [[Hv|[Hv|Hv]] _]; [done|lia|].
    split; [done|].
    unfold feat_dims in Hdims. rewrite Hs, Hz in Hdims.
    apply rmapM_Ok_Forall2 in Hdims.
    destruct (emb_luts e) as [|word_lut feats]; [done|].
    inversion Hl as [[Hw Hf]]. simpl. clear -Hdims Hf.
    revert feats Hf. induction Hdims as [|V d Vs ds HV _ IH]; intros feats Hf.
    + destruct feats; [constructor|done].
    + destruct feats as [|lut feats]; [done|]. inversion Hf; subst.
      constructor; [|by apply IH].
      unfold exponent_dim in HV. by apply rbind_Ok_inv in HV.
Qed.

(** C6 (amended). With the [mlp] strategy and no feature channel the
    construction does not fail on that account: for a configuration
    that is valid otherwise (a word padding index inside the
    vocabulary, a non-negative word width, trainable tables, no
    positional stage) it succeeds, adds no projection stage, and
    [embedding_size] is the word width. *)
Theorem mlp_without_features_constructs (rnd : nat → nat → nat → F) (a : args F) :
  feat_merge a = "mlp" →
  feat_vocab_sizes a = [] →
  feat_padding_idx a = Some [] →
  accepts "mlp" = true →
  0 < feat_vec_size a ∨ fleb (feat_vec_exponent a) f0 = false →
  position_encoding a = false →
  enable_embeddingless a = false →
  0 ≤ word_padding_idx a < word_vocab_size a →
  0 ≤ word_vec_size a →
  ∃ e, init accepts rnd a = Ok e
       ∧ mlp e = None
       ∧ length (emb_luts e) = 1%nat
       ∧ embedding_size e = word_vec_size a.
Proof.
  intros Hm Hv Hp Hacc Hexp Hpe Hel Hpad Hw.
  unfold init, _validate_args, feat_dims, emb_params, pad_indices.
  rewrite Hm, Hv, Hp, Hpe, Hel, Hacc. simpl.
  assert ((if 0 <? feat_vec_size a then Ok tt
           else if fleb (feat_vec_exponent a) f0
                then Raise (ValueError "Using feat_vec_exponent to determine feature vec size, but got feat_vec_exponent less than or equal to 0.")
                else Ok tt) = Ok tt) as ->.
  { destruct Hexp as [Hexp | ->]; [|by destruct (0 <? _)].
    by destruct (Z.ltb_spec 0 (feat_vec_size a)); [|lia]. }
  simpl. destruct (0 <? feat_vec_size a); simpl;
    rewrite Embedding_init_in_range by lia; simpl;
    destruct (freeze_word_vecs a); simpl; eauto.
Qed.

(** C8. With structured tables requested, a channel (the word channel
    or a feature channel) whose width [D] is below its vocabulary size
    [V] makes the construction itself raise: no instance is returned. *)
Theorem embeddingless_narrow_fails (rnd : nat → nat → nat → F) (a : args F)
    (dims : list Z) (i : nat) (V D : Z) :
  enable_embeddingless a = true →
  feat_dims a = Ok dims →
  (word_vocab_size a :: feat_vocab_sizes a) !! i = Some V →
  (word_vec_size a :: dims) !! i = Some D →
  D < V →
  ∃ err, init accepts rnd a = Raise err.
Proof.
  intros Hel Hdims HV HD Hlt. unfold init.
  destruct (_validate_args _ _ _ _ _) as [[]|err] eqn:Hval; cbn [rbind]; [|eauto].
  apply validate_Ok_inv in Hval as (_ & pads & Hpads & Hlp).
  rewrite Hdims, Hel. cbn [rbind].
  pose proof (length_feat_dims a dims Hdims) as Hld.
  assert (∃ pad, emb_params a dims !! i = Some (V, (D, pad))) as [pad Hi].
  { unfold emb_params, pad_indices. rewrite Hpads. simpl.
    destruct (lookup_lt_is_Some_2 (word_padding_idx a :: pads) i) as [pad Hpad].
    { apply lookup_lt_Some in HV. simpl in *. lia. }
    exists pad. destruct i as [|i]; simpl in *; [congruence|].
    apply lookup_zip_with_Some. exists V, (D, pad).
    repeat split; [done|]. apply lookup_zip_with_Some. eauto. }
  destruct (make_tables_narrow rnd 0 _ _ _ _ _ Hi Hlt) as [err ->].
  cbn [rbind]. eauto.
Qed.
End embeddings_claims.

(** ** Loading pretrained vectors *)

Section pretrained.
Context {F : Type} `{!FloatOps F}.
Import Embeddings.

Lemma size1_shape (rows cols : nat) (m : list (list F)) :
  has_shape2 rows cols m → (0 < rows)%nat → size1 m = cols.
Proof.
  intros [Hlen Hrows] Hpos. destruct m as [|r m]; simpl in *; [lia|].
  by inversion Hrows.
Qed.

Lemma bcast_rows_same (n : nat) (src : list (list F)) :
  length src = n → bcast_rows n src = Ok src.
Proof. intros H. unfold bcast_rows. by rewrite decide_True. Qed.

Lemma has_shape2_lookup rows cols (m : list (list F)) i row :
  has_shape2 rows cols m → m !! i = Some row → length row = cols.
Proof. intros [_ Hrows] Hi. by apply (Forall_lookup_1 _ _ _ _ Hrows Hi). Qed.

(** The call on a word table and a pretrained table of the same number
    of rows, with the weights [w'] that it writes. *)
Lemma load_pretrained_vectors_weight (self : t F) (word_lut : Embedding.t F)
    (feats : list (Embedding.t F)) (pretrained : list (list F)) (V W P : nat) :
  emb_luts self = word_lut :: feats →
  self_word_vec_size self = Z.of_nat W →
  has_shape2 V W (Embedding.weight word_lut) →
  has_shape2 V P pretrained →
  ∃ w',
    load_pretrained_vectors self (Some pretrained)
    = Ok (set_luts
            (Embedding.set_weight w' (Embedding.requires_grad word_lut) word_lut
             :: feats) self)
    ∧ has_shape2 V W w'
    ∧ ((P < W)%nat →
       ∀ i old new,
         Embedding.weight word_lut !! i = Some old →
         pretrained !! i = Some new →
         ∃ row, w' !! i = Some row ∧ take P row = new ∧ drop P row = drop P old)
    ∧ ((W < P)%nat → w' = take W <$> pretrained)
    ∧ (W = P → w' = pretrained).
Proof.
  intros Hluts HW Hw Hpre.
  unfold load_pretrained_vectors. rewrite Hluts, HW.
  pose proof Hw as [Hwlen Hwrows]. pose proof Hpre as [Hplen Hprows].
  destruct (Nat.eq_dec V 0%nat) as [->|HV].
  { (* tables without rows *)
    apply nil_length_inv in Hwlen, Hplen. rewrite Hwlen, Hplen. simpl.
    exists []. split; [by repeat (destruct (_ <? _); simpl)|].
    split; [by split|]. by repeat split. }
  rewrite (size1_shape _ _ _ Hpre) by lia.
  destruct (lt_eq_lt_dec P W) as [[Hlt|Heq]|Hgt].
  - destruct (Z.ltb_spec (Z.of_nat P) (Z.of_nat W)); [|lia].
    rewrite bcast_rows_same by congruence. simpl.
    eexists; split; [done|].
    split; [|split; [|split; intros; lia]].
    + split; [rewrite length_zip_with; lia|].
      apply Forall_lookup_2. intros i row Hi.
      apply lookup_zip_with_Some in Hi as (old & new & -> & Hold & Hnew).
      rewrite length_app, length_drop,
        (has_shape2_lookup _ _ _ _ _ Hw Hold), (has_shape2_lookup _ _ _ _ _ Hpre Hnew).
      lia.
    + intros _ i old new Hold Hnew. exists (new ++ drop P old).
      pose proof (has_shape2_lookup _ _ _ _ _ Hpre Hnew) as Hn.
      split; [|split].
      * apply lookup_zip_with_Some. eauto.
      * by rewrite take_app_length'.
      * by rewrite drop_app_length'.
  - subst W.
    destruct (Z.ltb_spec (Z.of_nat P) (Z.of_nat P)); [lia|].
    rewrite bcast_rows_same by congruence. simpl.
    eexists; split; [done|].
    split; [done|]. split; [|split]; [intros; lia| intros; lia |done].
  - destruct (Z.ltb_spec (Z.of_nat P) (Z.of_nat W)); [lia|].
    destruct (Z.ltb_spec (Z.of_nat W) (Z.of_nat P)); [|lia].
    rewrite bcast_rows_same by (rewrite length_map; congruence). simpl.
    eexists; split; [done|]. rewrite Nat2Z.id.
    split; [|split; [|split]]; [|intros; lia|done|intros; lia].
    split; [rewrite length_fmap; lia|].
    apply Forall_fmap. eapply Forall_impl; [exact Hprows|].
    intros row Hrow; simpl in *. rewrite length_take. lia.
Qed.

(** C7. For an instance whose word table has width [W] (its
    [word_vec_size]) and a pretrained table of width [P] with the same
    number of rows: the load succeeds, and in the instance it returns
    the other tables and every other attribute are as they were, the
    word table keeps its sizes, its padding index, its gradient flag and
    its shape, and
    - if [W > P], each row of the word table has the pretrained row in
      its columns [0, P) and its previous values in the columns [P, W);
    - if [W < P], the word table is the columns [0, W) of the pretrained
      table;
    - if [W = P], the word table is the pretrained table. *)
Theorem load_pretrained_vectors_columns (self : t F) (word_lut : Embedding.t F)
    (feats : list (Embedding.t F)) (pretrained : list (list F)) (V W P : nat) :
  emb_luts self = word_lut :: feats →
  self_word_vec_size self = Z.of_nat W →
  has_shape2 V W (Embedding.weight word_lut) →
  has_shape2 V P pretrained →
  ∃ self' word_lut',
    load_pretrained_vectors self (Some pretrained) = Ok self'
    ∧ emb_luts self' = word_lut' :: feats
    ∧ self_word_padding_idx self' = self_word_padding_idx self
    ∧ self_word_vec_size self' = self_word_vec_size self
    ∧ embedding_size self' = embedding_size self
    ∧ merge self' = merge self
    ∧ mlp self' = mlp self
    ∧ self_position_encoding self' = self_position_encoding self
    ∧ pe self' = pe self
    ∧ Embedding.num_embeddings word_lut' = Embedding.num_embeddings word_lut
    ∧ Embedding.embedding_dim word_lut' = Embedding.embedding_dim word_lut
    ∧ Embedding.padding_idx word_lut' = Embedding.padding_idx word_lut
    ∧ Embedding.requires_grad word_lut' = Embedding.requires_grad word_lut
    ∧ has_shape2 V W (Embedding.weight word_lut')
    ∧ ((P < W)%nat →
       ∀ i old new,
         Embedding.weight word_lut !! i = Some old →
         pretrained !! i = Some new →
         ∃ row, Embedding.weight word_lut' !! i = Some row
                ∧ take P row = new ∧ drop P row = drop P old)
    ∧ ((W < P)%nat → Embedding.weight word_lut' = take W <$> pretrained)
    ∧ (W = P → Embedding.weight word_lut' = pretrained).
Proof.
  intros Hluts HW Hw Hpre.
  destruct (load_pretrained_vectors_weight self word_lut feats pretrained V W P
              Hluts HW Hw Hpre) as (w' & Hload & Hshape & Hgt & Hlt & Heq).
  exists (set_luts
            (Embedding.set_weight w' (Embedding.requires_grad word_lut) word_lut
             :: feats) self),
         (Embedding.set_weight w' (Embedding.requires_grad word_lut) word_lut).
  split; [exact Hload|]. simpl.
  do 12 (split; [reflexivity|]).
  split; [exact Hshape|]. split; [exact Hgt|]. split; [exact Hlt | exact Heq].
Qed.
End pretrained.

(** ** Reading an embeddings file *)

Section reading.
Context {F : Type}.
Variable py_float : list N → result F.
Import ReadEmbeddings.

Lemma rev_app_nonempty (s1 s2 : string) : s2 ≠ ""%string → String.rev_app s1 s2 ≠ ""%string.
Proof.
  revert s2. induction s1 as [|c s1 IH]; intros s2 H; simpl; [done|].
  by apply IH.
Qed.

(** A line of a file is never empty. *)
Lemma file_lines_go_nonempty (cur s : string) :
  Forall (λ line, line ≠ ""%string) (Text.file_lines_go cur s).
Proof.
  revert cur. induction s as [|c s IH]; intros cur; simpl.
  - destruct cur as [|c cur]; constructor; [|constructor].
    unfold String.rev. simpl. by apply rev_app_nonempty.
  - destruct (Ascii.eqb c "010"); [|apply IH].
    constructor; [|apply IH]. unfold String.rev. simpl. by apply rev_app_nonempty.
Qed.

(** The loop, from line number [i] on, is the fold of [accumulate]
    over the entries of the lines that are not skipped. *)
Lemma loop_accumulate skip_lines filter_set (lines : list string) :
  Forall (λ line, line ≠ ""%string) lines →
  ∀ i embs total,
    loop py_float skip_lines filter_set i lines embs total
    = (es ←! rmapM (line_entry py_float (Text.split_on 32) filter_set)
                   (drop (Z.to_nat (skip_lines - i)) lines);
       Ok (foldl accumulate (embs, total) es)).
Proof.
  induction 1 as [|line rest Hline _ IH]; intros i embs total.
  - by rewrite drop_nil.
  - simpl loop. destruct (Z.ltb_spec i skip_lines) as [Hlt|Hge].
    + rewrite IH.
      replace (Z.to_nat (skip_lines - i)) with (S (Z.to_nat (skip_lines - (i + 1)))) by lia.
      done.
    + replace (Z.to_nat (skip_lines - i)) with 0%nat by lia.
      rewrite drop_0. simpl rmapM.
      destruct (String.eqb_spec line ""); [done|].
      destruct (Nat.eqb_spec (String.length line) 0); [by destruct line|].
      specialize (IH (i + 1)).
      replace (Z.to_nat (skip_lines - (i + 1))) with 0%nat in IH by lia.
      rewrite drop_0 in IH.
      unfold line_entry. destruct (Text.decode line) as [text|err]; simpl; [|done].
      destruct (Text.split_on 32 (Text.strip text)) as [|tok [|f2 [|f3 ems]]]; simpl;
        try done.
      * unfold passes. destruct filter_set as [fs|]; simpl.
        -- destruct (bool_decide (tok ∈ fs)); simpl; rewrite IH;
             by destruct (rmapM _ rest).
        -- rewrite IH. by destruct (rmapM _ rest).
      * rewrite IH. by destruct (rmapM _ rest).
      * unfold passes. destruct filter_set as [fs|]; simpl.
        -- destruct (bool_decide (tok ∈ fs)); simpl.
           ++ destruct (py_float f2); simpl; [|done].
              destruct (py_float f3); simpl; [|done].
              destruct (rmapM py_float ems); simpl; [|done].
              rewrite IH. by destruct (rmapM _ rest).
           ++ rewrite IH. by destruct (rmapM _ rest).
        -- destruct (py_float f2); simpl; [|done].
           destruct (py_float f3); simpl; [|done].
           destruct (rmapM py_float ems); simpl; [|done].
           rewrite IH. by destruct (rmapM _ rest).
Qed.

Lemma foldl_accumulate_collect (es : list entry) :
  foldl accumulate (∅, 0) es = collect (F:=F) es.
Proof.
  induction es as [|e es IH] using rev_ind; [done|].
  rewrite foldl_app, IH. unfold collect. simpl.
  rewrite omap_app, filter_app, length_app, reverse_app.
  destruct e; simpl; f_equal; lia.
Qed.

(** C9 (amended). After the requested number of leading lines is
    skipped, every line is decoded, stripped of the whitespace around
    it and cut at each single space character; a line of exactly two
    fields is passed over; every other line counts as a vector and,
    unless the filter set excludes its first field, binds that field
    (the token) to the remaining fields read as floats, a later line
    replacing an earlier one with the same token.  So every binding of
    the result comes from such a line, and every such line has its
    token bound. *)
Theorem read_embeddings_by_line (file : string) (skip_lines : Z)
    (filter_set : option (gset (list N))) :
  read_embeddings py_float file skip_lines filter_set
  = read_lines py_float (Text.split_on 32) file skip_lines filter_set
  ∧ ∀ embs total,
      read_embeddings py_float file skip_lines filter_set = Ok (embs, total) →
      (∀ tok vec,
         embs !! tok = Some vec →
         ∃ line text ems,
           line ∈ drop (Z.to_nat skip_lines) (Text.file_lines file)
           ∧ Text.decode line = Ok text
           ∧ Text.split_on 32 (Text.strip text) = tok :: ems
           ∧ length ems ≠ 1%nat
           ∧ passes filter_set tok = true
           ∧ rmapM py_float ems = Ok vec)
      ∧ (∀ line text tok ems,
           line ∈ drop (Z.to_nat skip_lines) (Text.file_lines file) →
           Text.decode line = Ok text →
           Text.split_on 32 (Text.strip text) = tok :: ems →
           length ems ≠ 1%nat →
           passes filter_set tok = true →
           ∃ vec, embs !! tok = Some vec).
Proof.
  assert (Heq : read_embeddings py_float file skip_lines filter_set
                = read_lines py_float (Text.split_on 32) file skip_lines filter_set).
  { unfold read_embeddings, read_lines.
    rewrite loop_accumulate by apply file_lines_go_nonempty.
    rewrite Z.sub_0_r.
    destruct (rmapM _ _); simpl; [|done]. by rewrite foldl_accumulate_collect. }
  split; [done|]. intros embs total. rewrite Heq. unfold read_lines. intros H.
  apply rbind_Ok_inv in H as (es & Hes & H).
  unfold collect in H. inversion H as [[Hembs Htotal]]. clear H Htotal.
  set (lines := drop (Z.to_nat skip_lines) (Text.file_lines file)) in *.
  assert (Hvec : ∀ line tok vec,
    line_entry py_float (Text.split_on 32) filter_set line = Ok (Vector tok vec) ↔
    ∃ text ems, Text.decode line = Ok text
                ∧ Text.split_on 32 (Text.strip text) = tok :: ems
                ∧ length ems ≠ 1%nat ∧ passes filter_set tok = true
                ∧ rmapM py_float ems = Ok vec).
  { intros line tok vec. unfold line_entry. split.
    - intros Hl. apply rbind_Ok_inv in Hl as (text & Htext & Hl).
      exists text.
      destruct (Text.split_on 32 (Text.strip text)) as [|t [|f2 [|f3 ems]]];
        try discriminate;
        destruct (passes filter_set t) eqn:Hp; try discriminate;
        apply rbind_Ok_inv in Hl as (v & Hv & Hl); inversion Hl; subst;
        eexists; repeat split; eauto.
    - intros (text & ems & -> & Hsplit & Hlen & Hp & Hv). simpl.
      rewrite Hsplit. destruct ems as [|f2 [|f3 ems]]; [|done|];
        rewrite Hp, Hv; done. }
  split.
  - intros tok vec Hlook.
    apply elem_of_list_to_map_2, elem_of_reverse, list_elem_of_omap in Hlook
      as (e & He & Hb).
    destruct e as [| |tok' vec']; try discriminate. inversion Hb; subst.
    apply list_elem_of_lookup in He as [i Hi].
    assert (∃ line, lines !! i = Some line) as [line Hline].
    { apply lookup_lt_is_Some_2. rewrite <- (rmapM_Ok_length _ _ _ Hes).
      by apply lookup_lt_Some in Hi. }
    destruct (rmapM_Ok_lookup _ _ _ _ _ Hes Hline) as (e & Hi' & Hentry).
    rewrite Hi in Hi'. inversion Hi'; subst e.
    apply Hvec in Hentry as (text & ems & ?). exists line, text, ems.
    split; [|done]. apply list_elem_of_lookup. eauto.
  - intros line text tok ems Hin Htext Hsplit Hlen Hp.
    apply list_elem_of_lookup in Hin as [i Hline].
    destruct (rmapM_Ok_lookup _ _ _ _ _ Hes Hline) as (e & Hi & Hentry).
    assert (∃ vec, e = Vector tok vec) as [vec ->].
    { unfold line_entry in Hentry. rewrite Htext in Hentry. simpl in Hentry.
      rewrite Hsplit in Hentry. destruct ems as [|f2 [|f3 ems]]; [|done|];
        rewrite Hp in Hentry;
        apply rbind_Ok_inv in Hentry as (v & _ & Hentry); inversion Hentry; eauto. }
    destruct (list_to_map (reverse (omap binding es)) !! tok) as [v|] eqn:Hlook;
      [eauto|].
    apply not_elem_of_list_to_map_2 in Hlook. exfalso. apply Hlook.
    apply list_elem_of_fmap. exists (tok, vec). split; [done|].
    apply elem_of_reverse, list_elem_of_omap. exists (Vector tok vec).
    split; [|done]. apply list_elem_of_lookup. eauto.
Qed.
End reading.

(** ** The arithmetic of the real instance *)

Lemma RFloat_ltb_true (x y : R) : (x < y)%R → RFloat.ltb x y = true.
Proof. intros H. unfold RFloat.ltb. destruct (Rlt_dec x y); [done|contradiction]. Qed.

Lemma RFloat_ltb_false (x y : R) : (y <= x)%R → RFloat.ltb x y = false.
Proof. intros H. unfold RFloat.ltb. destruct (Rlt_dec x y); [lra|done]. Qed.

Lemma RFloat_leb_false (x y : R) : (y < x)%R → RFloat.leb x y = false.
Proof. intros H. unfold RFloat.leb. destruct (Rle_dec x y); [lra|done]. Qed.

Lemma RFloat_eqb_false (x y : R) : x ≠ y → RFloat.eqb x y = false.
Proof. intros H. unfold RFloat.eqb. by destruct (Req_dec_T x y). Qed.

Lemma Int_part_between (x : R) (z : Z) : (IZR z <= x < IZR z + 1)%R → Int_part x = z.
Proof. intros H. symmetry. apply Int_part_spec. lra. Qed.

(** 3 ** 0.5 lies strictly between 1.5 and 2. *)
Lemma pow_3_half : (3 / 2 < Rpower 3 (1 / 2) < 2)%R.
Proof.
  replace (1 / 2)%R with (/ 2)%R by lra.
  rewrite Rpower_sqrt by lra. split.
  - apply Rle_lt_trans with (sqrt (3 / 2 * (3 / 2))).
    + rewrite sqrt_square; lra.
    + apply sqrt_lt_1_alt. lra.
  - apply Rlt_le_trans with (sqrt (2 * 2)).
    + apply sqrt_lt_1_alt. lra.
    + rewrite sqrt_square; lra.
Qed.

Lemma trunc_pow_3_half : RFloat.trunc (Rpower 3 (1 / 2)) = 1.
Proof.
  pose proof pow_3_half as H. unfold RFloat.trunc.
  destruct (Rle_dec 0 (Rpower 3 (1 / 2))); [|lra].
  apply Int_part_between. simpl. lra.
Qed.

Lemma round_pow_3_half : RFloat.round_half_even (Rpower 3 (1 / 2)) = 2.
Proof.
  pose proof pow_3_half as H. unfold RFloat.round_half_even.
  rewrite (Int_part_between _ 1) by (simpl; lra).
  destruct (Rlt_dec _ _) as [Hlt|_]; [simpl in Hlt; lra|].
  destruct (Rlt_dec _ _) as [_|Hn]; [done|]. simpl in Hn. lra.
Qed.

(** * Concrete runs *)

Section runs.
Import Examples.

(** ** The registry *)

Lemma pluggable_forward_delegates_witness :
  NoDup languages.*1
  ∧ PluggableEmbeddings.init languages = Ok registry
  ∧ (∀ source step,
       PluggableEmbeddings.forward (Mod := Embeddings_src.module zeros3)
         registry source step
       = Raise (Exception "Must activate PluggableEmbeddings before forward"))
  ∧ ∀ reg, PluggableEmbeddings.modules reg = PluggableEmbeddings.modules registry →
      (∀ k, k ∉ languages.*1 →
         ∃ msg, PluggableEmbeddings.activate k reg = (Raise (AssertionError msg), reg))
      ∧ (∀ k e, (k, e) ∈ languages →
           ∃ reg', PluggableEmbeddings.activate k reg = (Ok tt, reg')
                   ∧ PluggableEmbeddings.modules reg' = PluggableEmbeddings.modules registry
                   ∧ ∀ source step,
                       PluggableEmbeddings.forward (Mod := Embeddings_src.module zeros3)
                         reg' source step
                       = Embeddings_src.forward zeros3 e source step).
Proof.
  assert (Hnd : NoDup languages.*1)
    by (apply (bool_decide_unpack _); vm_compute; exact I).
  assert (Hinit : PluggableEmbeddings.init languages = Ok registry) by reflexivity.
  split; [exact Hnd|]. split; [exact Hinit|].
  exact (pluggable_forward_delegates (Mod := Embeddings_src.module zeros3)
           languages registry Hnd Hinit).
Defined.

Lemma activate_failure_keeps_state_witness :
  PluggableEmbeddings.init languages = Ok registry
  ∧ ("xx"%string ∉ (languages.*1))
  ∧ (∃ msg, (PluggableEmbeddings.activate "xx" registry).1 = Raise (AssertionError msg))
  ∧ (PluggableEmbeddings.activate "xx" registry).2 = registry.
Proof.
  assert (Hinit : PluggableEmbeddings.init languages = Ok registry) by reflexivity.
  assert (Hk : "xx"%string ∉ (languages.*1))
    by (apply (bool_decide_unpack _); vm_compute; exact I).
  split; [exact Hinit|]. split; [exact Hk|].
  destruct (activate_failure_keeps_state (Mod := Embeddings_src.module zeros3)
              languages registry registry "xx" Hinit eq_refl Hk)
    as (H1 & H2 & _).
  split; [exact H1 | exact H2].
Defined.

(** ** The positional encoding *)

Lemma half_pe_init : PositionalEncoding.init (1 / 2)%R 2 1 = Ok half_pe.
Proof.
  unfold PositionalEncoding.init. simpl.
  rewrite (RFloat_ltb_false (1 / 2) 0), (RFloat_ltb_false 1 (1 / 2)) by lra.
  reflexivity.
Defined.

Lemma pe3_init : PositionalEncoding.init 0%R 2 3 = Ok pe3.
Proof.
  unfold PositionalEncoding.init. simpl.
  rewrite (RFloat_ltb_false 0 0), (RFloat_ltb_false 1 0) by lra.
  reflexivity.
Defined.

(** C2, as stated, fails: PositionalEncoding(0.5, 2, max_len=1) in
    training mode, applied to a sequence of one position, drops the
    elements whose draw is below 0.5 and so does not return the scaled
    input plus the table row. *)
Lemma positional_encoding_dropout_counterexample :
  PositionalEncoding.init (1 / 2)%R 2 1 = Ok half_pe
  ∧ has_shape3 1 1 2 ones_1_1_2
  ∧ 0 + 1 ≤ 1
  ∧ PositionalEncoding.forward half_pe zeros3 ones_1_1_2 None
    ≠ Ok (PositionalEncoding.scaled_plus_rows half_pe ones_1_1_2 0).
Proof.
  split; [exact half_pe_init|].
  split; [repeat constructor|]. split; [lia|].
  unfold half_pe.
  rewrite (pe_forward_in_range (1 / 2)%R 2 1 true zeros3 ones_1_1_2 None 1);
    [|reflexivity|lia|lia|repeat constructor|simpl; lia|simpl; lia].
  unfold nn_Dropout. simpl.
  rewrite (RFloat_eqb_false (1 / 2) 0) by lra.
  unfold zeros3. rewrite !(RFloat_ltb_true 0 (1 / 2)) by lra.
  intros H. injection H as _ H. simpl in H.
  rewrite Rmult_0_l, cos_0 in H.
  pose proof (sqrt_lt_R0 2 ltac:(lra)). lra.
Qed.

Lemma positional_encoding_forward_witness :
  PositionalEncoding.init 0%R 2 3 = Ok pe3
  ∧ has_shape3 2 1 2 seq_2_1_2
  ∧ PositionalEncoding.forward (PositionalEncoding.set_training false pe3)
      zeros3 seq_2_1_2 (Some 1)
    = Ok (PositionalEncoding.scaled_plus_rows
            (PositionalEncoding.set_training false pe3) seq_2_1_2 1).
Proof.
  assert (Hshape : has_shape3 2 1 2 seq_2_1_2) by (repeat constructor).
  destruct (positional_encoding_forward 0%R 2 3 pe3 false zeros3 seq_2_1_2 (Some 1)
              1%nat pe3_init) as [_ H].
  destruct (H Hshape ltac:(simpl; lia) ltac:(simpl; lia)) as [_ H2].
  split; [exact pe3_init|]. split; [exact Hshape|].
  apply H2. by left.
Defined.

(** ** The construction of [Embeddings] *)

Lemma args_sqrt_feat_dims : Embeddings.feat_dims args_sqrt = Ok [1].
Proof.
  unfold Embeddings.feat_dims, Embeddings.exponent_dim. simpl.
  by rewrite trunc_pow_3_half.
Qed.

Lemma args_sqrt_validate :
  Embeddings._validate_args "concat" [3] (1 / 2)%R (-1) (Some [0]) = Ok tt.
Proof.
  unfold Embeddings._validate_args. simpl.
  by rewrite (RFloat_leb_false (1 / 2) 0) by lra.
Qed.

(** C3, as stated, fails: with vocabulary size 3 and exponent 0.5 the
    feature table has width 1 = int(3 ** 0.5), and round(3 ** 0.5) is
    2. *)
Lemma exponent_rule_round_counterexample :
  ∃ e lut,
    Embeddings.init Elementwise_accepts zeros3 args_sqrt = Ok e
    ∧ Embeddings.emb_luts e !! 1%nat = Some lut
    ∧ Embedding.embedding_dim lut = 1
    ∧ (x ←! int_pow 3 (1 / 2)%R; py_round x) = Ok 2.
Proof.
  do 2 eexists. split; [|split; [|split]].
  - unfold Embeddings.init.
    change (Embeddings._validate_args _ _ _ _ _)
      with (Embeddings._validate_args "concat" [3] (1 / 2)%R (-1) (Some [0])).
    rewrite args_sqrt_validate, args_sqrt_feat_dims. reflexivity.
  - reflexivity.
  - reflexivity.
  - simpl. by rewrite round_pow_3_half.
Qed.

Lemma exponent_rule_witness :
  Embeddings.feat_merge args_sqrt ≠ "sum"%string
  ∧ Embeddings.feat_vec_size args_sqrt ≤ 0
  ∧ ∀ e, Embeddings.init Elementwise_accepts zeros3 args_sqrt = Ok e →
      Forall2 (λ V lut, ∃ x, int_pow V (1 / 2)%R = Ok x
                             ∧ py_int x = Ok (Embedding.embedding_dim lut))
              [3] (tail (Embeddings.emb_luts e)).
Proof.
  assert (H1 : Embeddings.feat_merge args_sqrt ≠ "sum"%string) by discriminate.
  assert (H2 : Embeddings.feat_vec_size args_sqrt ≤ 0) by (simpl; lia).
  split; [exact H1|]. split; [exact H2|].
  intros e He.
  exact (proj2 (proj2 (proj2 (exponent_rule Elementwise_accepts zeros3 args_sqrt H1 H2))
                  e He)).
Defined.


Lemma embedding_size_spec_witness :
  (∃ e, Embeddings.init Elementwise_accepts zeros3 args_concat = Ok e
        ∧ Embedding.num_embeddings <$> Embeddings.emb_luts e = [5; 3; 4]
        ∧ Embedding.embedding_dim <$> Embeddings.emb_luts e = [10; 3; 3]
        ∧ Embeddings.embedding_size e = 16)
  ∧ (∃ e, Embeddings.init Elementwise_accepts zeros3 args_sum = Ok e
          ∧ Embedding.num_embeddings <$> Embeddings.emb_luts e = [5; 3; 4]
          ∧ Embedding.embedding_dim <$> Embeddings.emb_luts e = [10; 10; 10]
          ∧ Embeddings.embedding_size e = 10).
Proof.
  split.
  - assert (∃ e, Embeddings.init Elementwise_accepts zeros3 args_concat = Ok e)
      as [e He] by (eexists; reflexivity).
    exists e. split; [exact He|].
    destruct (embedding_size_spec Elementwise_accepts zeros3 args_concat e He)
      as (dims & _ & _ & Hpos & _ & _ & Hv & Hd & _ & Hc & _).
    assert (dims = [3; 3]) as ->
      by (apply Hpos; [discriminate | reflexivity]).
    split; [exact Hv|]. split; [exact Hd|].
    exact (proj1 (Hc eq_refl)).
  - assert (∃ e, Embeddings.init Elementwise_accepts zeros3 args_sum = Ok e)
      as [e He] by (eexists; reflexivity).
    exists e. split; [exact He|].
    destruct (embedding_size_spec Elementwise_accepts zeros3 args_sum e He)
      as (dims & _ & Hsum & _ & _ & _ & Hv & Hd & _ & _ & Hs).
    assert (dims = [10; 10]) as -> by (apply Hsum; reflexivity).
    split; [exact Hv|]. split; [exact Hd|].
    exact (proj1 (Hs (or_introl eq_refl))).
Defined.

Lemma args_mlp_validate :
  Embeddings._validate_args "mlp" [] (7 / 10)%R (-1) (Some []) = Ok tt.
Proof.
  unfold Embeddings._validate_args. simpl.
  by rewrite (RFloat_leb_false (7 / 10) 0) by lra.
Qed.

(** C6, as stated, fails: Embeddings(20, 5, 1, feat_merge='mlp'), with
    no feature channel, is constructed. *)
Lemma mlp_without_features_counterexample :
  Embeddings.feat_merge args_mlp = "mlp"%string
  ∧ Embeddings.feat_vocab_sizes args_mlp = []
  ∧ ∃ e, Embeddings.init Elementwise_accepts zeros3 args_mlp = Ok e.
Proof.
  split; [done|]. split; [done|]. eexists.
  unfold Embeddings.init.
  change (Embeddings._validate_args _ _ _ _ _)
    with (Embeddings._validate_args "mlp" [] (7 / 10)%R (-1) (Some [])).
  rewrite args_mlp_validate. reflexivity.
Qed.

Lemma mlp_without_features_constructs_witness :
  ∃ e, Embeddings.init Elementwise_accepts zeros3 args_mlp = Ok e
       ∧ Embeddings.mlp e = None
       ∧ length (Embeddings.emb_luts e) = 1%nat
       ∧ Embeddings.embedding_size e = 20.
Proof.
  apply (mlp_without_features_constructs Elementwise_accepts zeros3 args_mlp);
    try reflexivity.
  - right. apply RFloat_leb_false. simpl. lra.
  - simpl. lia.
  - simpl. lia.
Defined.

Lemma load_pretrained_vectors_columns_witness :
  ∃ self' word_lut',
    Embeddings.load_pretrained_vectors loaded (Some pretrained_2) = Ok self'
    ∧ Embeddings.emb_luts self' = [word_lut']
    ∧ has_shape2 2 3 (Embedding.weight word_lut')
    ∧ ∃ row, Embedding.weight word_lut' !! 1%nat = Some row
             ∧ take 2 row = [9; 10]%R ∧ drop 2 row = drop 2 [1; 2; 3]%R.
Proof.
  destruct (load_pretrained_vectors_columns loaded word_table [] pretrained_2
              2 3 2 eq_refl eq_refl)
    as (self' & word_lut' & Hload & Hluts & _ & _ & _ & _ & _ & _ & _ & _ & _ & _ & _
        & Hshape & Hcols & _).
  - repeat constructor.
  - repeat constructor.
  - exists self', word_lut'. split; [exact Hload|]. split; [exact Hluts|].
    split; [exact Hshape|].
    apply (Hcols ltac:(lia) 1%nat [1; 2; 3]%R [9; 10]%R); reflexivity.
Defined.

Lemma embeddingless_narrow_fails_witness :
  Embeddings.enable_embeddingless args_narrow = true
  ∧ Embeddings.feat_dims args_narrow = Ok []
  ∧ ∃ err, Embeddings.init Elementwise_accepts zeros3 args_narrow = Raise err.
Proof.
  assert (Hd : Embeddings.feat_dims args_narrow = Ok []) by reflexivity.
  split; [reflexivity|]. split; [exact Hd|].
  apply (embeddingless_narrow_fails Elementwise_accepts zeros3 args_narrow [] 0 5 4
           eq_refl Hd eq_refl eq_refl).
  lia.
Defined.

(** ** Reading a file *)

(** C9, as stated, fails: on the line "a<TAB>1 2" the code finds the
    two fields "a<TAB>1" and "2" and passes the line over as a header,
    while a split on whitespace finds three fields and binds "a" to
    [1.0, 2.0]. *)
Lemma read_embeddings_whitespace_counterexample :
  ReadEmbeddings.read_embeddings RFloat.py_float tab_file 0 None = Ok (∅, 0)
  ∧ ReadEmbeddings.read_lines RFloat.py_float Text.split_whitespace tab_file 0 None
    = Ok ({[ Text.str "a" := [1 * 1; 1 * 2]%R ]}, 1)
  ∧ ReadEmbeddings.read_embeddings RFloat.py_float tab_file 0 None
    ≠ ReadEmbeddings.read_lines RFloat.py_float Text.split_whitespace tab_file 0 None.
Proof.
  assert (H1 : ReadEmbeddings.read_embeddings RFloat.py_float tab_file 0 None
               = Ok (∅, 0)) by (vm_compute; reflexivity).
  assert (H2 : ReadEmbeddings.read_lines RFloat.py_float Text.split_whitespace
                 tab_file 0 None
               = Ok ({[ Text.str "a" := [1 * 1; 1 * 2]%R ]}, 1))
    by (unfold ReadEmbeddings.read_lines; cbn; reflexivity).
  split; [exact H1|]. split; [exact H2|].
  rewrite H1, H2. discriminate.
Qed.

Lemma read_embeddings_by_line_witness :
  ReadEmbeddings.read_embeddings RFloat.py_float word2vec_file 0 None
  = ReadEmbeddings.read_lines RFloat.py_float (Text.split_on 32) word2vec_file 0 None
  ∧ ReadEmbeddings.read_embeddings RFloat.py_float word2vec_file 0 None
    = Ok ({[ Text.str "a" := [1 * 1; 1 * 2]%R ]}, 1).
Proof.
  split.
  - exact (proj1 (read_embeddings_by_line RFloat.py_float word2vec_file 0 None)).
  - unfold ReadEmbeddings.read_embeddings. cbn. reflexivity.
Defined.
End runs.

(** * Further properties *)

(** ** The vocabulary *)

Section vocab.
Variable DEFAULT_SPECIALS : list (list N).
Import Vocab.

Lemma consistent_fresh (v : Vocab.t) tk :
  consistent v → tk ∉ itos v → stoi v !! tk = None.
Proof.
  intros (_ & _ & Hinv) Hn. destruct (stoi v !! tk) as [i|] eqn:Hs; [|done].
  apply Hinv in Hs. exfalso. apply Hn. by eapply list_elem_of_lookup_2.
Qed.

Lemma add_token_consistent tokens (v : Vocab.t) :
  consistent v → consistent (add_token tokens v).
Proof.
  revert v. induction tokens as [|tk rest IH]; intros v Hv; simpl; [done|].
  case_bool_decide as Hin; [by apply IH|]. apply IH.
  pose proof (consistent_fresh v tk Hv Hin) as Hnone.
  destruct Hv as (Hnd & Hsize & Hinv). split; [|split]; simpl.
  - apply NoDup_app. split; [done|]. split; [|apply NoDup_singleton].
    intros x Hx Hx'. apply list_elem_of_singleton in Hx'. by subst.
  - rewrite map_size_insert_None by done. rewrite length_app. simpl. lia.
  - intros t i. destruct (decide (t = tk)) as [->|Hne].
    + rewrite lookup_insert_eq. split.
      * intros [= <-]. by rewrite list_lookup_middle.
      * intros Hi. f_equal.
        destruct (decide (i < length (itos v))%nat) as [Hlt|Hge].
        -- rewrite lookup_app_l in Hi by done. exfalso. apply Hin.
           by eapply list_elem_of_lookup_2.
        -- apply lookup_lt_Some in Hi. rewrite length_app in Hi. simpl in Hi. lia.
    + rewrite lookup_insert_ne by done. rewrite Hinv. split.
      * intros Hi. rewrite lookup_app_l; [done|]. by eapply lookup_lt_Some.
      * intros Hi. destruct (decide (i < length (itos v))%nat) as [Hlt|Hge].
        -- by rewrite lookup_app_l in Hi.
        -- rewrite lookup_app_r in Hi by lia.
           destruct (i - length (itos v))%nat; simpl in Hi; [congruence|done].
  Qed.

Lemma consistent_empty sp : consistent (mk [] ∅ sp).
Proof.
  split; [constructor|]. split; [done|]. intros tk i. simpl.
  by rewrite lookup_empty.
Qed.

Lemma add_token_app l1 l2 (v : Vocab.t) :
  add_token (l1 ++ l2) v = add_token l2 (add_token l1 v).
Proof.
  revert v. induction l1 as [|tk l1 IH]; intros v; simpl; [done|].
  by case_bool_decide.
Qed.

Lemma add_token_specials tokens (v : Vocab.t) :
  specials (add_token tokens v) = specials v.
Proof.
  revert v. induction tokens as [|tk rest IH]; intros v; simpl; [done|].
  case_bool_decide; by rewrite IH.
Qed.

(** Tokens that are new and pairwise different are appended in order. *)
Lemma add_token_fresh tokens (v : Vocab.t) :
  NoDup tokens → (∀ tk, tk ∈ tokens → tk ∉ itos v) →
  itos (add_token tokens v) = itos v ++ tokens.
Proof.
  revert v. induction tokens as [|tk rest IH]; intros v Hnd Hfresh; simpl.
  - by rewrite app_nil_r.
  - apply NoDup_cons in Hnd as [Htk Hnd].
    rewrite bool_decide_eq_false_2 by (apply Hfresh; left).
    rewrite IH; simpl; [by rewrite <- app_assoc|done|].
    intros t Ht. rewrite elem_of_app, list_elem_of_singleton.
    intros [Hin| ->]; [|done]. apply (Hfresh t); [by right|done].
Qed.

(** Nothing but the given tokens is added, and what was there stays at
    the front. *)
Lemma add_token_itos tokens (v : Vocab.t) :
  ∃ added, itos (add_token tokens v) = itos v ++ added
           ∧ ∀ tk, tk ∈ added → tk ∈ tokens.
Proof.
  revert v. induction tokens as [|tk rest IH]; intros v; simpl.
  - exists []. split; [by rewrite app_nil_r|]. intros tk Htk. by apply elem_of_nil in Htk.
  - case_bool_decide.
    + destruct (IH v) as (added & -> & Hadd). exists added. split; [done|].
      intros t Ht. right. by apply Hadd.
    + destruct (IH (mk (itos v ++ [tk]) (<[tk:=length (itos v)]> (stoi v)) (specials v)))
        as (added & -> & Hadd).
      exists (tk :: added). simpl. split; [by rewrite <- app_assoc|].
      intros t Ht. apply elem_of_cons in Ht as [->|Ht]; [left|right; by apply Hadd].
Qed.

(** The assertion of the constructor never fails. *)
Lemma vocab_init_Ok (pieces : list (list N)) (items : option (list (list N))) :
  ∃ v, init DEFAULT_SPECIALS pieces items = Ok v ∧ consistent v.
Proof.
  unfold init.
  set (toks := filter _ _ ++ _).
  pose proof (add_token_consistent toks (mk [] ∅ DEFAULT_SPECIALS)
                (consistent_empty _)) as Hc.
  destruct Hc as (Hnd & Hsize & Hinv).
  rewrite Hsize, Nat.eqb_refl. eexists. split; [done|]. by split.
Qed.

Lemma vocab_consistent_of_init (pieces : list (list N))
    (items : option (list (list N))) (v : Vocab.t) :
  init DEFAULT_SPECIALS pieces items = Ok v → consistent v.
Proof.
  intros Hinit. destruct (vocab_init_Ok pieces items) as (v' & Hv' & Hc).
  rewrite Hinit in Hv'. by injection Hv' as ->.
Qed.

(** X1. The construction of a vocabulary always succeeds (its assertion
    holds), and in the result no token occurs twice, [stoi] has as many
    entries as [itos], and [stoi] maps a token to [i] exactly when [itos]
    has the token at position [i]. *)
Theorem vocab_init_consistent (pieces : list (list N)) (items : option (list (list N))) :
  ∃ v, init DEFAULT_SPECIALS pieces items = Ok v
       ∧ NoDup (itos v)
       ∧ len v = length (itos v)
       ∧ ∀ tk i, stoi v !! tk = Some i ↔ itos v !! i = Some tk.
Proof.
  destruct (vocab_init_Ok pieces items) as (v & Hv & Hnd & Hsize & Hinv).
  exists v. split; [exact Hv|]. split; [exact Hnd|]. split; [exact Hsize|exact Hinv].
Qed.

(** X2. When the special tokens are pairwise different, they are the
    last entries of the vocabulary, in their order, after the other
    items: the special at position [j] has the index
    [len - number of specials + j], and no other item is a special. *)
Theorem vocab_specials_last (pieces : list (list N)) (items : option (list (list N)))
    (v : Vocab.t) :
  NoDup DEFAULT_SPECIALS →
  init DEFAULT_SPECIALS pieces items = Ok v →
  ∃ body,
    itos v = body ++ DEFAULT_SPECIALS
    ∧ (∀ tk, tk ∈ body →
         (tk ∉ DEFAULT_SPECIALS)
         ∧ tk ∈ match items with None => pieces | Some items => items end)
    ∧ ∀ j sp, DEFAULT_SPECIALS !! j = Some sp →
        stoi v !! sp = Some (len v - length DEFAULT_SPECIALS + j)%nat.
Proof.
  intros Hnd Hinit.
  destruct (vocab_consistent_of_init pieces items v Hinit) as (_ & Hlen & Hinv).
  fold (len v) in Hlen.
  unfold init in Hinit. destruct (_ =? _)%nat; [|discriminate].
  injection Hinit as Hv.
  set (its := match items with None => pieces | Some items => items end) in *.
  rewrite add_token_app in Hv.
  destruct (add_token_itos (filter (λ i, i ∉ DEFAULT_SPECIALS) its)
              (mk [] ∅ DEFAULT_SPECIALS)) as (body & Hbody & Hsub).
  simpl in Hbody.
  assert (Hb : ∀ tk, tk ∈ body → (tk ∉ DEFAULT_SPECIALS) ∧ tk ∈ its).
  { intros tk Htk. apply Hsub, list_elem_of_filter in Htk. destruct Htk. by split. }
  assert (Hitos : itos v = body ++ DEFAULT_SPECIALS).
  { rewrite <- Hv. rewrite add_token_fresh; [by rewrite Hbody|done|].
    intros tk Htk. rewrite Hbody. intros Hin. by apply Hb in Hin as [Hn _]. }
  exists body. split; [done|]. split; [done|].
  intros j sp Hj. apply Hinv. rewrite Hlen, Hitos, length_app.
  rewrite lookup_app_r by lia.
  replace (length body + length DEFAULT_SPECIALS - length DEFAULT_SPECIALS + j
           - length body)%nat with j by lia.
  done.
Qed.

(** X3. In a constructed vocabulary, reading the index of the token at
    position [i] gives [i] and changes nothing; reading the index of a
    token that is not in the vocabulary gives 0 and stores the token, so
    that afterwards [len] is one more than the number of entries of
    [itos]. *)
Theorem vocab_getitem (pieces : list (list N)) (items : option (list (list N)))
    (v : Vocab.t) (key : list N) :
  init DEFAULT_SPECIALS pieces items = Ok v →
  (∀ i, itos v !! i = Some key → getitem key v = (i, v))
  ∧ (key ∉ itos v →
     (getitem key v).1 = 0%nat
     ∧ itos (getitem key v).2 = itos v
     ∧ len (getitem key v).2 = S (length (itos v))
     ∧ getitem key (getitem key v).2 = (0%nat, (getitem key v).2)).
Proof.
  intros Hinit.
  destruct (vocab_consistent_of_init pieces items v Hinit) as (Hnd & Hlen & Hinv).
  split.
  - intros i Hi. apply Hinv in Hi. unfold getitem. by rewrite Hi.
  - intros Hn.
    assert (stoi v !! key = None) as Hnone.
    { destruct (stoi v !! key) as [i|] eqn:Hs; [|done].
      apply Hinv in Hs. exfalso. apply Hn. by eapply list_elem_of_lookup_2. }
    unfold getitem. rewrite Hnone. simpl. split; [done|]. split; [done|]. split.
    + unfold len in *. simpl. rewrite map_size_insert_None by done. by rewrite Hlen.
    + by rewrite lookup_insert_eq.
Qed.
End vocab.

(** ** More on reading an embeddings file *)

Lemma rmapM_Ok_elem {A B} (f : A → result B) (l : list A) (l' : list B) y :
  rmapM f l = Ok l' → y ∈ l' → ∃ x, x ∈ l ∧ f x = Ok y.
Proof.
  intros H Hy. apply list_elem_of_lookup in Hy as [i Hi].
  assert (∃ x, l !! i = Some x) as [x Hx].
  { apply lookup_lt_is_Some_2. rewrite <- (rmapM_Ok_length _ _ _ H).
    by apply lookup_lt_Some in Hi. }
  destruct (rmapM_Ok_lookup _ _ _ _ _ H Hx) as (y' & Hy' & Hf).
  exists x. split; [by eapply list_elem_of_lookup_2|]. congruence.
Qed.

Lemma size_list_to_map_le `{Countable K} {A} (l : list (K * A)) :
  (size (list_to_map l : gmap K A) ≤ length l)%nat.
Proof.
  induction l as [|[k a] l IH]; [by rewrite list_to_map_nil, map_size_empty|].
  rewrite list_to_map_cons, map_size_insert. simpl.
  destruct (list_to_map l !! k); simpl; lia.
Qed.

Lemma list_to_map_filter_key `{Countable K} {A} (P : K * A → Prop)
    `{!∀ x, Decision (P x)} (l : list (K * A)) :
  (∀ k a b, P (k, a) → P (k, b)) →
  (list_to_map (filter P l) : gmap K A) = filter P (list_to_map l).
Proof.
  intros HP. induction l as [|[k a] l IH]; simpl; [by rewrite map_filter_empty|].
  rewrite filter_cons. destruct (decide (P (k, a))) as [Hk|Hk]; simpl.
  - by rewrite map_filter_insert_True, IH.
  - rewrite map_filter_insert_not, IH; [done|].
    intros b Hb. apply Hk. by apply (HP k b a).
Qed.

Section reading_more.
Context {F : Type}.
Variable py_float : list N → result F.
Import ReadEmbeddings.

(** The loop is the reading line by line at the single space. *)
Lemma read_embeddings_read_lines (file : string) skip_lines filter_set :
  read_embeddings py_float file skip_lines filter_set
  = read_lines py_float (Text.split_on 32) file skip_lines filter_set.
Proof.
  unfold read_embeddings, read_lines.
  rewrite loop_accumulate by apply file_lines_go_nonempty.
  rewrite Z.sub_0_r.
  destruct (rmapM _ _); simpl; [|done]. by rewrite foldl_accumulate_collect.
Qed.

(** A line gives a vector exactly when it decodes, has other than two
    fields, passes the filter, and all its fields after the first are
    numbers. *)
Lemma line_entry_Vector (split : list N → list (list N)) filter_set line tok
    (vec : list F) :
  line_entry py_float split filter_set line = Ok (Vector tok vec) →
  ∃ text ems, Text.decode line = Ok text
              ∧ split (Text.strip text) = tok :: ems
              ∧ length ems ≠ 1%nat ∧ passes filter_set tok = true
              ∧ rmapM py_float ems = Ok vec.
Proof.
  unfold line_entry. intros Hl.
  apply rbind_Ok_inv in Hl as (text & Htext & Hl). exists text.
  destruct (split (Text.strip text)) as [|t [|f2 [|f3 ems]]];
    try discriminate;
    destruct (passes filter_set t) eqn:Hp; try discriminate;
    apply rbind_Ok_inv in Hl as (v & Hv & Hl); inversion Hl; subst;
    eexists; repeat split; eauto.
Qed.

(** Every binding of the result is the vector of a line. *)
Lemma read_lines_binding (split : list N → list (list N)) (file : string) skip_lines
    filter_set embs total tok vec :
  read_lines py_float split file skip_lines filter_set = Ok (embs, total) →
  embs !! tok = Some vec →
  ∃ line, line ∈ drop (Z.to_nat skip_lines) (Text.file_lines file)
          ∧ line_entry py_float split filter_set line = Ok (Vector tok vec).
Proof.
  unfold read_lines. intros H Hlook.
  apply rbind_Ok_inv in H as (es & Hes & H).
  unfold collect in H. inversion H as [[Hembs Htotal]]. subst embs.
  apply elem_of_list_to_map_2, elem_of_reverse, list_elem_of_omap in Hlook
    as (e & He & Hb).
  destruct e as [| |tok' vec']; try discriminate. inversion Hb; subst.
  by apply (rmapM_Ok_elem _ _ _ _ Hes).
Qed.

Lemma read_embeddings_dom (file : string) (skip_lines : Z)
    (fs : gset (list N)) embs total :
  read_embeddings py_float file skip_lines (Some fs) = Ok (embs, total) →
  dom embs ⊆ fs.
Proof.
  rewrite read_embeddings_read_lines. intros H tok Htok.
  apply elem_of_dom in Htok as [vec Hvec].
  destruct (read_lines_binding _ _ _ _ _ _ _ _ H Hvec) as (line & _ & Hline).
  apply line_entry_Vector in Hline as (text & ems & _ & _ & _ & Hp & _).
  simpl in Hp. by apply bool_decide_eq_true in Hp.
Qed.

(** X4. With a filter set, every token of the result is in the set. *)
Theorem read_embeddings_keys_filtered (file : string) (skip_lines : Z)
    (fs : gset (list N)) embs total :
  read_embeddings py_float file skip_lines (Some fs) = Ok (embs, total) →
  dom embs ⊆ fs.
Proof. apply read_embeddings_dom. Qed.

(** X5. The dictionary has at most as many tokens as vectors were
    counted, and the count is at most the number of lines that were not
    skipped. *)
Theorem read_embeddings_counts (file : string) (skip_lines : Z)
    (filter_set : option (gset (list N))) embs total :
  read_embeddings py_float file skip_lines filter_set = Ok (embs, total) →
  Z.of_nat (size embs) ≤ total
  ∧ total ≤ Z.of_nat (length (drop (Z.to_nat skip_lines) (Text.file_lines file))).
Proof.
  rewrite read_embeddings_read_lines. unfold read_lines. intros H.
  apply rbind_Ok_inv in H as (es & Hes & H).
  unfold collect in H. inversion H as [[Hembs Htotal]]. clear H.
  rewrite <- (rmapM_Ok_length _ _ _ Hes). split.
  - apply inj_le. etrans; [apply size_list_to_map_le|].
    rewrite length_reverse. clear. induction es as [|e es IH]; [done|].
    destruct e.
    + by rewrite filter_cons_False.
    + rewrite filter_cons_True by done. apply le_S, IH.
    + rewrite filter_cons_True by done. apply le_n_S, IH.
  - apply inj_le, length_filter.
Qed.

(** X6. When [skip_lines] covers every line of the file, an empty file
    included, the result is the empty dictionary and the count 0,
    whatever the lines hold. *)
Theorem read_embeddings_all_skipped (file : string) (skip_lines : Z)
    (filter_set : option (gset (list N))) :
  Z.of_nat (length (Text.file_lines file)) ≤ skip_lines →
  read_embeddings py_float file skip_lines filter_set = Ok (∅, 0).
Proof.
  intros Hle. rewrite read_embeddings_read_lines. unfold read_lines.
  rewrite drop_ge by lia. done.
Qed.

(** What the filter makes of an entry of the unfiltered reading. *)
Lemma line_entry_filter (split : list N → list (list N)) (fs : gset (list N)) line
    (e : entry) :
  line_entry py_float split None line = Ok e →
  line_entry py_float split (Some fs) line
  = Ok match e with
       | Vector tok vec => if bool_decide (tok ∈ fs) then Vector tok vec else Filtered
       | _ => e
       end.
Proof.
  unfold line_entry. destruct (Text.decode line) as [text|]; simpl; [|done].
  destruct (split (Text.strip text)) as [|t [|f2 [|f3 ems]]]; simpl; try done.
  - intros [= <-]. by destruct (bool_decide (t ∈ fs)).
  - by intros [= <-].
  - destruct (py_float f2); simpl; [|done].
    destruct (py_float f3); simpl; [|done].
    destruct (rmapM py_float ems); simpl; [|done].
    intros [= <-]. by destruct (bool_decide (t ∈ fs)).
Qed.

(** X7. When the reading without a filter succeeds, the reading with a
    filter set succeeds too: its dictionary is the unfiltered one
    restricted to the tokens of the set, and its count is the same. *)
Theorem read_embeddings_filter_restricts (file : string) (skip_lines : Z)
    (fs : gset (list N)) embs total :
  read_embeddings py_float file skip_lines None = Ok (embs, total) →
  read_embeddings py_float file skip_lines (Some fs)
  = Ok (filter (λ kv, kv.1 ∈ fs) embs, total).
Proof.
  rewrite !read_embeddings_read_lines. unfold read_lines. intros H.
  apply rbind_Ok_inv in H as (es & Hes & H).
  assert (Hc : collect es = (embs, total)) by congruence. clear H.
  set (restrict := λ e : @entry F,
         match e with
         | Vector tok vec => if bool_decide (tok ∈ fs) then Vector tok vec else Filtered
         | _ => e
         end).
  assert (Hes' : rmapM (line_entry py_float (Text.split_on 32) (Some fs))
                   (drop (Z.to_nat skip_lines) (Text.file_lines file))
                 = Ok (restrict <$> es)).
  { clear Hc. revert es Hes.
    induction (drop _ _) as [|line lines IH]; intros es Hes; simpl in *.
    - by inversion Hes.
    - apply rbind_Ok_inv in Hes as (e & He & Hes).
      apply rbind_Ok_inv in Hes as (es' & Hes' & Hes).
      inversion Hes; subst.
      rewrite (line_entry_filter _ fs _ _ He). simpl.
      by rewrite (IH _ Hes'). }
  unfold collect in Hc. inversion Hc as [[Hembs Htotal]]. clear Hc.
  rewrite Hes'. simpl. f_equal. unfold collect.
  f_equal.
  - rewrite <- list_to_map_filter_key by done. rewrite filter_reverse. do 2 f_equal.
    clear. induction es as [|e es IH]; [done|].
    rewrite fmap_cons. destruct e as [| |tok vec]; try done.
    simpl restrict. case_bool_decide.
    + change (omap binding (Vector tok vec :: ?l)) with ((tok, vec) :: omap binding l).
      rewrite filter_cons_True by done. by rewrite IH.
    + change (omap binding (Vector tok vec :: ?l)) with ((tok, vec) :: omap binding l).
      change (omap binding (Filtered :: ?l)) with (omap binding l).
      rewrite filter_cons_False by done. by rewrite IH.
  - f_equal. clear. induction es as [|e es IH]; [done|].
    rewrite fmap_cons. destruct e as [| |tok vec].
    + rewrite !filter_cons_False by done. exact IH.
    + rewrite !filter_cons_True by done. simpl. by rewrite IH.
    + simpl restrict. case_bool_decide; rewrite !filter_cons_True by done;
        simpl; by rewrite IH.
Qed.

(** X8. A line of two fields at the position where the skipping ends
    changes nothing: skipping it as well gives the same result.  So a
    word2vec header is passed over with [skip_lines] 0 as with 1. *)
Theorem read_embeddings_header_skip (file : string) (k : nat)
    (filter_set : option (gset (list N))) line text :
  Text.file_lines file !! k = Some line →
  Text.decode line = Ok text →
  length (Text.split_on 32 (Text.strip text)) = 2%nat →
  read_embeddings py_float file (Z.of_nat k) filter_set
  = read_embeddings py_float file (Z.of_nat k + 1) filter_set.
Proof.
  intros Hline Htext Hlen. rewrite !read_embeddings_read_lines. unfold read_lines.
  replace (Z.to_nat (Z.of_nat k + 1)) with (S k) by lia. rewrite Nat2Z.id.
  rewrite (drop_S _ _ _ Hline). simpl.
  assert (line_entry py_float (Text.split_on 32) filter_set line = Ok Header) as ->.
  { unfold line_entry. rewrite Htext. simpl.
    by destruct (Text.split_on 32 (Text.strip text)) as [|a [|b [|c l]]]. }
  simpl. destruct (rmapM _ _); simpl; [|done].
  unfold collect. simpl. by rewrite filter_cons_False.
Qed.

(** X9. No vector of the result has exactly one component (a line of a
    token and one number has two fields and is passed over), and every
    vector has one component for each field that follows the token on
    its line. *)
Theorem read_embeddings_vector_length (file : string) (skip_lines : Z)
    (filter_set : option (gset (list N))) embs total tok vec :
  read_embeddings py_float file skip_lines filter_set = Ok (embs, total) →
  embs !! tok = Some vec →
  length vec ≠ 1%nat
  ∧ ∃ line text,
      line ∈ drop (Z.to_nat skip_lines) (Text.file_lines file)
      ∧ Text.decode line = Ok text
      ∧ length (Text.split_on 32 (Text.strip text)) = S (length vec).
Proof.
  rewrite read_embeddings_read_lines. intros H Hvec.
  destruct (read_lines_binding _ _ _ _ _ _ _ _ H Hvec) as (line & Hin & Hline).
  apply line_entry_Vector in Hline as (text & ems & Htext & Hsplit & Hlen & _ & Hv).
  apply rmapM_Ok_length in Hv. split; [congruence|].
  exists line, text. rewrite Hsplit. simpl. by rewrite Hv.
Qed.
End reading_more.

(** ** Statistics and tensor of the loaded vectors *)

Section pretrained_more.
Context {F : Type} `{!FloatOps F}.
Import Pretrained.

(** X10. For an empty vocabulary the statistics raise
    [ZeroDivisionError].  Otherwise the matching and the missing counts
    are not negative and add up to the size of the vocabulary, the
    matching count is at most the number of loaded vectors, and equals it
    when every loaded token is in the vocabulary. *)
Theorem calc_vocab_load_stats_counts (vocab : Vocab.t)
    (loaded : gmap (list N) (list F)) :
  (Vocab.len vocab = 0%nat → calc_vocab_load_stats vocab loaded = Raise ZeroDivisionError)
  ∧ (Vocab.len vocab ≠ 0%nat →
     ∃ matching missing percent,
       calc_vocab_load_stats vocab loaded = Ok (matching, missing, percent)
       ∧ 0 ≤ matching ∧ 0 ≤ missing
       ∧ matching + missing = Z.of_nat (Vocab.len vocab)
       ∧ matching ≤ Z.of_nat (size loaded)
       ∧ (dom loaded ⊆ dom (Vocab.stoi vocab) → matching = Z.of_nat (size loaded))).
Proof.
  unfold calc_vocab_load_stats. split.
  - intros ->. done.
  - intros Hne. destruct (Z.eqb_spec (Z.of_nat (Vocab.len vocab)) 0); [lia|].
    do 3 eexists. split; [done|].
    assert (size (dom (Vocab.stoi vocab) ∩ dom loaded) ≤ Vocab.len vocab)%nat as H1.
    { unfold Vocab.len. rewrite <- size_dom. apply subseteq_size. set_solver. }
    assert (size (dom (Vocab.stoi vocab) ∩ dom loaded) ≤ size loaded)%nat as H2.
    { rewrite <- (size_dom loaded). apply subseteq_size. set_solver. }
    repeat split; try lia.
    intros Hsub. f_equal. rewrite <- (size_dom loaded). f_equal.
    apply set_eq. set_solver.
Qed.

Lemma row_of_same (dim : nat) (values : list F) :
  length values = dim → row_of dim values = Ok values.
Proof. intros H. unfold row_of. by rewrite decide_True. Qed.

Lemma row_of_length (dim : nat) (values row : list F) :
  row_of dim values = Ok row → length row = dim.
Proof.
  unfold row_of. case_decide; [by intros [= <-]|].
  destruct values as [|v [|v' vs]]; try discriminate.
  intros [= <-]. by rewrite length_replicate.
Qed.

(** The loop keeps the number of rows, and leaves [itos] alone; in
    [stoi] it keeps every index and gives the index 0 to the words of
    the dictionary that had none. *)
Lemma fill_vocab (dim : nat) items (vocab : Vocab.t) (tensor : list (list F)) tensor' vocab' :
  fill dim items vocab tensor = Ok (tensor', vocab') →
  length tensor' = length tensor
  ∧ Vocab.itos vocab' = Vocab.itos vocab
  ∧ ∀ w, Vocab.stoi vocab' !! w
         = match Vocab.stoi vocab !! w with
           | Some i => Some i
           | None => if decide (w ∈ items.*1) then Some 0%nat else None
           end.
Proof.
  revert vocab tensor. induction items as [|[word values] rest IH]; intros vocab tensor H.
  - simpl in H. inversion H; subst. split; [done|]. split; [done|].
    intros w. destruct (Vocab.stoi vocab' !! w); [done|].
    rewrite decide_False; [done|]. apply not_elem_of_nil.
  - simpl in H. destruct (Vocab.getitem word vocab) as [idx vocab1] eqn:Hget.
    destruct (Nat.leb_spec (length tensor) idx); [discriminate|].
    apply rbind_Ok_inv in H as (row & Hrow & H).
    apply IH in H as (Hlen & Hitos & Hstoi).
    rewrite length_insert in Hlen. split; [done|].
    unfold Vocab.getitem in Hget.
    destruct (Vocab.stoi vocab !! word) as [i|] eqn:Hw.
    + injection Hget as <- <-. split; [done|]. intros w. rewrite Hstoi.
      destruct (Vocab.stoi vocab !! w) eqn:Hw'; [done|].
      rewrite fmap_cons. simpl.
      destruct (decide (w ∈ rest.*1)) as [Hin|Hin].
      * rewrite decide_True; [done|]. by right.
      * rewrite decide_False; [done|]. intros Hc.
        apply elem_of_cons in Hc as [->|Hc]; [congruence|done].
    + injection Hget as <- <-. simpl in *. split; [done|]. intros w. rewrite Hstoi.
      rewrite ?fmap_cons. simpl. destruct (decide (w = word)) as [->|Hne].
      * rewrite lookup_insert_eq, Hw. rewrite decide_True; [done|]. by left.
      * rewrite lookup_insert_ne by done.
        destruct (Vocab.stoi vocab !! w) eqn:Hw'; [done|].
        destruct (decide (w ∈ rest.*1)) as [Hin|Hin].
        -- rewrite decide_True; [done|]. by right.
        -- rewrite decide_False; [done|]. intros Hc.
           apply elem_of_cons in Hc as [->|Hc]; done.
Qed.

Lemma fill_app (dim : nat) l1 l2 (vocab : Vocab.t) (tensor : list (list F)) :
  fill dim (l1 ++ l2) vocab tensor
  = (r ←! fill dim l1 vocab tensor; fill dim l2 r.2 r.1).
Proof.
  revert vocab tensor. induction l1 as [|[word values] l1 IH]; intros vocab tensor;
    simpl; [done|].
  destruct (Vocab.getitem word vocab) as [idx vocab1].
  destruct (length tensor <=? idx)%nat; [done|].
  destruct (row_of dim values); simpl; [|done]. apply IH.
Qed.

(** Words that have an index inside the tensor, pairwise different
    ones, and vectors of the width of the tensor: every vector is in the
    row of its word and the other rows are as before. *)
Lemma fill_known (dim : nat) items (vocab : Vocab.t) (tensor : list (list F)) :
  (∀ w vals, (w, vals) ∈ items →
     length vals = dim
     ∧ ∃ i, Vocab.stoi vocab !! w = Some i ∧ (i < length tensor)%nat) →
  NoDup items.*1 →
  (∀ w1 w2 i, Vocab.stoi vocab !! w1 = Some i → Vocab.stoi vocab !! w2 = Some i → w1 = w2) →
  ∃ tensor',
    fill dim items vocab tensor = Ok (tensor', vocab)
    ∧ length tensor' = length tensor
    ∧ (∀ w vals i, (w, vals) ∈ items → Vocab.stoi vocab !! w = Some i →
         tensor' !! i = Some vals)
    ∧ (∀ i, (∀ w, w ∈ items.*1 → Vocab.stoi vocab !! w ≠ Some i) →
         tensor' !! i = tensor !! i).
Proof.
  intros Hitems Hnd Hinj. revert tensor Hitems.
  induction items as [|[word values] rest IH]; intros tensor Hitems.
  - exists tensor. split; [done|]. split; [done|]. split; [|done].
    intros w vals i Hin. by apply elem_of_nil in Hin.
  - destruct (Hitems word values ltac:(left)) as (Hlen & i & Hi & Hlt).
    rewrite fmap_cons in Hnd. apply NoDup_cons in Hnd as [Hword Hnd].
    destruct (IH Hnd (<[i := values]> tensor)) as (tensor' & Hfill & Hlen' & Hin' & Hout').
    { intros w vals Hwv. destruct (Hitems w vals ltac:(by right)) as (? & j & ? & ?).
      split; [done|]. exists j. rewrite length_insert. done. }
    exists tensor'. simpl. unfold Vocab.getitem. rewrite Hi.
    destruct (Nat.leb_spec (length tensor) i); [lia|].
    rewrite row_of_same by done. simpl. split; [done|].
    rewrite length_insert in Hlen'. split; [done|]. split.
    + intros w vals j Hwv Hj. apply elem_of_cons in Hwv as [Heq|Hwv].
      * inversion Heq; subst. assert (j = i) as -> by congruence.
        rewrite Hout'; [by apply list_lookup_insert_eq|].
        intros w Hw Hwi. apply Hword. by rewrite (Hinj word w i).
      * by apply (Hin' w vals j).
    + intros j Hj. rewrite Hout'.
      * apply list_lookup_insert_ne. intros ->. apply (Hj word); [left|done].
      * intros w Hw. apply Hj. by right.
Qed.

(** X11. For a consistent vocabulary and a dictionary that is not
    empty, whose words are all in the vocabulary and whose vectors all
    have the length [dim]: the call returns a tensor with one row of
    width [dim] for each vocabulary entry, the vector of each word in the
    row of the word's index and zeros in every other row; the vocabulary
    is unchanged. *)
Theorem convert_to_torch_tensor_rows (d : list (list N * list F)) (vocab : Vocab.t)
    (dim : nat) :
  d ≠ [] →
  NoDup d.*1 →
  Vocab.consistent vocab →
  (∀ w vals, (w, vals) ∈ d → length vals = dim ∧ w ∈ Vocab.itos vocab) →
  ∃ tensor,
    convert_to_torch_tensor d vocab = Normal (Ok (tensor, vocab))
    ∧ has_shape2 (Vocab.len vocab) dim tensor
    ∧ (∀ w vals i, (w, vals) ∈ d → Vocab.stoi vocab !! w = Some i →
         tensor !! i = Some vals)
    ∧ (∀ i, (i < Vocab.len vocab)%nat →
         (∀ w, w ∈ d.*1 → Vocab.stoi vocab !! w ≠ Some i) →
         tensor !! i = Some (replicate dim f0)).
Proof.
  intros Hne Hnd (Hnd' & Hsize & Hinv) Hd.
  destruct d as [|[w0 first] rest]; [done|]. clear Hne.
  assert (length first = dim) as Hdim by (apply (Hd w0 first); left).
  unfold convert_to_torch_tensor. rewrite Hdim.
  destruct (fill_known dim ((w0, first) :: rest) vocab
              (replicate (Vocab.len vocab) (replicate dim f0)))
    as (tensor & Hfill & Hlen & Hin & Hout).
  - intros w vals Hwv. destruct (Hd w vals Hwv) as [Hl Hw]. split; [done|].
    apply list_elem_of_lookup in Hw as [i Hi]. exists i. split; [by apply Hinv|].
    rewrite length_replicate. unfold Vocab.len. rewrite Hsize.
    by eapply lookup_lt_Some.
  - done.
  - intros w1 w2 i H1 H2. apply Hinv in H1, H2. congruence.
  - exists tensor. split; [by rewrite Hfill|].
    rewrite length_replicate in Hlen. split; [|split; [done|]].
    + split; [done|]. apply Forall_lookup_2. intros i row Hrow.
      assert (∃ tk, Vocab.itos vocab !! i = Some tk) as [tk Htk].
      { apply lookup_lt_is_Some_2. apply lookup_lt_Some in Hrow.
        unfold Vocab.len in Hlen. lia. }
      destruct (decide (tk ∈ ((w0, first) :: rest).*1)) as [Hw|Hno].
      * apply list_elem_of_fmap in Hw as ([w' vals] & -> & Hwv). simpl in *.
        apply Hinv in Htk. rewrite (Hin w' vals i Hwv Htk) in Hrow.
        inversion Hrow; subst. by apply (Hd w' row).
      * rewrite Hout in Hrow.
        -- apply lookup_replicate in Hrow as [-> _]. by rewrite length_replicate.
        -- intros w Hw Hwi. apply Hinv in Hwi. congruence.
    + intros i Hi Hno. rewrite Hout by done. by apply lookup_replicate_2.
Qed.

(** X12. A word without an index is no error: when the last item of
    the dictionary has such a word and the call succeeds, the vocabulary
    afterwards gives the word the index 0 and has more entries in
    [stoi] than before, its list [itos] being as before, and row 0 of
    the tensor, the row of the first vocabulary entry, holds the vector
    of that word (a single value being repeated over the row). *)
Theorem convert_to_torch_tensor_unknown_word (d1 : list (list N * list F))
    (w : list N) (vals : list F) (vocab vocab' : Vocab.t) (tensor : list (list F)) :
  Vocab.stoi vocab !! w = None →
  convert_to_torch_tensor (d1 ++ [(w, vals)]) vocab = Normal (Ok (tensor, vocab')) →
  Vocab.stoi vocab' !! w = Some 0%nat
  ∧ Vocab.itos vocab' = Vocab.itos vocab
  ∧ (Vocab.len vocab < Vocab.len vocab')%nat
  ∧ ∃ row, tensor !! 0%nat = Some row ∧ row_of (length row) vals = Ok row.
Proof.
  intros Hw H. unfold convert_to_torch_tensor in H.
  destruct (d1 ++ [(w, vals)]) as [|[w0 first] rest] eqn:Hd; [discriminate|].
  rewrite <- Hd in H. clear Hd. injection H as H.
  set (dim := length first) in *.
  pose proof (fill_vocab _ _ _ _ _ _ H) as (Hlen & Hitos & Hstoi).
  rewrite fill_app in H. apply rbind_Ok_inv in H as ([t1 v1] & H1 & H2).
  simpl in H2. destruct (Vocab.getitem w v1) as [idx v2] eqn:Hget.
  destruct (Nat.leb_spec (length t1) idx); [discriminate|].
  apply rbind_Ok_inv in H2 as (row & Hrow & H2). inversion H2; subst. clear H2.
  pose proof (fill_vocab _ _ _ _ _ _ H1) as (_ & _ & Hstoi1).
  assert (idx = 0%nat) as ->.
  { unfold Vocab.getitem in Hget. specialize (Hstoi1 w). rewrite Hw in Hstoi1.
    rewrite Hstoi1 in Hget. destruct (decide _); by inversion Hget. }
  split; [|split; [done|split]].
  - rewrite Hstoi, Hw. rewrite decide_True; [done|].
    rewrite fmap_app. apply elem_of_app. right. by left.
  - unfold Vocab.len.
    rewrite <- (size_dom (Vocab.stoi vocab)), <- (size_dom (Vocab.stoi vocab')).
    apply subset_size. split.
    + intros k Hk. apply elem_of_dom in Hk as [i Hi]. apply elem_of_dom.
      rewrite Hstoi, Hi. eauto.
    + intros Hsub. assert (w ∈ dom (Vocab.stoi vocab)) as Hin.
      { apply Hsub, elem_of_dom. rewrite Hstoi, Hw.
        rewrite decide_True; [eauto|].
        rewrite fmap_app. apply elem_of_app. right. by left. }
      apply elem_of_dom in Hin as [i Hi]. congruence.
  - exists row. split; [by apply list_lookup_insert_eq|].
    by rewrite (row_of_length _ _ _ Hrow).
Qed.

(** X13. When a file is read with the tokens of the vocabulary as the
    filter set, every loaded vector matches: the matching count of the
    statistics is the size of the loaded dictionary, and the missing
    count is the rest of the vocabulary. *)
Theorem stats_of_filtered_read (py_float : list N → result F) (vocab : Vocab.t)
    (file : string) (skip_lines : Z) embs total :
  ReadEmbeddings.read_embeddings py_float file skip_lines
    (Some (dom (Vocab.stoi vocab))) = Ok (embs, total) →
  Vocab.len vocab ≠ 0%nat →
  ∃ percent,
    calc_vocab_load_stats vocab embs
    = Ok (Z.of_nat (size embs), Z.of_nat (Vocab.len vocab) - Z.of_nat (size embs), percent).
Proof.
  intros Hread Hne. apply read_embeddings_dom in Hread.
  unfold calc_vocab_load_stats.
  destruct (Z.eqb_spec (Z.of_nat (Vocab.len vocab)) 0); [lia|].
  assert (dom (Vocab.stoi vocab) ∩ dom embs = dom embs) as -> by set_solver.
  rewrite size_dom. eauto.
Qed.
End pretrained_more.

(** ** More on the positional encoding *)

Lemma lookup_flat_map_pair {A B} (f g : A → B) (l : list A) (i : nat) (x : A) :
  l !! i = Some x →
  flat_map (λ a, [f a; g a]) l !! (2 * i)%nat = Some (f x)
  ∧ flat_map (λ a, [f a; g a]) l !! (2 * i + 1)%nat = Some (g x).
Proof.
  revert i. induction l as [|a l IH]; intros i Hi; [done|].
  destruct i as [|i]; simpl in *.
  - by inversion Hi.
  - destruct (IH i Hi) as [H1 H2].
    replace (i + S (i + 0))%nat with (S (2 * i)) by lia.
    replace (i + S (i + 0) + 1)%nat with (S (2 * i + 1)) by lia.
    done.
Qed.

Section positional_more.
Context {F : Type} `{!FloatOps F}.
Import PositionalEncoding.

Lemma has_shape3_imap3 (f : nat → nat → nat → F → F) a b c
    (x : list (list (list F))) :
  has_shape3 a b c x →
  has_shape3 a b c (imap (λ i, imap (λ j, imap (λ k v, f i j k v))) x).
Proof.
  intros [Hlen Hx]. split; [by rewrite length_imap|].
  apply Forall_lookup_2. intros i m Hm.
  apply list_lookup_imap_Some in Hm as (m0 & Hm0 & ->).
  pose proof (Forall_lookup_1 _ _ _ _ Hx Hm0) as [Hb Hrows].
  split; [by rewrite length_imap|].
  apply Forall_lookup_2. intros j r Hr.
  apply list_lookup_imap_Some in Hr as (r0 & Hr0 & ->).
  rewrite length_imap. by apply (Forall_lookup_1 _ _ _ _ Hrows Hr0).
Qed.

Lemma has_shape3_nn_Dropout (p : F) mode u a b c (x : list (list (list F))) :
  has_shape3 a b c x → has_shape3 a b c (nn_Dropout p mode u x).
Proof.
  intros Hx. unfold nn_Dropout. destruct (_ || _); [done|].
  by apply (has_shape3_imap3
              (λ i j k v, if fltb (u i j k) p then fmul v f0
                          else fmul v (fdiv f1 (fsub f1 p)))).
Qed.

(** The scaled input plus rows of the table has the shape of the
    input, when there are enough rows from the offset on. *)
Lemma has_shape3_scaled_plus_rows (p : F) (D L : Z) mode (emb : list (list (list F)))
    (b o : nat) :
  D mod 2 = 0 → 0 ≤ D →
  has_shape3 (length emb) b (Z.to_nat D) emb →
  (o + length emb ≤ Z.to_nat L)%nat →
  has_shape3 (length emb) b (Z.to_nat D)
    (scaled_plus_rows (mk (pe_table L D) p D mode) emb o).
Proof.
  intros Hm HD Hshape Hle. unfold scaled_plus_rows. simpl.
  pose proof (has_shape3_tscale3 _ _ _ _ (fsqrt (of_int D)) Hshape) as [Hlen Hrows].
  split.
  - rewrite length_zip_with, Hlen, length_take, length_drop, length_pe_table. lia.
  - apply Forall_lookup_2. intros i m Hi.
    apply lookup_zip_with_Some in Hi as (x & r & -> & Hx & Hr).
    pose proof (Forall_lookup_1 _ _ _ _ Hrows Hx) as [Hb Hvs].
    assert (∃ row, r = [row] ∧ length row = Z.to_nat D) as (row & -> & Hrow).
    { apply (Forall_lookup_1 _ _ _ _
               (Forall_take _ _ _ (Forall_drop _ _ _ (pe_table_rows L D HD Hm))) Hr). }
    split; [by rewrite length_map|].
    apply Forall_map. eapply Forall_impl; [exact Hvs|].
    intros v Hv. simpl in *. rewrite app_nil_r, length_zip_with. lia.
Qed.

(** X14. A constructed positional encoding has an even, positive width;
    it starts in training mode with the given dropout; its table has
    one row of that width for each position below the maximum length,
    and row [pos] holds sin(pos * div_term i) in column [2 i] and
    cos(pos * div_term i) in column [2 i + 1]. *)
Theorem pe_init_table (p : F) (D L : Z) (self : t F) :
  init p D L = Ok self →
  D mod 2 = 0 ∧ 0 < D
  ∧ dropout self = p ∧ dim self = D ∧ training self = true
  ∧ has_shape3 (Z.to_nat L) 1 (Z.to_nat D) (pe self)
  ∧ ∀ pos i : nat, (pos < Z.to_nat L)%nat → (2 * i + 1 < Z.to_nat D)%nat →
      ∃ row, pe self !! pos = Some [row]
             ∧ row !! (2 * i)%nat
               = Some (fsin (fmul (of_int (Z.of_nat pos)) (div_term D i)))
             ∧ row !! (2 * i + 1)%nat
               = Some (fcos (fmul (of_int (Z.of_nat pos)) (div_term D i))).
Proof.
  intros Hinit. apply pe_init_Ok_inv in Hinit as (Hm & HD & HL & ->). simpl.
  repeat split; try done.
  - apply length_pe_table.
  - eapply Forall_impl; [apply (pe_table_rows L D); lia|].
    intros r (row & -> & Hrow). split; [done|]. by constructor.
  - intros pos i Hpos Hi. exists (pe_row D pos). split.
    + unfold pe_table. by rewrite list_lookup_fmap, lookup_seq_lt.
    + unfold pe_row.
      apply (lookup_flat_map_pair
               (λ i, fsin (fmul (of_int (Z.of_nat pos)) (div_term D i)))
               (λ i, fcos (fmul (of_int (Z.of_nat pos)) (div_term D i)))).
      apply lookup_seq_lt.
      pose proof (Z.div_mod D 2 ltac:(lia)). lia.
Qed.

(** X15. Inside the table the output has the shape of the input, in
    either mode and whatever the dropout draws. *)
Theorem pe_forward_shape (p : F) (D L : Z) (self0 : t F) (mode : bool)
    (u : nat → nat → nat → F) (emb : list (list (list F))) (step : option Z) (b : nat) :
  init p D L = Ok self0 →
  has_shape3 (length emb) b (Z.to_nat D) emb →
  0 ≤ step_or_0 step →
  step_or_0 step + Z.of_nat (length emb) ≤ L →
  ∃ out, forward (set_training mode self0) u emb step = Ok out
         ∧ has_shape3 (length emb) b (Z.to_nat D) out.
Proof.
  intros Hinit Hshape Ho Hle.
  apply pe_init_Ok_inv in Hinit as (Hm & HD & HL & ->).
  unfold set_training; simpl.
  rewrite (pe_forward_in_range p D L mode u emb step b) by done.
  eexists. split; [done|].
  apply has_shape3_nn_Dropout, has_shape3_scaled_plus_rows; try done; lia.
Qed.

Lemma scaled_plus_rows_app (self : t F) (x y : list (list (list F))) (o : nat) :
  (o + length x ≤ length (pe self))%nat →
  scaled_plus_rows self (x ++ y) o
  = scaled_plus_rows self x o ++ scaled_plus_rows self y (o + length x).
Proof.
  intros Hle. unfold scaled_plus_rows.
  unfold tscale3. rewrite map_app, length_app.
  rewrite <- take_take_drop, drop_drop.
  apply zip_with_app.
  rewrite length_map, length_take, length_drop. lia.
Qed.

(** X16. Without dropout (evaluation mode, or p = 0), encoding a
    sequence at an offset is encoding its first part at the offset and
    the rest at the offset plus the length of the first part: decoding
    step by step gives the rows of decoding at once. *)
Theorem pe_forward_app (p : F) (D L : Z) (self0 : t F) (mode : bool)
    (u u1 u2 : nat → nat → nat → F) (x y : list (list (list F))) (o : Z) (b : nat) :
  init p D L = Ok self0 →
  mode = false ∨ feqb p f0 = true →
  has_shape3 (length x) b (Z.to_nat D) x →
  has_shape3 (length y) b (Z.to_nat D) y →
  0 ≤ o →
  o + Z.of_nat (length x) + Z.of_nat (length y) ≤ L →
  ∃ out1 out2,
    forward (set_training mode self0) u1 x (Some o) = Ok out1
    ∧ forward (set_training mode self0) u2 y (Some (o + Z.of_nat (length x))) = Ok out2
    ∧ forward (set_training mode self0) u (x ++ y) (Some o) = Ok (out1 ++ out2).
Proof.
  intros Hinit Hoff Hx Hy Ho Hle.
  apply pe_init_Ok_inv in Hinit as (Hm & HD & HL & ->).
  unfold set_training; simpl.
  assert (Hxy : has_shape3 (length (x ++ y)) b (Z.to_nat D) (x ++ y)).
  { split; [done|]. apply Forall_app. split; [apply Hx|apply Hy]. }
  rewrite (pe_forward_in_range p D L mode u1 x (Some o) b) by (simpl; done || lia).
  rewrite (pe_forward_in_range p D L mode u2 y (Some (o + Z.of_nat (length x))) b)
    by (simpl; done || lia).
  rewrite (pe_forward_in_range p D L mode u (x ++ y) (Some o) b)
    by (first [exact Hxy | done | simpl; rewrite ?length_app; lia]).
  rewrite !nn_Dropout_inactive by done. do 2 eexists. split; [done|]. split; [done|].
  f_equal. simpl. rewrite scaled_plus_rows_app.
  - do 2 f_equal. lia.
  - simpl. rewrite length_pe_table. lia.
Qed.

(** With a slice of as many rows as the input has positions, [forward]
    adds these rows. *)
Lemma pe_forward_slice (p : F) (D L : Z) (mode : bool)
    (u : nat → nat → nat → F) (emb : list (list (list F))) (step : option Z)
    (b k : nat) :
  D mod 2 = 0 → 0 < D → 0 ≤ L →
  let self := mk (pe_table L D) p D mode in
  let o := step_or_0 step in
  has_shape3 (length emb) b (Z.to_nat D) emb →
  o + Z.of_nat (length emb) ≤ L →
  py_slice o (Z.of_nat (length emb) + o) (pe_table L D)
  = take (length emb) (drop k (pe_table L D)) →
  (k + length emb ≤ Z.to_nat L)%nat →
  forward self u emb step
  = Ok (nn_Dropout p mode u (scaled_plus_rows self emb k)).
Proof.
  intros Hm HD HL self o Hshape Hle Hslice Hk.
  pose proof (has_shape3_tscale3 _ _ _ _ (fsqrt (of_int D)) Hshape) as [Hlen Hrows].
  unfold forward, scaled_plus_rows; simpl. fold o.
  rewrite Hlen, length_pe_table.
  destruct (Z.ltb_spec (Z.of_nat (Z.to_nat L)) (o + Z.of_nat (length emb))); [lia|].
  rewrite Hslice.
  erewrite (tadd3_rows b (Z.to_nat D)); [done| |exact Hrows|].
  - rewrite Hlen, length_take, length_drop, length_pe_table. lia.
  - apply Forall_take, Forall_drop, pe_table_rows; lia.
Qed.

(** X17. A negative step is no error: when the whole range
    [step, step + len) is negative and not below [-L], the rows are
    counted from the end of the table, the call adding the rows
    [L + step, L + step + len); and a single position at step -1 gives
    an empty result. *)
Theorem pe_forward_negative_step (p : F) (D L : Z) (self0 : t F) (mode : bool)
    (u : nat → nat → nat → F) (emb : list (list (list F))) (o : Z) (b : nat) :
  init p D L = Ok self0 →
  has_shape3 (length emb) b (Z.to_nat D) emb →
  - L ≤ o →
  (o + Z.of_nat (length emb) < 0 →
   forward (set_training mode self0) u emb (Some o)
   = Ok (nn_Dropout p mode u
           (scaled_plus_rows (set_training mode self0) emb (Z.to_nat (L + o)))))
  ∧ (o = -1 → length emb = 1%nat →
     forward (set_training mode self0) u emb (Some o) = Ok []).
Proof.
  intros Hinit Hshape HoL.
  apply pe_init_Ok_inv in Hinit as (Hm & HD & HL & ->).
  unfold set_training; simpl. split.
  - intros Hneg.
    apply (pe_forward_slice p D L mode u emb (Some o) b (Z.to_nat (L + o)));
      try done; simpl; try lia.
    unfold py_slice, py_index_clamp. rewrite length_pe_table.
    destruct (Z.ltb_spec o 0); [|lia].
    destruct (Z.ltb_spec (Z.of_nat (length emb) + o) 0); [|lia].
    f_equal; [|f_equal]; lia.
  - intros -> Hlen. unfold forward. simpl.
    rewrite length_tscale3, length_pe_table, Hlen.
    destruct (Z.ltb_spec (Z.of_nat (Z.to_nat L)) (-1 + Z.of_nat 1)); [lia|].
    assert (py_slice (-1) (Z.of_nat 1 + -1) (pe_table (F:=F) L D) = []) as ->.
    { unfold py_slice, py_index_clamp. rewrite length_pe_table. simpl.
      replace (Z.to_nat _) with 0%nat by lia. done. }
    destruct emb as [|x [|x' emb]]; try discriminate. simpl.
    unfold tadd3, bcast. simpl. unfold nn_Dropout. by destruct (_ || _).
Qed.
End positional_more.

(** ** More on the construction of [Embeddings] *)

Section construction_more.
Context {F : Type} `{!FloatOps F}.
Variable accepts : string → bool.
Import Embeddings.

Lemma Embedding_init_padded (rnd : nat → nat → F) vocab dim pad lut :
  Embedding.init rnd vocab dim pad = Ok lut → padded_table vocab pad lut.
Proof.
  unfold Embedding.init, padded_table, stored_padding. intros H.
  destruct ((0 <? pad) && negb (pad <? vocab)) eqn:E1; [discriminate|].
  destruct ((pad <? 0) && negb (- vocab <=? pad)) eqn:E2; [discriminate|].
  destruct ((vocab <? 0) || (dim <? 0)) eqn:E3; [discriminate|].
  destruct (Z.leb_spec vocab (if pad <? 0 then vocab + pad else pad)) as [|Hlt];
    [discriminate|].
  inversion H; subst; simpl. clear H.
  assert (0 ≤ (if pad <? 0 then vocab + pad else pad)) as Hge.
  { destruct (Z.ltb_spec pad 0); [|lia].
    destruct (Z.leb_spec (- vocab) pad); simpl in E2; [lia|discriminate]. }
  split; [done|]. split; [done|]. split; [lia|].
  apply list_lookup_insert_eq.
  unfold Embedding.random_weight. rewrite length_map, length_seq. lia.
Qed.

Lemma create_embeddingless_padded (rnd : nat → nat → F) vocab dim pad lut :
  create_embeddingless rnd vocab dim pad = Ok lut → padded_table vocab pad lut.
Proof.
  unfold create_embeddingless. intros H.
  destruct (vocab <? 0); [discriminate|].
  destruct (vocab =? 0); [discriminate|].
  destruct (Z.ltb_spec (dim - vocab) 0); [discriminate|].
  fold (one_hot_padded (F:=F) vocab dim) in H.
  apply rbind_Ok_inv in H as (w & Hw & H).
  apply rbind_Ok_inv in H as (emb & Hemb & H).
  injection H as <-.
  pose proof (Embedding_init_table _ _ _ _ _ Hemb) as [(_ & Hdim & _) _].
  apply Embedding_init_padded in Hemb as (Hn & Hp & Hr & _).
  unfold padded_table. simpl. split; [done|]. split; [done|]. split; [done|].
  unfold set_row in Hw. rewrite length_one_hot_padded in Hw.
  destruct (_ || _); [discriminate|]. injection Hw as <-. simpl in Hdim.
  rewrite Hp, Hdim. unfold stored_padding.
  replace (Z.of_nat (Z.to_nat vocab)) with vocab by lia.
  replace (if pad <? 0 then pad + vocab else pad)
    with (if pad <? 0 then vocab + pad else pad) by (destruct (pad <? 0); lia).
  apply list_lookup_insert_eq. rewrite length_one_hot_padded.
  unfold stored_padding in *. lia.
Qed.

Lemma make_tables_padded embeddingless (rnd : nat → nat → nat → F) k params luts :
  make_tables embeddingless rnd k params = Ok luts →
  Forall2 (λ param lut, padded_table param.1 param.2.2 lut) params luts.
Proof.
  revert k luts. induction params as [|[vocab [dim pad]] params IH]; intros k luts H.
  - inversion H. constructor.
  - simpl in H.
    apply rbind_Ok_inv in H as (e & He & H).
    apply rbind_Ok_inv in H as (es & Hes & H).
    inversion H; subst. constructor; [|by eapply IH].
    destruct embeddingless.
    + by apply create_embeddingless_padded in He.
    + by apply Embedding_init_padded in He.
Qed.

Lemma freeze_word_lut_inv (luts luts' : list (Embedding.t F)) :
  freeze_word_lut luts = Ok luts' →
  ∃ word_lut feats, luts = word_lut :: feats
                    ∧ luts' = Embedding.set_requires_grad false word_lut :: feats.
Proof. destruct luts; [discriminate|]. inversion 1. eauto. Qed.

(** X18. A list of padding indices that is [None], or that has not one
    index for each feature vocabulary, makes the construction raise: a
    [ValueError] for the wrong number, a [ValueError] or a [TypeError]
    for [None] (whose replacement by the empty list in [__init__] is
    never reached). *)
Theorem init_padding_list (rnd : nat → nat → nat → F) (a : args F) :
  (∀ pads, feat_padding_idx a = Some pads →
     length pads ≠ length (feat_vocab_sizes a) →
     ∃ msg, init accepts rnd a = Raise (ValueError msg))
  ∧ (feat_padding_idx a = None →
     init accepts rnd a = Raise TypeError
     ∨ ∃ msg, init accepts rnd a = Raise (ValueError msg)).
Proof.
  split.
  - intros pads Hp Hlen. unfold init, _validate_args. rewrite Hp.
    destruct (Nat.eqb_spec (length (feat_vocab_sizes a)) (length pads)); [congruence|].
    destruct (feat_merge a =? "sum")%string; simpl; [eauto|].
    destruct (0 <? feat_vec_size a); simpl; [eauto|].
    destruct (fleb (feat_vec_exponent a) f0); simpl; eauto.
  - intros Hp. unfold init, _validate_args. rewrite Hp.
    destruct (feat_merge a =? "sum")%string; simpl; [by left|].
    destruct (0 <? feat_vec_size a); simpl; [by left|].
    destruct (fleb (feat_vec_exponent a) f0); simpl; eauto.
Qed.

(** X19. A constructed instance has one table for each channel, the
    word channel first, with the channel's vocabulary size; the padding
    index of each table is inside the table (a negative one counted from
    the end) and the row of the padding index is all zeros, for learned
    and for structured tables. *)
Theorem init_channels_padded (rnd : nat → nat → nat → F) (a : args F) (e : t F) :
  init accepts rnd a = Ok e →
  ∃ pads, feat_padding_idx a = Some pads
          ∧ Forall2 (λ vp lut, padded_table vp.1 vp.2 lut)
              (zip (word_vocab_size a :: feat_vocab_sizes a) (word_padding_idx a :: pads))
              (emb_luts e).
Proof.
  intros H.
  apply embeddings_init_Ok_inv in H
    as (dims & pads & luts & _ & Hpads & Hlp & Hdims & Hluts & _ & _ & _ & _ & Hfr).
  exists pads. split; [done|].
  apply make_tables_padded in Hluts.
  pose proof (length_feat_dims a dims Hdims) as Hld.
  assert (Hl : Forall2 (λ vp lut, padded_table vp.1 vp.2 lut)
                 (zip (word_vocab_size a :: feat_vocab_sizes a)
                      (word_padding_idx a :: pads)) luts).
  { unfold emb_params, pad_indices in Hluts. rewrite Hpads in Hluts. simpl in Hluts.
    inversion Hluts as [|p lut ps luts' Hhd Htl]; subst. simpl. constructor; [done|].
    clear -Htl Hlp Hld. revert dims pads luts' Hlp Hld Htl.
    induction (feat_vocab_sizes a) as [|V Vs IH]; intros dims pads luts' Hlp Hld Htl.
    - simpl in *. by inversion Htl.
    - destruct dims as [|d dims]; [done|]. destruct pads as [|pd pads]; [done|].
      simpl in *. inversion Htl; subst. constructor; [done|].
      apply (IH dims); [lia|lia|done]. }
  destruct (freeze_word_vecs a); [|by inversion Hfr; subst].
  apply freeze_word_lut_inv in Hfr as (word_lut & feats & -> & ->).
  inversion Hl; subst. by constructor.
Qed.

Lemma mlp_stage_of_init (rnd : nat → nat → nat → F) (a : args F) (e : t F) :
  init accepts rnd a = Ok e →
  (feat_merge a = "mlp" ∧ feat_vocab_sizes a ≠ [] →
     mlp e = Some (sum_dims (Embedding.embedding_dim <$> emb_luts e), embedding_size e))
  ∧ (feat_merge a ≠ "mlp" ∨ feat_vocab_sizes a = [] → mlp e = None).
Proof.
  intros H. destruct (init_table_dims accepts _ _ _ H) as (dims & Hdims & Hl).
  apply embeddings_init_Ok_inv in H
    as (dims' & _ & _ & _ & _ & _ & Hdims' & _ & _ & Hsize & Hmlp & _).
  rewrite Hdims in Hdims'. inversion Hdims'; subst dims'. rewrite Hmlp, Hl, Hsize.
  split.
  - intros [Hm Hf]. rewrite Hm. simpl.
    destruct (feat_vocab_sizes a); [done|]. done.
  - intros [Hm| ->]; [|by rewrite andb_false_r].
    apply String.eqb_neq in Hm. by rewrite Hm.
Qed.

(** X20. A constructed instance has the projection stage exactly when
    the strategy is [mlp] and there is a feature channel; the stage then
    maps the sum of the widths of all tables to [embedding_size]. *)
Theorem init_mlp_stage (rnd : nat → nat → nat → F) (a : args F) (e : t F) :
  init accepts rnd a = Ok e →
  (feat_merge a = "mlp" ∧ feat_vocab_sizes a ≠ [] →
     mlp e = Some (sum_dims (Embedding.embedding_dim <$> emb_luts e), embedding_size e))
  ∧ (feat_merge a ≠ "mlp" ∨ feat_vocab_sizes a = [] → mlp e = None).
Proof. apply mlp_stage_of_init. Qed.

(** X21. In a constructed instance with learned tables the feature
    tables require gradients, and the word table does unless the word
    vectors are frozen; with structured tables no table requires
    gradients. *)
Theorem init_requires_grad (rnd : nat → nat → nat → F) (a : args F) (e : t F) :
  init accepts rnd a = Ok e →
  ∃ word_lut feats,
    emb_luts e = word_lut :: feats
    ∧ Embedding.requires_grad word_lut
      = negb (enable_embeddingless a) && negb (freeze_word_vecs a)
    ∧ Forall (λ lut, Embedding.requires_grad lut = negb (enable_embeddingless a)) feats.
Proof.
  intros H.
  apply embeddings_init_Ok_inv in H
    as (dims & pads & luts & _ & Hpads & Hlp & Hdims & Hluts & _ & _ & _ & _ & Hfr).
  apply make_tables_spec in Hluts as [Htab Hgrad].
  assert (∃ word_lut feats, luts = word_lut :: feats) as (word_lut & feats & ->).
  { unfold emb_params, pad_indices in Htab. rewrite Hpads in Htab. simpl in Htab.
    inversion Htab; subst. eauto. }
  apply Forall_cons in Hgrad as [Hw Hf].
  destruct (freeze_word_vecs a).
  - simpl in Hfr. inversion Hfr; subst. do 2 eexists. split; [done|]. simpl.
    by rewrite andb_false_r.
  - inversion Hfr; subst. do 2 eexists. split; [done|]. by rewrite andb_true_r.
Qed.

Lemma positional_stage_of_init (rnd : nat → nat → nat → F) (a : args F) (e : t F) :
  init accepts rnd a = Ok e →
  self_position_encoding e = position_encoding a
  ∧ (position_encoding a = false → pe e = None)
  ∧ (position_encoding a = true →
     ∃ pos, pe e = Some pos
            ∧ PositionalEncoding.init (dropout a) (embedding_size e) 5000 = Ok pos
            ∧ embedding_size e mod 2 = 0 ∧ 0 < embedding_size e).
Proof.
  unfold init. intros H.
  apply rbind_Ok_inv in H as ([] & _ & H).
  apply rbind_Ok_inv in H as (dims & _ & H).
  apply rbind_Ok_inv in H as (luts & _ & H).
  destruct (accepts (feat_merge a)); simpl in H; [|discriminate].
  apply rbind_Ok_inv in H as (pos & Hpe & H).
  apply rbind_Ok_inv in H as (luts' & _ & H).
  inversion H; subst; simpl. clear H. split; [done|].
  destruct (position_encoding a).
  - split; [done|]. intros _.
    apply rbind_Ok_inv in Hpe as (pos' & Hpos & Hpe). inversion Hpe; subst.
    exists pos'. split; [done|]. split; [done|].
    by apply pe_init_Ok_inv in Hpos as (? & ? & _).
  - split; [|done]. intros _. by inversion Hpe.
Qed.

(** X22. A constructed instance has the positional stage exactly when
    positional encoding is requested; the stage is the encoding
    constructed for the dropout of the instance, the width
    [embedding_size] and the maximum length 5000, and so
    [embedding_size] is then even and positive. *)
Theorem init_positional_stage (rnd : nat → nat → nat → F) (a : args F) (e : t F) :
  init accepts rnd a = Ok e →
  self_position_encoding e = position_encoding a
  ∧ (position_encoding a = false → pe e = None)
  ∧ (position_encoding a = true →
     ∃ pos, pe e = Some pos
            ∧ PositionalEncoding.init (dropout a) (embedding_size e) 5000 = Ok pos
            ∧ embedding_size e mod 2 = 0 ∧ 0 < embedding_size e).
Proof. apply positional_stage_of_init. Qed.
End construction_more.

(** ** The other methods *)

Section methods.
Context {F : Type} `{!FloatOps F} {Src : Type}.
Variable accepts : string → bool.
Variable Elementwise_forward :
  string → list (Embedding.t F) → Src → result (list (list (list F))).
Variable mlp_forward : Z * Z → list (list (list F)) → result (list (list (list F))).
Import EmbeddingsMethods.


(** X23. For a constructed instance: an error of the lookup, merge and
    projection stages is the error of [forward]; without positional
    encoding [forward] returns their output whatever the step; with
    positional encoding it applies the encoding of maximum length 5000
    at the step, so an output of these stages that ends beyond position
    5000 raises [SequenceTooLongError]. *)
Theorem embeddings_forward_stages (rnd : nat → nat → nat → F) (a : Embeddings.args F)
    (e : Embeddings.t F) (u : nat → nat → nat → F) (source : Src) (step : option Z) :
  Embeddings.init accepts rnd a = Ok e →
  (∀ err, make_embedding_stages Elementwise_forward mlp_forward e source = Raise err → forward Elementwise_forward mlp_forward u e source step = Raise err)
  ∧ ∀ x, make_embedding_stages Elementwise_forward mlp_forward e source = Ok x →
      (Embeddings.position_encoding a = false → forward Elementwise_forward mlp_forward u e source step = Ok x)
      ∧ (Embeddings.position_encoding a = true →
         (∃ pos, PositionalEncoding.init (Embeddings.dropout a)
                   (Embeddings.embedding_size e) 5000 = Ok pos
                 ∧ forward Elementwise_forward mlp_forward u e source step = PositionalEncoding.forward pos u x step)
         ∧ (5000 < PositionalEncoding.step_or_0 step + Z.of_nat (length x) →
            forward Elementwise_forward mlp_forward u e source step = Raise SequenceTooLongError)).
Proof.
  intros Hinit.
  destruct (positional_stage_of_init accepts rnd a e Hinit) as (Hflag & Hno & Hyes).
  unfold forward. rewrite Hflag. split.
  - intros err Herr. destruct (Embeddings.position_encoding a).
    + destruct (Hyes eq_refl) as (pos & -> & _). by rewrite Herr.
    + done.
  - intros x Hx. split; [by intros ->|].
    intros Hpe. rewrite Hpe. destruct (Hyes Hpe) as (pos & -> & Hpos & _).
    rewrite Hx. simpl. split; [eauto|].
    intros Hlong. apply pe_init_Ok_inv in Hpos as (_ & _ & _ & ->).
    unfold PositionalEncoding.forward.
    cbn [PositionalEncoding.pe PositionalEncoding.dim].
    rewrite length_tscale3, length_pe_table.
    by destruct (Z.ltb_spec (Z.of_nat (Z.to_nat 5000))
                   (PositionalEncoding.step_or_0 step + Z.of_nat (length x))); [|lia].
Qed.

(** X24. For a constructed instance, [update_dropout] does nothing
    without positional encoding; with positional encoding and no
    projection stage it replaces the dropout of the positional stage,
    whatever the new value, and changes nothing else; with positional
    encoding and the projection stage (strategy [mlp] with a feature
    channel) it raises [AttributeError]. *)
Theorem update_dropout_stage (rnd : nat → nat → nat → F) (a : Embeddings.args F)
    (e : Embeddings.t F) (p : F) :
  Embeddings.init accepts rnd a = Ok e →
  (Embeddings.position_encoding a = false → update_dropout e p = Normal (Ok e))
  ∧ (Embeddings.position_encoding a = true →
     (Embeddings.feat_merge a = "mlp" ∧ Embeddings.feat_vocab_sizes a ≠ [] →
      ∃ msg, update_dropout e p = Other (AttributeError msg))
     ∧ (Embeddings.feat_merge a ≠ "mlp" ∨ Embeddings.feat_vocab_sizes a = [] →
        ∃ pos, Embeddings.pe e = Some pos
               ∧ update_dropout e p
                 = Normal (Ok (set_pe (Some (PositionalEncoding.mk
                                               (PositionalEncoding.pe pos) p
                                               (PositionalEncoding.dim pos)
                                               (PositionalEncoding.training pos))) e)))).
Proof.
  intros Hinit.
  destruct (positional_stage_of_init accepts rnd a e Hinit) as (Hflag & Hno & Hyes).
  destruct (mlp_stage_of_init accepts rnd a e Hinit) as [Hmlp Hnomlp].
  unfold update_dropout. rewrite Hflag. split; [by intros ->|].
  intros Hpe. rewrite Hpe. destruct (Hyes Hpe) as (pos & Hpos & _). split.
  - intros Hm. rewrite (Hmlp Hm). eauto.
  - intros Hm. rewrite (Hnomlp Hm), Hpos. eauto.
Qed.
End methods.

Section pluggable_more.
Context {E Src Out : Type} {Mod : TorchModule E Src Out} {Pad : HasWordPadding E}.
Import PluggableEmbeddings PluggableMethods.
Implicit Types (d : list (string * E)) (reg : PluggableEmbeddings.t E).

(** Every key of the dictionary is registered, also one that the
    dictionary lists twice. *)
Lemma add_all_lookup_is_Some d (mods mods' : gmap string E) k :
  add_all d mods = Ok mods' → k ∈ d.*1 → is_Some (mods' !! module_name k).
Proof.
  revert mods. induction d as [|[key e] d IH]; intros mods H Hk; simpl in *.
  - by apply elem_of_nil in Hk.
  - apply rbind_Ok_inv in H as (m1 & H1 & H).
    apply add_module_Ok in H1 as ->.
    destruct (decide (k ∈ d.*1)) as [Hd|Hd]; [by apply (IH _ H)|].
    rewrite (add_all_lookup_notin _ _ _ _ H Hd).
    apply elem_of_cons in Hk as [->|Hk]; [|done].
    rewrite lookup_insert_eq. eauto.
Qed.

Lemma activate_registered d reg0 reg k :
  init d = Ok reg0 → modules reg = modules reg0 →
  (activate k reg).2
  = if bool_decide (k ∈ d.*1) then mk (modules reg) (Some k) else reg.
Proof.
  intros Hinit Hreg. apply init_modules in Hinit as [Hmods _].
  unfold activate. rewrite Hreg. case_bool_decide as Hk.
  - by destruct (add_all_lookup_is_Some _ _ _ _ Hmods Hk) as [e ->].
  - by rewrite (add_all_lookup_notin _ _ _ _ Hmods Hk), lookup_empty.
Qed.

(** After a run of activations from a state of the registry, the
    modules are as before and the active key is the last registered key
    of the run, or the previous one. *)
Lemma activate_all_state d reg0 keys reg :
  init d = Ok reg0 → modules reg = modules reg0 →
  modules (activate_all keys reg) = modules reg0
  ∧ active_key (activate_all keys reg)
    = match last (filter (λ k, k ∈ d.*1) keys) with
      | Some k => Some k
      | None => active_key reg
      end.
Proof.
  intros Hinit. revert reg. induction keys as [|k keys IH]; intros reg Hreg; [done|].
  unfold activate_all. simpl. fold (activate_all keys (activate k reg).2).
  rewrite (activate_registered d reg0 reg k Hinit Hreg).
  rewrite filter_cons. case_bool_decide as Hk.
  - rewrite decide_True by done.
    destruct (IH (mk (modules reg) (Some k)) Hreg) as [-> ->]. split; [done|].
    simpl. rewrite last_cons. by destruct (last _).
  - rewrite decide_False by done. by apply IH.
Qed.

(** X25. After any run of [activate] calls on a registry built from a
    dictionary, failed calls being caught: if no key of the run is
    registered, [forward] and [word_padding_idx] raise the "must
    activate" exception; otherwise both go to the instance of the last
    registered key of the run, which [forward] calls on the same input.
    The lookup of the active instance never fails. *)
Theorem activate_all_last d reg0 (keys : list string) :
  NoDup d.*1 →
  init d = Ok reg0 →
  let reg := activate_all keys reg0 in
  (last (filter (λ k, k ∈ d.*1) keys) = None →
     (∀ source step,
        forward reg source step
        = Raise (Exception "Must activate PluggableEmbeddings before forward"))
     ∧ word_padding_idx reg
       = Raise (Exception "Must activate PluggableEmbeddings before forward"))
  ∧ (∀ k, last (filter (λ k, k ∈ d.*1) keys) = Some k →
       ∃ e, (k, e) ∈ d
            ∧ _active_embeddings reg = Ok e
            ∧ (∀ source step, forward reg source step = module_forward e source step)
            ∧ word_padding_idx reg = Ok (module_word_padding_idx e)).
Proof.
  intros Hnd Hinit reg.
  destruct (activate_all_state d reg0 keys reg0 Hinit eq_refl) as [Hmods Hact].
  fold reg in Hmods, Hact.
  pose proof (init_modules _ _ Hinit) as [Hadd Hnone]. split.
  - intros Hlast. rewrite Hlast, Hnone in Hact.
    split; [intros; by apply forward_inactive|].
    unfold word_padding_idx, _active_embeddings. by rewrite Hact.
  - intros k Hlast. rewrite Hlast in Hact.
    assert (k ∈ d.*1) as Hk.
    { apply last_Some_elem_of, list_elem_of_filter in Hlast. by destruct Hlast. }
    apply list_elem_of_fmap in Hk as ([k' e] & -> & Hin). simpl in *.
    exists e. split; [done|].
    assert (_active_embeddings reg = Ok e) as Hae.
    { unfold _active_embeddings. rewrite Hact, Hmods.
      by rewrite (add_all_lookup_in _ _ _ _ _ Hadd Hnd Hin). }
    split; [done|]. unfold forward, word_padding_idx. rewrite Hae. done.
Qed.
End pluggable_more.

(** * More concrete runs *)
Section more_runs.
Import Examples MoreExamples.

Lemma specials_NoDup : NoDup specials.
Proof. apply (bool_decide_unpack _). vm_compute. exact I. Defined.

Lemma letters_init : Vocab.init specials pieces None = Ok letters.
Proof. reflexivity. Defined.

Lemma vocab_specials_last_witness :
  NoDup specials
  ∧ Vocab.init specials pieces None = Ok letters
  ∧ ∃ body,
      Vocab.itos letters = body ++ specials
      ∧ (∀ tk, tk ∈ body → (tk ∉ specials) ∧ tk ∈ pieces)
      ∧ ∀ j sp, specials !! j = Some sp →
          Vocab.stoi letters !! sp = Some (Vocab.len letters - length specials + j)%nat.
Proof.
  split; [exact specials_NoDup|]. split; [exact letters_init|].
  exact (vocab_specials_last specials pieces None letters specials_NoDup letters_init).
Defined.

Lemma vocab_getitem_witness :
  Vocab.init specials pieces None = Ok letters
  ∧ (∀ i, Vocab.itos letters !! i = Some (Text.str "z") →
       Vocab.getitem (Text.str "z") letters = (i, letters))
  ∧ (Text.str "z" ∉ Vocab.itos letters →
     (Vocab.getitem (Text.str "z") letters).1 = 0%nat
     ∧ Vocab.itos (Vocab.getitem (Text.str "z") letters).2 = Vocab.itos letters
     ∧ Vocab.len (Vocab.getitem (Text.str "z") letters).2 = S (length (Vocab.itos letters))
     ∧ Vocab.getitem (Text.str "z") (Vocab.getitem (Text.str "z") letters).2
       = (0%nat, (Vocab.getitem (Text.str "z") letters).2)).
Proof.
  split; [exact letters_init|].
  exact (vocab_getitem specials pieces None letters (Text.str "z") letters_init).
Defined.

Lemma read_embeddings_keys_filtered_witness :
  ∃ embs total,
    ReadEmbeddings.read_embeddings RFloat.py_float abc_file 0 (Some tokens_az)
    = Ok (embs, total)
    ∧ dom embs ⊆ tokens_az.
Proof.
  refine (ex_intro _ _ (ex_intro _ _ ((λ H, conj H
    (read_embeddings_keys_filtered RFloat.py_float abc_file 0 tokens_az _ _ H)) _))).
  vm_compute. reflexivity.
Defined.

Lemma read_embeddings_counts_witness :
  ∃ embs total,
    ReadEmbeddings.read_embeddings RFloat.py_float abc_file 1 (Some tokens_az)
    = Ok (embs, total)
    ∧ Z.of_nat (size embs) ≤ total
    ∧ total ≤ Z.of_nat (length (drop (Z.to_nat 1) (Text.file_lines abc_file))).
Proof.
  refine (ex_intro _ _ (ex_intro _ _ ((λ H, conj H
    (read_embeddings_counts RFloat.py_float abc_file 1 (Some tokens_az) _ _ H)) _))).
  vm_compute. reflexivity.
Defined.

Lemma read_embeddings_all_skipped_witness :
  Z.of_nat (length (Text.file_lines abc_file)) ≤ 3
  ∧ ReadEmbeddings.read_embeddings RFloat.py_float abc_file 3 None = Ok (∅, 0%Z).
Proof.
  refine ((λ H, conj H
    (read_embeddings_all_skipped RFloat.py_float abc_file 3 None H)) _).
  vm_compute. discriminate.
Defined.

Lemma read_embeddings_filter_restricts_witness :
  ∃ embs total,
    ReadEmbeddings.read_embeddings RFloat.py_float abc_file 0 None = Ok (embs, total)
    ∧ ReadEmbeddings.read_embeddings RFloat.py_float abc_file 0 (Some tokens_az)
      = Ok (filter (λ kv, kv.1 ∈ tokens_az) embs, total).
Proof.
  refine (ex_intro _ _ (ex_intro _ _ ((λ H, conj H
    (read_embeddings_filter_restricts RFloat.py_float abc_file 0 tokens_az _ _ H)) _))).
  vm_compute. reflexivity.
Defined.

Lemma read_embeddings_header_skip_witness :
  Text.file_lines word2vec_file !! 0%nat = Some header_line
  ∧ Text.decode header_line = Ok [49; 32; 50; 10]%N
  ∧ length (Text.split_on 32 (Text.strip [49; 32; 50; 10]%N)) = 2%nat
  ∧ ReadEmbeddings.read_embeddings RFloat.py_float word2vec_file (Z.of_nat 0) None
    = ReadEmbeddings.read_embeddings RFloat.py_float word2vec_file (Z.of_nat 0 + 1) None.
Proof.
  refine ((λ H1 H2 H3, conj H1 (conj H2 (conj H3
    (read_embeddings_header_skip RFloat.py_float word2vec_file 0 None _ _ H1 H2 H3))))
    _ _ _); vm_compute; reflexivity.
Defined.

Lemma read_embeddings_vector_length_witness :
  ∃ embs total vec,
    ReadEmbeddings.read_embeddings RFloat.py_float abc_file 0 None = Ok (embs, total)
    ∧ embs !! Text.str "b" = Some vec
    ∧ length vec ≠ 1%nat
    ∧ ∃ line text,
        line ∈ drop (Z.to_nat 0) (Text.file_lines abc_file)
        ∧ Text.decode line = Ok text
        ∧ length (Text.split_on 32 (Text.strip text)) = S (length vec).
Proof.
  refine (ex_intro _ _ (ex_intro _ _ (ex_intro _ _ ((λ H1 H2, conj H1 (conj H2
    (read_embeddings_vector_length RFloat.py_float abc_file 0 None _ _
       (Text.str "b") _ H1 H2))) _ _)))).
  Unshelve. all: try (vm_compute; reflexivity). vm_compute; reflexivity.
Defined.

(** ** Pretrained vectors and the vocabulary *)

Lemma letters_consistent : Vocab.consistent letters.
Proof. exact (vocab_consistent_of_init specials pieces None letters letters_init). Qed.

Lemma convert_to_torch_tensor_rows_witness :
  vectors_ab ≠ []
  ∧ NoDup vectors_ab.*1
  ∧ ∃ tensor,
      Pretrained.convert_to_torch_tensor vectors_ab letters = Normal (Ok (tensor, letters))
      ∧ has_shape2 (Vocab.len letters) 2 tensor
      ∧ (∀ w vals i, (w, vals) ∈ vectors_ab → Vocab.stoi letters !! w = Some i →
           tensor !! i = Some vals)
      ∧ (∀ i, (i < Vocab.len letters)%nat →
           (∀ w, w ∈ vectors_ab.*1 → Vocab.stoi letters !! w ≠ Some i) →
           tensor !! i = Some (replicate 2 f0)).
Proof.
  assert (Hne : vectors_ab ≠ []) by discriminate.
  assert (Hnd : NoDup vectors_ab.*1)
    by (apply (bool_decide_unpack _); vm_compute; exact I).
  split; [exact Hne|]. split; [exact Hnd|].
  apply (convert_to_torch_tensor_rows vectors_ab letters 2 Hne Hnd letters_consistent).
  intros w vals Hin.
  repeat (apply elem_of_cons in Hin as [Heq|Hin];
          [injection Heq as -> ->; split; [reflexivity|];
           apply (bool_decide_unpack _); vm_compute; exact I|]).
  by apply elem_of_nil in Hin.
Defined.

Lemma convert_to_torch_tensor_unknown_word_witness :
  ∃ tensor vocab',
    Vocab.stoi letters !! Text.str "z" = None
    ∧ Pretrained.convert_to_torch_tensor
        ([(Text.str "b", [3; 4]%R)] ++ [(Text.str "z", [5; 6]%R)]) letters
      = Normal (Ok (tensor, vocab'))
    ∧ Vocab.stoi vocab' !! Text.str "z" = Some 0%nat
    ∧ Vocab.itos vocab' = Vocab.itos letters
    ∧ (Vocab.len letters < Vocab.len vocab')%nat
    ∧ ∃ row, tensor !! 0%nat = Some row
             ∧ Pretrained.row_of (length row) [5; 6]%R = Ok row.
Proof.
  refine (ex_intro _ _ (ex_intro _ _ ((λ H1 H2, conj H1 (conj H2
    (convert_to_torch_tensor_unknown_word [(Text.str "b", [3; 4]%R)] (Text.str "z")
       [5; 6]%R letters _ _ H1 H2))) _ _))).
  Unshelve. all: try (vm_compute; reflexivity).
Defined.

Lemma stats_of_filtered_read_witness :
  ∃ embs total,
    ReadEmbeddings.read_embeddings RFloat.py_float abc_file 0
      (Some (dom (Vocab.stoi letters))) = Ok (embs, total)
    ∧ Vocab.len letters ≠ 0%nat
    ∧ ∃ percent,
        Pretrained.calc_vocab_load_stats letters embs
        = Ok (Z.of_nat (size embs),
              Z.of_nat (Vocab.len letters) - Z.of_nat (size embs), percent).
Proof.
  refine (ex_intro _ _ (ex_intro _ _ ((λ H1 H2, conj H1 (conj H2
    (stats_of_filtered_read RFloat.py_float letters abc_file 0 _ _ H1 H2))) _ _))).
  Unshelve. all: try (vm_compute; reflexivity). vm_compute. discriminate.
Defined.

(** ** The positional encoding *)

Lemma pe_init_table_witness :
  PositionalEncoding.init 0%R 2 3 = Ok pe3
  ∧ PositionalEncoding.dropout pe3 = 0%R
  ∧ has_shape3 (Z.to_nat 3) 1 (Z.to_nat 2) (PositionalEncoding.pe pe3).
Proof.
  split; [exact pe3_init|].
  destruct (pe_init_table 0%R 2 3 pe3 pe3_init) as (_ & _ & Hp & _ & _ & Hs & _).
  split; [exact Hp | exact Hs].
Defined.

Lemma pe_forward_shape_witness :
  PositionalEncoding.init 0%R 2 3 = Ok pe3
  ∧ has_shape3 2 1 2 seq_2_1_2
  ∧ ∃ out, PositionalEncoding.forward (PositionalEncoding.set_training true pe3)
             zeros3 seq_2_1_2 (Some 1) = Ok out
           ∧ has_shape3 2 1 2 out.
Proof.
  assert (Hshape : has_shape3 2 1 2 seq_2_1_2) by (repeat constructor).
  split; [exact pe3_init|]. split; [exact Hshape|].
  apply (pe_forward_shape 0%R 2 3 pe3 true zeros3 seq_2_1_2 (Some 1) 1 pe3_init Hshape);
    simpl; lia.
Defined.

Lemma pe_forward_app_witness :
  PositionalEncoding.init 0%R 2 3 = Ok pe3
  ∧ ∃ out1 out2,
      PositionalEncoding.forward (PositionalEncoding.set_training false pe3)
        zeros3 [[[1; 2]]]%R (Some 1) = Ok out1
      ∧ PositionalEncoding.forward (PositionalEncoding.set_training false pe3)
          zeros3 [[[3; 4]]]%R (Some (1 + Z.of_nat (length [[[1; 2]]]%R))) = Ok out2
      ∧ PositionalEncoding.forward (PositionalEncoding.set_training false pe3)
          zeros3 ([[[1; 2]]]%R ++ [[[3; 4]]]%R) (Some 1) = Ok (out1 ++ out2).
Proof.
  split; [exact pe3_init|].
  apply (pe_forward_app 0%R 2 3 pe3 false zeros3 zeros3 zeros3 [[[1; 2]]]%R [[[3; 4]]]%R 1 1
           pe3_init (or_introl eq_refl)); try (repeat constructor); simpl; lia.
Defined.

Lemma pe_forward_negative_step_witness :
  PositionalEncoding.init 0%R 2 3 = Ok pe3
  ∧ PositionalEncoding.forward (PositionalEncoding.set_training false pe3)
      zeros3 ones_1_1_2 (Some (-2))
    = Ok (nn_Dropout 0%R false zeros3
            (PositionalEncoding.scaled_plus_rows
               (PositionalEncoding.set_training false pe3) ones_1_1_2 (Z.to_nat (3 + -2))))
  ∧ PositionalEncoding.forward (PositionalEncoding.set_training false pe3)
      zeros3 ones_1_1_2 (Some (-1)) = Ok [].
Proof.
  assert (Hshape : has_shape3 (length ones_1_1_2) 1 (Z.to_nat 2) ones_1_1_2)
    by (repeat constructor).
  split; [exact pe3_init|]. split.
  - apply (pe_forward_negative_step 0%R 2 3 pe3 false zeros3 ones_1_1_2 (-2) 1
             pe3_init Hshape); simpl; lia.
  - apply (pe_forward_negative_step 0%R 2 3 pe3 false zeros3 ones_1_1_2 (-1) 1
             pe3_init Hshape); [lia|reflexivity|reflexivity].
Defined.

(** ** The construction and the methods of [Embeddings] *)

Lemma pe_init_4 :
  PositionalEncoding.init 0%R 4 5000
  = Ok (PositionalEncoding.mk (PositionalEncoding.pe_table 5000 4) 0%R 4 true).
Proof.
  unfold PositionalEncoding.init.
  change (negb (4 mod 2 =? 0)) with false.
  change ((5000 <? 0) || (4 <? 0)) with false.
  change (4 =? 0) with false. cbv iota.
  cbn [fltb f0 f1 RFloat.ops].
  rewrite (RFloat_ltb_false 0 0), (RFloat_ltb_false 1 0) by lra.
  reflexivity.
Qed.

Lemma args_pe_init :
  ∃ e, Embeddings.init Elementwise_accepts zeros3 args_pe = Ok e.
Proof.
  eexists. unfold Embeddings.init.
  cbn -[PositionalEncoding.init].
  change PositionalEncoding.default_max_len with 5000.
  rewrite pe_init_4. reflexivity.
Qed.

Lemma args_mlp_pe_init :
  ∃ e, Embeddings.init Elementwise_accepts zeros3 args_mlp_pe = Ok e.
Proof.
  eexists. unfold Embeddings.init.
  cbn -[PositionalEncoding.init].
  change PositionalEncoding.default_max_len with 5000.
  rewrite pe_init_4. reflexivity.
Qed.

Lemma init_channels_padded_witness :
  ∃ e, Embeddings.init Elementwise_accepts zeros3 args_sum = Ok e
       ∧ ∃ pads, Embeddings.feat_padding_idx args_sum = Some pads
                 ∧ Forall2 (λ vp lut, padded_table vp.1 vp.2 lut)
                     (zip (Embeddings.word_vocab_size args_sum
                           :: Embeddings.feat_vocab_sizes args_sum)
                          (Embeddings.word_padding_idx args_sum :: pads))
                     (Embeddings.emb_luts e).
Proof.
  eexists.
  refine ((λ H, conj H
             (init_channels_padded Elementwise_accepts zeros3 args_sum _ H)) _).
  reflexivity.
Defined.

Lemma args_mlp_feat_init :
  ∃ e, Embeddings.init Elementwise_accepts zeros3 args_mlp_feat = Ok e.
Proof. eexists. unfold Embeddings.init. cbn. reflexivity. Qed.

Lemma init_mlp_stage_witness :
  ∃ e, Embeddings.init Elementwise_accepts zeros3 args_mlp_feat = Ok e
       ∧ Embeddings.mlp e
         = Some (Embeddings.sum_dims (Embedding.embedding_dim <$> Embeddings.emb_luts e),
                 Embeddings.embedding_size e).
Proof.
  destruct args_mlp_feat_init as [e He]. exists e. split; [exact He|].
  apply (init_mlp_stage Elementwise_accepts zeros3 args_mlp_feat e He).
  split; [reflexivity | discriminate].
Defined.

Lemma init_requires_grad_witness :
  ∃ e, Embeddings.init Elementwise_accepts zeros3 args_sum = Ok e
       ∧ ∃ word_lut feats,
           Embeddings.emb_luts e = word_lut :: feats
           ∧ Embedding.requires_grad word_lut
             = negb (Embeddings.enable_embeddingless args_sum)
               && negb (Embeddings.freeze_word_vecs args_sum)
           ∧ Forall (λ lut, Embedding.requires_grad lut
                            = negb (Embeddings.enable_embeddingless args_sum)) feats.
Proof.
  eexists.
  refine ((λ H, conj H
             (init_requires_grad Elementwise_accepts zeros3 args_sum _ H)) _).
  reflexivity.
Defined.

Lemma init_positional_stage_witness :
  ∃ e, Embeddings.init Elementwise_accepts zeros3 args_pe = Ok e
       ∧ ∃ pos, Embeddings.pe e = Some pos
                ∧ PositionalEncoding.init (Embeddings.dropout args_pe)
                    (Embeddings.embedding_size e) 5000 = Ok pos
                ∧ Embeddings.embedding_size e mod 2 = 0
                ∧ 0 < Embeddings.embedding_size e.
Proof.
  destruct args_pe_init as [e He]. exists e. split; [exact He|].
  exact (proj2 (proj2 (init_positional_stage Elementwise_accepts zeros3 args_pe e He))
           eq_refl).
Defined.

Lemma embeddings_forward_stages_witness :
  ∃ e, Embeddings.init Elementwise_accepts zeros3 args_pe = Ok e
       ∧ ∀ err,
           EmbeddingsMethods.make_embedding_stages no_lookup same_mlp e [[[1]]] = Raise err →
           EmbeddingsMethods.forward no_lookup same_mlp zeros3 e [[[1]]] None = Raise err.
Proof.
  destruct args_pe_init as [e He]. exists e. split; [exact He|].
  exact (proj1 (embeddings_forward_stages Elementwise_accepts no_lookup same_mlp
                  zeros3 args_pe e zeros3 [[[1]]] None He)).
Defined.

Lemma update_dropout_stage_witness :
  ∃ e, Embeddings.init Elementwise_accepts zeros3 args_mlp_pe = Ok e
       ∧ ∃ msg, EmbeddingsMethods.update_dropout e (1 / 2)%R = Other (AttributeError msg).
Proof.
  destruct args_mlp_pe_init as [e He]. exists e. split; [exact He|].
  pose proof (update_dropout_stage Elementwise_accepts zeros3 args_mlp_pe e
                (1 / 2)%R He) as [_ H].
  assert (Hp : Embeddings.position_encoding args_mlp_pe = true) by reflexivity.
  destruct (H Hp) as [Hmlp _]. apply Hmlp.
  split; [reflexivity | discriminate].
Defined.

(** ** A registry of [Embeddings] instances *)

Lemma activate_all_last_witness :
  ∃ reg0,
    NoDup emb_languages.*1
    ∧ PluggableEmbeddings.init emb_languages = Ok reg0
    ∧ ∃ e, ("de"%string, e) ∈ emb_languages
           ∧ PluggableMethods.word_padding_idx
               (Pad := Embeddings.self_word_padding_idx)
               (PluggableMethods.activate_all ["en"; "fr"; "de"; "xx"]%string reg0)
             = Ok (Embeddings.self_word_padding_idx e).
Proof.
  assert (Hnd : NoDup emb_languages.*1)
    by (apply (bool_decide_unpack _); vm_compute; exact I).
  assert (∃ reg0, PluggableEmbeddings.init emb_languages = Ok reg0) as [reg0 Hinit]
    by (eexists; reflexivity).
  exists reg0. split; [exact Hnd|]. split; [exact Hinit|].
  pose proof (activate_all_last
                (Mod := EmbeddingsMethods.forward no_lookup same_mlp zeros3)
                (Pad := Embeddings.self_word_padding_idx)
                emb_languages reg0 ["en"; "fr"; "de"; "xx"]%string Hnd Hinit) as H.
  cbv zeta in H. destruct H as [_ H].
  assert (Hlast : last (filter (λ k, k ∈ emb_languages.*1)
                          ["en"; "fr"; "de"; "xx"]%string) = Some "de"%string)
    by (vm_compute; reflexivity).
  destruct (H "de"%string Hlast) as (e & Hin & _ & _ & Hpad).
  exists e. split; [exact Hin | exact Hpad].
Defined.
End more_runs.
